(** * vision-scroll-select-stream: feed playback lifecycle and detection-event
    ingestion

    A shallow embedding of the TypeScript sources:
    - [VideoFeed] (latest draft): the locator classification effect, the load
      effect keyed on [retryCount], [getErrorMessage], [handleVideoError],
      [togglePlayback] and [retryLoading];
    - [Terminal]: the [window.fetch] override and the WebSocket effect with
      [handleConnectToggle];
    - [Index]: [toggleFeed];
    - [IndexPage]: the page state with [handleNewFeed], [updateFeedName],
      [changeDetectionMode], [handleNextFeed], [handlePrevFeed] and
      [displayedFeed], over the turns of the event loop;
    - [SocketLife]: the order of a socket's states and the status indicator;
    - [Playback]: the mounted [VideoFeed] over clicks, media events, promise
      results and feed changes;
    - [DetectionModes], [PromptSender]: the table of detection modes with
      [getCurrentModeName] and [shouldShowPrompt], and [handleSendPrompt] of
      the draft that posts prompts;
    - [Locator]: the texts the IP-camera pattern matches.

    Strings are sequences of code units below U+0100 (Rocq's [ascii]); on
    these [toLowerCase] acts unit by unit.  Platform services the repository
    calls but does not define ([JSON.parse], [new URL(..).pathname], the
    [WebSocket] constructor's URL check, the page origin) are the fields of
    the class [Platform]; a handler that reads the clock takes the reading
    as an argument. *)

From stdpp Require Import base list strings pretty.
From Stdlib Require Import Ascii ZArith Lia.

Local Open Scope nat_scope.
Set Warnings "-register-all".

(** ** JavaScript strings *)

Module JSString.

Definition ord (c : ascii) : nat := nat_of_ascii c.
Definition chr (n : nat) : ascii := ascii_of_nat n.

Definition between (lo hi : nat) (c : ascii) : bool :=
  (lo <=? ord c) && (ord c <=? hi).

(** [A-Z] *)
Definition is_upper (c : ascii) : bool := between 65 90 c.
(** The upper-case letters of the Latin-1 supplement: U+00C0..U+00DE
    without the multiplication sign U+00D7. *)
Definition is_latin1_upper (c : ascii) : bool :=
  between 192 222 c && negb (ord c =? 215).
(** [a-z] *)
Definition is_lower (c : ascii) : bool := between 97 122 c.
(** [[0-9]], the class [\d] *)
Definition is_digit (c : ascii) : bool := between 48 57 c.
(** The class [\w]: [[A-Za-z0-9_]] *)
Definition is_word (c : ascii) : bool :=
  is_upper c || is_lower c || is_digit c || (ord c =? 95).

Definition lower_char (c : ascii) : ascii :=
  if is_upper c || is_latin1_upper c then chr (ord c + 32) else c.

(** [String.prototype.toLowerCase] *)
Fixpoint toLowerCase (s : string) : string :=
  match s with
  | EmptyString => EmptyString
  | String c s' => String (lower_char c) (toLowerCase s')
  end.

(** [String.prototype.startsWith] *)
Definition startsWith (s sub : string) : bool := String.prefix sub s.

(** [String.prototype.endsWith]: the last [length suf] units of [s] are
    [suf]. *)
Definition endsWith (s suf : string) : bool :=
  let n := String.length s in
  let m := String.length suf in
  (m <=? n) && String.eqb (String.substring (n - m) m s) suf.

(** [String.prototype.includes]: [sub] starts at some index of [s]. *)
Fixpoint includes (s sub : string) : bool :=
  String.prefix sub s ||
  match s with
  | EmptyString => false
  | String _ s' => includes s' sub
  end.

(** Truthiness of a string: the empty string is falsy. *)
Definition truthy (s : string) : bool :=
  match s with EmptyString => false | _ => true end.

Fixpoint all_chars (p : ascii → bool) (s : string) : bool :=
  match s with
  | EmptyString => true
  | String c s' => p c && all_chars p s'
  end.

Fixpoint mem_char (c : ascii) (s : string) : bool :=
  match s with
  | EmptyString => false
  | String d s' => Ascii.eqb c d || mem_char c s'
  end.

(** *** Specification-level notions, independent of the functions above *)

(** [a] and [b] are the same character up to the case of an ASCII letter. *)
Definition same_letter (a b : ascii) : Prop :=
  a = b ∨ (is_upper a = true ∧ ord b = ord a + 32)
        ∨ (is_upper b = true ∧ ord a = ord b + 32).

Fixpoint eq_ignoring_case (s t : string) : Prop :=
  match s, t with
  | EmptyString, EmptyString => True
  | String a s', String b t' => same_letter a b ∧ eq_ignoring_case s' t'
  | _, _ => False
  end.

(** [s] ends with [suf], compared case-insensitively. *)
Definition ends_with_ci (s suf : string) : Prop :=
  ∃ pre tail, s = pre +:+ tail ∧ eq_ignoring_case tail suf.

(** [sub] occurs in [s], compared case-insensitively. *)
Definition contains_ci (s sub : string) : Prop :=
  ∃ pre mid post, s = pre +:+ mid +:+ post ∧ eq_ignoring_case mid sub.

(** [s] starts with [sub], compared case-insensitively. *)
Definition starts_with_ci (s sub : string) : Prop :=
  ∃ head post, s = head +:+ post ∧ eq_ignoring_case head sub.

(** A text the lower-casing leaves alone and made of ASCII units only. *)
Definition plain_lower (s : string) : bool :=
  all_chars (λ c, (ord c <? 128) && negb (is_upper c)) s.

End JSString.

(** ** Regular expressions, as far as the sources use them

    Sequencing, optional groups, bounded repetition (written out), repetition
    of a character class, the word-boundary assertion and the end anchor.
    [accepts] is a backtracking matcher in continuation-passing style: it
    answers whether some way of matching [r] at the current position lets the
    continuation succeed, which is all [RegExp.prototype.test] and
    [match(..) !== null] observe.  [prev] is the unit before the current
    position, if any (the word-boundary assertion looks at it). *)

Module Regex.
Import JSString.

Inductive regex : Type :=
| Empty
| Class (p : ascii → bool)
| Cat (r1 r2 : regex)
| Opt (r : regex)
| Star (p : ascii → bool)
| WordBoundary
| EndOfInput.

Definition Plus (p : ascii → bool) : regex := Cat (Class p) (Star p).

(** [r{1,3}] for a class *)
Definition Rep1to3 (p : ascii → bool) : regex :=
  Cat (Class p) (Opt (Cat (Class p) (Opt (Class p)))).

Definition Lit (c : ascii) : regex := Class (Ascii.eqb c).

Definition head_is_word (s : string) : bool :=
  match s with
  | EmptyString => false
  | String c _ => is_word c
  end.

Definition prev_is_word (prev : option ascii) : bool :=
  match prev with
  | None => false
  | Some c => is_word c
  end.

Definition at_word_boundary (prev : option ascii) (s : string) : bool :=
  xorb (prev_is_word prev) (head_is_word s).

Fixpoint star (p : ascii → bool) (prev : option ascii) (s : string)
    (k : option ascii → string → bool) : bool :=
  k prev s ||
  match s with
  | EmptyString => false
  | String c s' => p c && star p (Some c) s' k
  end.

Fixpoint accepts (r : regex) (prev : option ascii) (s : string)
    (k : option ascii → string → bool) : bool :=
  match r with
  | Empty => k prev s
  | Class p =>
      match s with
      | EmptyString => false
      | String c s' => p c && k (Some c) s'
      end
  | Cat r1 r2 => accepts r1 prev s (λ prev' s', accepts r2 prev' s' k)
  | Opt r1 => accepts r1 prev s k || k prev s
  | Star p => star p prev s k
  | WordBoundary => at_word_boundary prev s && k prev s
  | EndOfInput =>
      match s with
      | EmptyString => k prev s
      | String _ _ => false
      end
  end.

(** A match starting at the current position or at any later one. *)
Fixpoint search (r : regex) (prev : option ascii) (s : string) : bool :=
  accepts r prev s (λ _ _, true) ||
  match s with
  | EmptyString => false
  | String c s' => search r (Some c) s'
  end.

(** [re.test(s)] for a regex without flags; also [s.match(re) !== null]. *)
Definition test (r : regex) (s : string) : bool := search r None s.

End Regex.

(** ** VideoFeed: locator classification *)

Module VideoFeed.
Import JSString Regex.

Definition video_extensions : list string :=
  [".mp4"; ".webm"; ".mov"; ".avi"; ".mkv"].

(** [url.endsWith('.mp4') || url.endsWith('.webm') || url.endsWith('.mov') ||
    url.endsWith('.avi') || url.endsWith('.mkv')] *)
Definition isVideoFile (url : string) : bool :=
  endsWith url ".mp4" || endsWith url ".webm" || endsWith url ".mov" ||
  endsWith url ".avi" || endsWith url ".mkv".

(** The bracket expression of the optional path group: [\w] or one of the
    escaped marks [/ . _ - ~ : ? # [ ] @ ! $ & ' ( ) * + , ; =]. *)
Definition url_tail_char (c : ascii) : bool :=
  is_word c || mem_char c "/._-~:?#[]@!$&'()*+,;=".

Definition dot : regex := Lit ".".
Definition octet_dot : regex := Cat (Rep1to3 is_digit) dot.

(** The IP-camera pattern of the latest draft: a word boundary, three times
    one to three digits and a dot, one to three digits, an optional colon
    with one or more digits, an optional slash with any number of
    [url_tail_char], and the end of the input.  With blanks between its
    parts and CLASS for the bracket expression, the source reads
    [\b (?:[0-9]{1,3}\.){3} [0-9]{1,3} (?::[0-9]+)? (?:\/ CLASS* )? $]. *)
Definition ip_camera_re : regex :=
  Cat WordBoundary
 (Cat octet_dot (Cat octet_dot (Cat octet_dot
 (Cat (Rep1to3 is_digit)
 (Cat (Opt (Cat (Lit ":") (Plus is_digit)))
 (Cat (Opt (Cat (Lit "/") (Star url_tail_char)))
      EndOfInput)))))).

(** The pattern of the earlier draft, [\d+\.\d+\.\d+\.\d+]: four runs of
    one or more digits separated by dots, anywhere in the input. *)
Definition dotted_quad_re : regex :=
  Cat (Plus is_digit) (Cat dot
 (Cat (Plus is_digit) (Cat dot
 (Cat (Plus is_digit) (Cat dot
      (Plus is_digit)))))).

(** The [isStream] predicate of the classification effect. *)
Definition isStream (url : string) : bool :=
  includes url "rtsp://" || includes url "rtmp://" ||
  includes url "http://" || includes url "https://" ||
  includes url "stream" || includes url "video_feed" ||
  test ip_camera_re url.

(** [isStream] of the earlier draft (components/VideoFeed.tsx). *)
Definition isStream_draft (url : string) : bool :=
  includes url "rtsp://" || includes url "rtmp://" ||
  includes url "http://" || includes url "https://" ||
  includes url "stream" ||
  test dotted_quad_re url.

Inductive SourceKind : Type := StaticImage | FileVideo | LiveStream.

(** What the render reads off the two flags: no [<video>] element unless
    [isVideoFeed]; a live badge and no looping when [isLiveStream]. *)
Definition kind_of_flags (isVideoFeed isLiveStream : bool) : SourceKind :=
  if isLiveStream then LiveStream
  else if isVideoFeed then FileVideo
  else StaticImage.

(** The two flags the classification effect sets:
    [setIsVideoFeed(isVideoFile || isStream)] and
    [setIsLiveStream(isStream && !isVideoFile)], on
    [url = feed.url.toLowerCase()]. *)
Definition classification_flags (feed_url : string) : bool * bool :=
  let url := toLowerCase feed_url in
  (isVideoFile url || isStream url, isStream url && negb (isVideoFile url)).

Definition classify (feed_url : string) : SourceKind :=
  let '(isVideoFeed, isLiveStream) := classification_flags feed_url in
  kind_of_flags isVideoFeed isLiveStream.

Definition classification_flags_draft (feed_url : string) : bool * bool :=
  let url := toLowerCase feed_url in
  (isVideoFile url || isStream_draft url,
   isStream_draft url && negb (isVideoFile url)).

Definition classify_draft (feed_url : string) : SourceKind :=
  let '(isVideoFeed, isLiveStream) := classification_flags_draft feed_url in
  kind_of_flags isVideoFeed isLiveStream.

(** The substrings [isStream] looks for with [includes]. *)
Definition stream_markers : list string :=
  ["rtsp://"; "rtmp://"; "http://"; "https://"; "stream"; "video_feed"].

(** *** Specification-level locators *)

(** The units a bare dotted quad with a port is made of. *)
Definition ipv4_char (c : ascii) : bool :=
  is_digit c || Ascii.eqb c "." || Ascii.eqb c ":".

Definition digits (s : string) : Prop := all_chars is_digit s = true.

(** One to three decimal digits. *)
Definition octet (s : string) : Prop :=
  digits s ∧ 1 ≤ String.length s ≤ 3.

(** Nothing, or a colon and at least one digit. *)
Definition optional_port (s : string) : Prop :=
  s = "" ∨ ∃ p, s = ":" +:+ p ∧ digits p ∧ p ≠ "".

(** A bare dotted quad with an optional port, e.g. [192.168.1.10:8080]. *)
Definition bare_ipv4 (s : string) : Prop :=
  ∃ a b c d port,
    octet a ∧ octet b ∧ octet c ∧ octet d ∧ optional_port port ∧
    s = a +:+ "." +:+ b +:+ "." +:+ c +:+ "." +:+ d +:+ port.

(** *** The playback session: component state and its handlers *)

(** The [useState] cells of the component. *)
Record Session : Type := {
  isPlaying : bool;
  isVideoFeed : bool;
  isLiveStream : bool;
  hasError : bool;
  errorDetails : string;
  isLoading : bool;
  retryCount : nat
}.

Definition initial : Session :=
  {| isPlaying := false; isVideoFeed := true; isLiveStream := false;
     hasError := false; errorDetails := ""; isLoading := true;
     retryCount := 0 |}.

Definition setIsPlaying (b : bool) (s : Session) : Session :=
  {| isPlaying := b; isVideoFeed := isVideoFeed s;
     isLiveStream := isLiveStream s; hasError := hasError s;
     errorDetails := errorDetails s; isLoading := isLoading s;
     retryCount := retryCount s |}.
Definition setIsVideoFeed (b : bool) (s : Session) : Session :=
  {| isPlaying := isPlaying s; isVideoFeed := b;
     isLiveStream := isLiveStream s; hasError := hasError s;
     errorDetails := errorDetails s; isLoading := isLoading s;
     retryCount := retryCount s |}.
Definition setIsLiveStream (b : bool) (s : Session) : Session :=
  {| isPlaying := isPlaying s; isVideoFeed := isVideoFeed s;
     isLiveStream := b; hasError := hasError s;
     errorDetails := errorDetails s; isLoading := isLoading s;
     retryCount := retryCount s |}.
Definition setHasError (b : bool) (s : Session) : Session :=
  {| isPlaying := isPlaying s; isVideoFeed := isVideoFeed s;
     isLiveStream := isLiveStream s; hasError := b;
     errorDetails := errorDetails s; isLoading := isLoading s;
     retryCount := retryCount s |}.
Definition setErrorDetails (d : string) (s : Session) : Session :=
  {| isPlaying := isPlaying s; isVideoFeed := isVideoFeed s;
     isLiveStream := isLiveStream s; hasError := hasError s;
     errorDetails := d; isLoading := isLoading s;
     retryCount := retryCount s |}.
Definition setIsLoading (b : bool) (s : Session) : Session :=
  {| isPlaying := isPlaying s; isVideoFeed := isVideoFeed s;
     isLiveStream := isLiveStream s; hasError := hasError s;
     errorDetails := errorDetails s; isLoading := b;
     retryCount := retryCount s |}.
Definition setRetryCount (f : nat → nat) (s : Session) : Session :=
  {| isPlaying := isPlaying s; isVideoFeed := isVideoFeed s;
     isLiveStream := isLiveStream s; hasError := hasError s;
     errorDetails := errorDetails s; isLoading := isLoading s;
     retryCount := f (retryCount s) |}.

(** The part of [feed] the two effects depend on. *)
Record Feed : Type := { feed_id : string; feed_url : string }.

(** The three places that call [play()] and attach a [catch]. *)
Inductive PlaySite : Type := LoadEffect | StreamAutoplay | TogglePlayback.

(** Calls on the [<video>] element, the media sink. *)
Inductive SinkCall : Type :=
| Load
| Play (site : PlaySite)
| Pause.

(** The value a rejected [play()] promise carries, as far as the handlers
    read it: [error.name], [error.message], [error.code]. *)
Record JSError : Type := {
  name : option string;
  message : option string;
  code : option nat
}.

Definition message_includes (e : JSError) (sub : string) : bool :=
  match message e with
  | Some m => includes m sub
  | None => false
  end.

Definition name_is (e : JSError) (n : string) : bool :=
  bool_decide (name e = Some n).

Definition code_is (e : JSError) (n : nat) : bool :=
  bool_decide (code e = Some n).

(** [getErrorMessage]; the argument is [None] for [null]/[undefined]. *)
Definition getErrorMessage (error : option JSError) : string :=
  match error with
  | None =>
      "Unknown error loading camera feed. Check that the camera is powered on and the URL is correct."
  | Some e =>
      if name_is e "NotSupportedError" then
        "The video format is not supported by your browser, or the stream might be offline."
      else if name_is e "SecurityError" then
        "Security error: Camera access might be blocked due to CORS. Try enabling CORS on your camera server."
      else if name_is e "NetworkError" || message_includes e "network" then
        "Network error: Unable to connect to the camera stream. Check that the IP address is correct and accessible from your current network."
      else if name_is e "NotAllowedError" then
        "Permission denied: Browser prevented autoplay."
      else if code_is e 2 then
        "Network error: The camera might be on a different network or behind a firewall."
      else if code_is e 3 then
        "Decoding error: The video format might not be compatible with your browser."
      else if code_is e 4 then
        "Format not supported: The camera stream format is not compatible or the URL might be incorrect."
      else
        match message e with
        | Some m =>
            if truthy m then m
            else "Unknown error loading camera feed. Check that the camera is powered on and the URL is correct."
        | None =>
            "Unknown error loading camera feed. Check that the camera is powered on and the URL is correct."
        end
  end.

(** [renderVideoContent] returns the error panel when [hasError], the
    [<video>] element when [isVideoFeed], the static background otherwise;
    [videoRef.current] is the element of the committed render. *)
Definition video_mounted (s : Session) : bool :=
  negb (hasError s) && isVideoFeed s.

(** The load effect, keyed on [[feed.id, feed.url, retryCount]]: the state it
    sets and the calls it makes on the sink. *)
Definition load_effect (s : Session) : Session * list SinkCall :=
  let s' := setIsLoading true (setErrorDetails "" (setHasError false s)) in
  let calls :=
    if video_mounted s then
      Load :: (if isPlaying s || isLiveStream s then [Play LoadEffect]
               else [Pause])
    else [] in
  (s', calls).

Definition load_effect_deps (f : Feed) (s : Session)
    : string * string * nat :=
  (feed_id f, feed_url f, retryCount s).

(** The classification effect, keyed on [[feed.url]]. *)
Definition classification_effect (f : Feed) (s : Session)
    : Session * list SinkCall :=
  let url := toLowerCase (feed_url f) in
  let isVideoFile := isVideoFile url in
  let isStream := isStream url in
  let s1 := setIsLiveStream (isStream && negb isVideoFile)
              (setIsVideoFeed (isVideoFile || isStream) s) in
  if isStream && negb isVideoFile && video_mounted s then
    (setIsPlaying true s1, [Play StreamAutoplay])
  else (s1, []).

(** The [catch] attached to a [play()] promise at each site, run when the
    promise rejects with [error]. *)
Definition play_rejected (site : PlaySite) (error : JSError) (s : Session)
    : Session :=
  match site with
  | LoadEffect =>
      let s1 := setIsPlaying false s in
      if name_is error "NotAllowedError" then
        setHasError false
          (setErrorDetails
             "Browser prevented autoplay. Click play to start the stream." s1)
      else
        setErrorDetails (getErrorMessage (Some error)) (setHasError true s1)
  | StreamAutoplay =>
      setErrorDetails (getErrorMessage (Some error))
        (setHasError true (setIsPlaying false s))
  | TogglePlayback =>
      setErrorDetails (getErrorMessage (Some error))
        (setHasError true (setIsPlaying false s))
  end.

(** The [then] of [togglePlayback]'s promise. *)
Definition play_resolved (s : Session) : Session :=
  setErrorDetails "" (setHasError false (setIsPlaying true s)).

Definition handleVideoLoaded (s : Session) : Session :=
  setErrorDetails "" (setHasError false (setIsLoading false s)).

(** [videoElement.error]: a [MediaError] with its code and message, or
    [null]. *)
Record MediaError : Type := { media_code : nat; media_message : string }.

Definition handleVideoError (err : option MediaError) (s : Session)
    : Session :=
  let detailedError :=
    match err with
    | Some e =>
        match media_code e with
        | 1 => "Loading was aborted"
        | 2 => "Network error: The camera might be on a different network or the URL is incorrect"
        | 3 => "Video decoding error or unsupported format"
        | 4 => "Video format not supported or camera stream unavailable. Check if the URL endpoint returns a valid video stream."
        | _ =>
            if truthy (media_message e) then media_message e
            else "Unknown error loading video"
        end
    | None => "Unknown error loading video"
    end in
  setErrorDetails detailedError (setHasError true (setIsLoading false s)).

Definition togglePlayback (s : Session) : Session * list SinkCall :=
  if video_mounted s then
    if isPlaying s then (setIsPlaying false s, [Pause])
    else (setIsLoading true s, [Play TogglePlayback])
  else (s, []).

Definition retryLoading (s : Session) : Session :=
  setErrorDetails ""
    (setHasError false (setIsLoading true (setRetryCount (λ prev, prev + 1) s))).

(** One commit: after the state [s] produced by a handler is rendered, the
    load effect runs again when one of its dependencies differs from the
    previous render's. *)
Definition commit (f_prev : Feed) (s_prev : Session) (f : Feed) (s : Session)
    : Session * list SinkCall :=
  if bool_decide (load_effect_deps f_prev s_prev = load_effect_deps f s)
  then (s, [])
  else load_effect s.

(** A click on "Try Again": [retryLoading], then the commit of its updates
    with the same [feed]. *)
Definition retry_click (f : Feed) (s : Session) : Session * list SinkCall :=
  commit f s f (retryLoading s).

(** Mounting: both effects run, in order, after the initial render.  What
    the classification effect reads ([hasError], [isVideoFeed]) is the same
    in [initial] and after the load effect's updates. *)
Definition mount (f : Feed) : Session * list SinkCall :=
  let '(s1, calls1) := load_effect initial in
  let '(s2, calls2) := classification_effect f s1 in
  (s2, calls1 ++ calls2).

(** The Error state of the session, and its diagnostic. *)
Definition in_error (s : Session) : Prop := hasError s = true.
Definition lastError (s : Session) : string := errorDetails s.

End VideoFeed.

(** ** JSON values and the conversions the handlers apply to them *)

Module JSON.
Import JSString.

(** A value as [JSON.parse] returns it; [num] stands for the doubles. *)
Inductive json (num : Type) : Type :=
| JNull
| JBool (b : bool)
| JNum (n : num)
| JStr (s : string)
| JArr (items : list (json num))
| JObj (fields : list (string * json num)).

Arguments JNull {num}.
Arguments JBool {num} b.
Arguments JNum {num} n.
Arguments JStr {num} s.
Arguments JArr {num} items.
Arguments JObj {num} fields.

Section Conversions.
Context {num : Type}.
Variable num_truthy : num → bool.
Variable num_toString : num → string.

Fixpoint lookup_field (key : string) (fields : list (string * json num))
    : option (json num) :=
  match fields with
  | [] => None
  | (k, v) :: rest => if String.eqb k key then Some v else lookup_field key rest
  end.

(** The result of reading a property: [None] is [undefined]. *)
Definition property := option (json num).

(** [data.key] for one of the keys the handlers read ([event], [feedId],
    [timestamp]): a TypeError on [null] (the outer [None]), the own field of
    an object, [undefined] on everything else (no prototype has these
    keys). *)
Definition get (data : json num) (key : string) : option property :=
  match data with
  | JNull => None
  | JObj fields => Some (lookup_field key fields)
  | _ => Some None
  end.

(** ToBoolean *)
Definition truthy_value (v : json num) : bool :=
  match v with
  | JNull => false
  | JBool b => b
  | JNum n => num_truthy n
  | JStr s => truthy s
  | JArr _ => true
  | JObj _ => true
  end.

(** [v || fallback] where [fallback] is a string literal or a time text. *)
Definition or_else (v : property) (fallback : string) : json num :=
  match v with
  | Some j => if truthy_value j then j else JStr fallback
  | None => JStr fallback
  end.

Definition has_field (key : string) (fields : list (string * json num))
    : bool :=
  match lookup_field key fields with Some _ => true | None => false end.

(** ToString, as a template literal applies it; [None] is a TypeError.  An
    array goes through [Array.prototype.join]: [null] elements give the empty
    text, the others are converted in turn and separated by commas.  A plain
    object gives [[object Object]] unless it has an own [toString] field,
    which is then not callable and leaves no conversion. *)
Fixpoint to_string (v : json num) : option string :=
  match v with
  | JNull => Some "null"
  | JBool true => Some "true"
  | JBool false => Some "false"
  | JNum n => Some (num_toString n)
  | JStr s => Some s
  | JArr items =>
      (fix join (l : list (json num)) : option string :=
         match l with
         | [] => Some ""
         | x :: rest =>
             match (match x with JNull => Some "" | _ => to_string x end) with
             | None => None
             | Some sx =>
                 match rest with
                 | [] => Some sx
                 | _ =>
                     match join rest with
                     | None => None
                     | Some sr => Some (sx +:+ "," +:+ sr)
                     end
                 end
             end
         end) items
  | JObj fields =>
      if has_field "toString" fields then None else Some "[object Object]"
  end.

End Conversions.
End JSON.

(** ** The platform services the components call *)

Class Platform : Type := {
  (** the doubles of the platform *)
  number : Type;
  (** ToBoolean on a number *)
  number_truthy : number → bool;
  (** Number.prototype.toString *)
  number_toString : number → string;
  (** [JSON.parse]; [None] when it throws a SyntaxError *)
  JSON_parse : string → option (JSON.json number);
  (** [new URL(text).pathname]; [None] when the constructor throws *)
  URL_pathname : string → option string;
  (** [new WebSocket(url)] returns a socket (it throws otherwise) *)
  WebSocket_accepts : string → bool;
  (** [window.location.origin] *)
  location_origin : string
}.

(** ** Terminal: the fetch override and the WebSocket effect *)

Module Terminal.
Import JSString JSON.

Section WithPlatform.
Context {P : Platform}.

Abbreviation json := (JSON.json number).

(** [event.data] of a [message] event. *)
Inductive FrameData : Type :=
| TextFrame (text : string)
| BinaryFrame.

(** [detail.data] of a dispatched [detectionEvent]. *)
Inductive Payload : Type :=
| Parsed (data : json)
| RawMessage (message : FrameData).

(** What a handler publishes or writes, in order. *)
Inductive Effect : Type :=
| ConsoleLog (label : string)
| ConsoleError (label : string)
| DispatchDetectionEvent (detail : Payload)
| Toast (title : json) (description : string) (destructive : bool).

Definition is_detection_event (e : Effect) : bool :=
  match e with DispatchDetectionEvent _ => true | _ => false end.

Definition is_toast (e : Effect) : bool :=
  match e with Toast _ _ _ => true | _ => false end.

(** The events and the status notifications among the effects. *)
Definition published (out : list Effect) : list Effect :=
  List.filter (λ e, is_detection_event e || is_toast e) out.

Definition detection_events (out : list Effect) : list Payload :=
  omap (λ e, match e with DispatchDetectionEvent d => Some d | _ => None end)
    out.

(** The toast both channels show for a parsed payload:
    [title: data.event || <label>] and
    [description: `Feed ID: ${data.feedId || 'Unknown'} - ${data.timestamp ||
    new Date().toLocaleTimeString()}`].  [None] when evaluating it throws. *)
Definition detection_toast (label : string) (now : string) (data : json)
    : option Effect :=
  match get data "event" with
  | None => None
  | Some event =>
      let eventType := or_else number_truthy event label in
      match get data "feedId", get data "timestamp" with
      | Some feedId, Some timestamp =>
          match to_string number_toString
                  (or_else number_truthy feedId "Unknown"),
                to_string number_toString
                  (or_else number_truthy timestamp now) with
          | Some f, Some t =>
              Some (Toast eventType ("Feed ID: " +:+ f +:+ " - " +:+ t) false)
          | _, _ => None
          end
      | _, _ => None
      end
  end.

(** A value that is no array and no object. *)
Definition scalar (v : json) : bool :=
  match v with
  | JArr _ | JObj _ => false
  | _ => true
  end.

Definition scalar_or_absent (v : property) : bool :=
  match v with
  | Some j => scalar j
  | None => true
  end.

(** A payload other than [null] whose [feedId] and [timestamp], when
    present, are scalars. *)
Definition plain_payload (data : json) : bool :=
  match get data "feedId", get data "timestamp" with
  | Some feedId, Some timestamp =>
      scalar_or_absent feedId && scalar_or_absent timestamp
  | _, _ => false
  end.

(** *** The [window.fetch] override *)

(** The first argument of [fetch]. *)
Inductive RequestInfo : Type :=
| InString (url : string)
| InURL (href : string)
| InRequest (url : string).

(** [init.body]: a string, or anything else ([undefined] included). *)
Inductive BodyInit : Type :=
| BodyText (text : string)
| BodyOther.

Record RequestInit : Type := {
  method : option string;
  body : BodyInit
}.

(** What the caller of [fetch] gets. *)
Inductive FetchResult : Type :=
| MockResponse (status : nat) (body_value : json)
| OriginalFetch (input : RequestInfo) (init : option RequestInit)
| Thrown.

Definition url_of (input : RequestInfo) : string :=
  match input with
  | InString url => url
  | InURL href => href
  | InRequest url => url
  end.

(** [init?.method === 'POST'] *)
Definition method_is_POST (init : option RequestInit) : bool :=
  match init with
  | Some i => bool_decide (method i = Some "POST")
  | None => false
  end.

(** The paths compared: [urlObj.pathname] and [endpointObj.pathname]. *)
Definition request_pathname (url : string) : option string :=
  URL_pathname (if startsWith url "http" then url
                else location_origin +:+ url).

Definition endpoint_pathname (apiEndpoint : string) : option string :=
  URL_pathname (location_origin +:+ apiEndpoint).

(** The condition of the [if] that guards the detection branch. *)
Definition matches (apiEndpoint : string) (input : RequestInfo)
    (init : option RequestInit) : bool :=
  match request_pathname (url_of input), endpoint_pathname apiEndpoint with
  | Some p, Some e => String.eqb p e && method_is_POST init
  | _, _ => false
  end.

Definition success_body : json := JObj [("success", JBool true)].

(** The body of the detection branch; [None] when it falls out of the
    [try] (or the [else]) towards the original fetch. *)
Definition process_detection (now : string) (init : option RequestInit)
    : list Effect * option FetchResult :=
  match init with
  | Some {| body := BodyText text |} =>
      match JSON_parse text with
      | Some data =>
          let dispatched :=
            [ConsoleLog "Received detection data:";
             DispatchDetectionEvent (Parsed data)] in
          match detection_toast "Detection event" now data with
          | Some toast =>
              (dispatched ++ [toast; ConsoleLog "Returning mock response:"],
               Some (MockResponse 200 success_body))
          | None =>
              (dispatched ++ [ConsoleError "Error processing detection data:"],
               None)
          end
      | None => ([ConsoleError "Error processing detection data:"], None)
      end
  | _ => ([ConsoleError "Request body is not a string:"], None)
  end.

(** The function installed as [window.fetch]. *)
Definition fetch_override (apiEndpoint : string) (now : string)
    (input : RequestInfo) (init : option RequestInit)
    : list Effect * FetchResult :=
  let url := url_of input in
  let log1 := [ConsoleLog "Fetch intercepted:"] in
  match request_pathname url, endpoint_pathname apiEndpoint with
  | Some p, Some e =>
      let log2 := log1 ++ [ConsoleLog "Comparing paths:"] in
      if String.eqb p e && method_is_POST init then
        let '(effects, result) := process_detection now init in
        let log3 :=
          log2 ++ [ConsoleLog "Detection endpoint matched! Processing request..."]
               ++ effects in
        match result with
        | Some r => (log3, r)
        | None => (log3, OriginalFetch input init)
        end
      else (log2, OriginalFetch input init)
  | _, _ => (log1, Thrown)
  end.

(** A request is intercepted when the override enters the detection branch,
    which it announces on the console first. *)
Definition intercepted (effects : list Effect) : Prop :=
  ConsoleLog "Detection endpoint matched! Processing request..." ∈ effects.

(** The override of the first draft: [url.includes(apiEndpoint)] instead of
    the comparison of paths. *)
Definition matches_draft (apiEndpoint : string) (input : RequestInfo)
    (init : option RequestInit) : bool :=
  includes (url_of input) apiEndpoint && method_is_POST init.

(** *** The WebSocket effect *)

(** [ws.onmessage]: what it writes and publishes for one frame received at
    the clock reading [now].  [JSON.parse] converts a binary frame's data to
    a text of the form [[object ...]], which is no JSON. *)
Definition on_message (now : string) (frame : FrameData) : list Effect :=
  let fallback :=
    [ConsoleError "Error parsing WebSocket data:";
     DispatchDetectionEvent (RawMessage frame)] in
  ConsoleLog "WebSocket message received:" ::
  match frame with
  | TextFrame text =>
      match JSON_parse text with
      | Some data =>
          DispatchDetectionEvent (Parsed data) ::
          match detection_toast "WebSocket event" now data with
          | Some toast => [toast]
          | None => fallback
          end
      | None => fallback
      end
  | BinaryFrame => fallback
  end.

Inductive ReadyState : Type := CONNECTING | OPEN | CLOSING | CLOSED.

(** A [WebSocket] object: the URL it was constructed with (the [wsEndpoint]
    its handlers close over), its [readyState], and which of its handler
    properties are set. *)
Record Socket : Type := {
  url : string;
  readyState : ReadyState;
  onopen : bool;
  onmessage : bool;
  onerror : bool;
  onclose : bool
}.

(** The socket the effect builds: all four handlers assigned. *)
Definition new_socket (endpoint : string) : Socket :=
  {| url := endpoint; readyState := CONNECTING;
     onopen := true; onmessage := true; onerror := true; onclose := true |}.

(** [ws.close()] *)
Definition closed_by_script (sock : Socket) : Socket :=
  {| url := url sock;
     readyState := match readyState sock with
                   | CONNECTING | OPEN => CLOSING
                   | rs => rs
                   end;
     onopen := onopen sock; onmessage := onmessage sock;
     onerror := onerror sock; onclose := onclose sock |}.

Definition with_readyState (rs : ReadyState) (sock : Socket) : Socket :=
  {| url := url sock; readyState := rs;
     onopen := onopen sock; onmessage := onmessage sock;
     onerror := onerror sock; onclose := onclose sock |}.

(** A socket that is connecting or connected. *)
Definition active (sock : Socket) : bool :=
  match readyState sock with
  | CONNECTING | OPEN => true
  | _ => false
  end.

(** The component and the objects it has created.  [sockets] holds every
    [WebSocket] constructed so far, by index; [socket] (the state cell) and
    [effect_ws] (the [ws] variable the pending cleanup closes over) are
    references into it. *)
Record State : Type := {
  mounted : bool;
  wsEndpoint : string;
  wsConnected : bool;
  socket : option nat;
  effect_ws : option nat;
  sockets : list Socket;
  timers : list string;
  out : list Effect
}.

Definition initial : State :=
  {| mounted := false; wsEndpoint := "ws://localhost:8080/ws";
     wsConnected := false; socket := None; effect_ws := None;
     sockets := []; timers := []; out := [] |}.

Definition set_mounted (b : bool) (st : State) : State :=
  {| mounted := b; wsEndpoint := wsEndpoint st;
     wsConnected := wsConnected st; socket := socket st;
     effect_ws := effect_ws st; sockets := sockets st;
     timers := timers st; out := out st |}.
Definition set_wsEndpoint (v : string) (st : State) : State :=
  {| mounted := mounted st; wsEndpoint := v;
     wsConnected := wsConnected st; socket := socket st;
     effect_ws := effect_ws st; sockets := sockets st;
     timers := timers st; out := out st |}.
Definition set_effect_ws (w : option nat) (st : State) : State :=
  {| mounted := mounted st; wsEndpoint := wsEndpoint st;
     wsConnected := wsConnected st; socket := socket st;
     effect_ws := w; sockets := sockets st;
     timers := timers st; out := out st |}.
Definition set_sockets (l : list Socket) (st : State) : State :=
  {| mounted := mounted st; wsEndpoint := wsEndpoint st;
     wsConnected := wsConnected st; socket := socket st;
     effect_ws := effect_ws st; sockets := l;
     timers := timers st; out := out st |}.
Definition set_timers (l : list string) (st : State) : State :=
  {| mounted := mounted st; wsEndpoint := wsEndpoint st;
     wsConnected := wsConnected st; socket := socket st;
     effect_ws := effect_ws st; sockets := sockets st;
     timers := l; out := out st |}.
Definition emit (es : list Effect) (st : State) : State :=
  {| mounted := mounted st; wsEndpoint := wsEndpoint st;
     wsConnected := wsConnected st; socket := socket st;
     effect_ws := effect_ws st; sockets := sockets st;
     timers := timers st; out := out st ++ es |}.

(** [setWsConnected] and [setSocket]: updates of an unmounted component are
    dropped. *)
Definition setWsConnected (b : bool) (st : State) : State :=
  if mounted st then
    {| mounted := mounted st; wsEndpoint := wsEndpoint st;
       wsConnected := b; socket := socket st;
       effect_ws := effect_ws st; sockets := sockets st;
       timers := timers st; out := out st |}
  else st.
Definition setSocket (w : option nat) (st : State) : State :=
  if mounted st then
    {| mounted := mounted st; wsEndpoint := wsEndpoint st;
       wsConnected := wsConnected st; socket := w;
       effect_ws := effect_ws st; sockets := sockets st;
       timers := timers st; out := out st |}
  else st.

(** [close()] on the socket object at index [id]. *)
Definition close_socket (id : nat) (st : State) : State :=
  set_sockets (alter closed_by_script id (sockets st)) st.

(** The cleanup the effect returns:
    [if (ws) { ws.close(); setSocket(null); setWsConnected(false); }] *)
Definition ws_cleanup (st : State) : State :=
  match effect_ws st with
  | Some id =>
      set_effect_ws None
        (setWsConnected false (setSocket None (close_socket id st)))
  | None => st
  end.

(** The effect body for the committed [wsEndpoint]: construct the socket,
    assign the four handlers, [setSocket(ws)]; a constructor that throws is
    caught and logged, and [ws] stays [null]. *)
Definition ws_effect (st : State) : State :=
  let st1 := emit [ConsoleLog "Setting up WebSocket connection to:"] st in
  if WebSocket_accepts (wsEndpoint st) then
    let id := length (sockets st) in
    setSocket (Some id)
      (set_effect_ws (Some id)
         (set_sockets (sockets st ++ [new_socket (wsEndpoint st)]) st1))
  else
    set_effect_ws None (emit [ConsoleError "Error setting up WebSocket:"] st1).

(** [setWsEndpoint(v)] and the commit that follows: when the value changes,
    the previous effect is cleaned up and the effect runs for the new
    value. *)
Definition setWsEndpoint (v : string) (st : State) : State :=
  if mounted st then
    if bool_decide (v = wsEndpoint st) then st
    else ws_effect (set_wsEndpoint v (ws_cleanup st))
  else st.

(** [handleConnectToggle] *)
Definition handleConnectToggle (st : State) : State :=
  match wsConnected st, socket st with
  | true, Some id =>
      setWsConnected false (setSocket None (close_socket id st))
  | _, _ =>
      let endpoint := wsEndpoint st in
      let st1 := setWsEndpoint "" st in
      set_timers (timers st1 ++ [endpoint]) st1
  end.

(** The callbacks the platform delivers to a socket object. *)
Inductive Callback : Type :=
| CbOpen
| CbMessage (now : string) (frame : FrameData)
| CbError
| CbClose.

Definition fixed_toast (title description : string) (destructive : bool)
    : Effect :=
  Toast (JStr title) description destructive.

(** The handler the effect assigned for each callback, as it runs for the
    socket [sock]. *)
Definition handler (sock : Socket) (cb : Callback) (st : State) : State :=
  match cb with
  | CbOpen =>
      emit [fixed_toast "WebSocket Connected" ("Connected to " +:+ url sock)
              false]
        (setWsConnected true
           (emit [ConsoleLog "WebSocket connection established"] st))
  | CbMessage now frame => emit (on_message now frame) st
  | CbError =>
      setWsConnected false
        (emit [ConsoleError "WebSocket error:";
               fixed_toast "WebSocket Error"
                 "Failed to connect to WebSocket server" true] st)
  | CbClose =>
      emit [fixed_toast "WebSocket Disconnected"
              "Connection to WebSocket server closed" false]
        (setWsConnected false
           (emit [ConsoleLog "WebSocket connection closed"] st))
  end.

Definition handler_set (sock : Socket) (cb : Callback) : bool :=
  match cb with
  | CbOpen => onopen sock
  | CbMessage _ _ => onmessage sock
  | CbError => onerror sock
  | CbClose => onclose sock
  end.

(** When the platform fires a callback on a socket, and the [readyState] it
    leaves: [open] only while connecting, [message] only while open, [error]
    and [close] on any socket that is not closed yet.  Only turns that run a
    handler are turns of this model: the task in which a closing handshake
    started by the peer moves an open socket to CLOSING runs none and is
    left out, so an open socket of the model may be closing already on the
    platform. *)
Definition fires (sock : Socket) (cb : Callback) : option ReadyState :=
  match cb, readyState sock with
  | CbOpen, CONNECTING => Some OPEN
  | CbMessage _ _, OPEN => Some OPEN
  | CbError, (CONNECTING | OPEN | CLOSING) => Some CLOSING
  | CbClose, (CONNECTING | OPEN | CLOSING) => Some CLOSED
  | _, _ => None
  end.

(** The platform delivers [cb] to the socket object [id]: the handler
    property, if set, runs. *)
Definition deliver (id : nat) (cb : Callback) (st : State) : State :=
  match sockets st !! id with
  | Some sock =>
      match fires sock cb with
      | Some rs =>
          let st1 := set_sockets (alter (with_readyState rs) id (sockets st))
                       st in
          if handler_set sock cb then handler sock cb st1 else st1
      | None => st
      end
  | None => st
  end.

(** The turns of the event loop that concern the component. *)
Inductive Event : Type :=
| Mount
| Unmount
| ConnectToggle
| EndpointChange (v : string)
| TimerFires
| SocketCallback (id : nat) (cb : Callback).

Definition step (ev : Event) (st : State) : State :=
  match ev with
  | Mount => if mounted st then st else ws_effect (set_mounted true st)
  | Unmount =>
      if mounted st then set_mounted false (ws_cleanup st) else st
  | ConnectToggle => if mounted st then handleConnectToggle st else st
  | EndpointChange v => setWsEndpoint v st
  | TimerFires =>
      match timers st with
      | endpoint :: rest => setWsEndpoint endpoint (set_timers rest st)
      | [] => st
      end
  | SocketCallback id cb => deliver id cb st
  end.

Definition run (events : list Event) (st : State) : State :=
  foldl (λ st ev, step ev st) st events.

(** At most one socket object is connecting or connected. *)
Definition at_most_one_active (st : State) : Prop :=
  ∀ i j si sj,
    sockets st !! i = Some si → sockets st !! j = Some sj →
    active si = true → active sj = true → i = j.

(** Every socket object still has the four handlers the effect assigned. *)
Definition handlers_attached (st : State) : Prop :=
  ∀ id sock, sockets st !! id = Some sock →
    onopen sock = true ∧ onmessage sock = true ∧
    onerror sock = true ∧ onclose sock = true.

(** No socket object is connecting or connected. *)
Definition none_active (st : State) : Prop :=
  ∀ id sock, sockets st !! id = Some sock → active sock = false.

(** The invariant of the reachable states: handlers are never detached; a
    socket that is connecting or connected is the one the pending cleanup
    refers to; an unmounted component has no pending cleanup. *)
Record invariant (st : State) : Prop := {
  inv_handlers : handlers_attached st;
  inv_active : ∀ id sock,
    sockets st !! id = Some sock → active sock = true → effect_ws st = Some id;
  inv_unmounted : mounted st = false → effect_ws st = None
}.

Definition disconnected_toast : Effect :=
  fixed_toast "WebSocket Disconnected" "Connection to WebSocket server closed"
    false.

Definition error_toast : Effect :=
  fixed_toast "WebSocket Error" "Failed to connect to WebSocket server" true.

(** The effects added to [out] between two states. *)
Definition published_since (before after : State) : list Effect :=
  published (drop (length (out before)) (out after)).

(** The fetch effect: [window.fetch] is the override while the component is
    mounted, the original before and after. *)
Definition window_fetch (armed : bool) (apiEndpoint now : string)
    (input : RequestInfo) (init : option RequestInit)
    : list Effect * FetchResult :=
  if armed then fetch_override apiEndpoint now input init
  else ([], OriginalFetch input init).

End WithPlatform.
End Terminal.

(** ** Index: the set of active feeds *)

Module Index.

Record State : Type := {
  activeFeeds : list string;
  currentFeedIndex : nat
}.

(** The destructive toasts [toggleFeed] shows when it refuses. *)
Inductive Refusal : Type := CannotDeactivate | MaximumFeedsReached.

(** [toggleFeed(id)]: the next state, and the refusal shown, if any. *)
Definition toggleFeed (id : string) (st : State) : State * option Refusal :=
  if bool_decide (id ∈ activeFeeds st) then
    if bool_decide (length (activeFeeds st) = 1) then
      (st, Some CannotDeactivate)
    else
      ({| activeFeeds := filter (λ feedId, feedId ≠ id) (activeFeeds st);
          currentFeedIndex := 0 |}, None)
  else
    if bool_decide (5 ≤ length (activeFeeds st)) then
      (st, Some MaximumFeedsReached)
    else
      ({| activeFeeds := activeFeeds st ++ [id]; currentFeedIndex := 0 |},
       None).

(** The state after the mount effect's [setActiveFeeds(["1"])]. *)
Definition initial : State :=
  {| activeFeeds := ["1"]; currentFeedIndex := 0 |}.

Definition toggles (ids : list string) (st : State) : State :=
  foldl (λ st id, (toggleFeed id st).1) st ids.

(** At least one and at most five feeds are active. *)
Definition within_bounds (st : State) : Prop :=
  1 ≤ length (activeFeeds st) ≤ 5.

End Index.

(** ** A sample platform for the examples

    [sample_JSON_parse] and [sample_URL_pathname] agree with [JSON.parse] and
    [new URL(..).pathname] on the texts they list; they serve the examples
    below, which use no other text. *)

Module Sample.
Import JSString JSON.

Definition dq : string := String (ascii_of_nat 34) "".
Definition quoted (s : string) : string := dq +:+ s +:+ dq.

(** The frame [{ event: Vehicle detected, feedId: 2 }] in JSON syntax. *)
Definition vehicle_frame : string :=
  "{" +:+ quoted "event" +:+ ":" +:+ quoted "Vehicle detected" +:+ "," +:+
  quoted "feedId" +:+ ":" +:+ quoted "2" +:+ "}".

Definition vehicle_payload : json Z :=
  JObj [("event", JStr "Vehicle detected"); ("feedId", JStr "2")].

Definition sample_JSON_parse (text : string) : option (json Z) :=
  if String.eqb text "null" then Some JNull
  else if String.eqb text vehicle_frame then Some vehicle_payload
  else if String.eqb text "not json" then None
  else None.

Definition sample_URL_pathname (text : string) : option string :=
  if String.eqb text "http://localhost:8080/detection_output"
  then Some "/detection_output"
  else if String.eqb text "https://cam.example/detection_output"
  then Some "/detection_output"
  else if String.eqb text "http://localhost:8080/api/feeds"
  then Some "/api/feeds"
  else if String.eqb text "http://localhost:8080data:text/plain,hi"
  then None (* the port is not a number: the constructor throws *)
  else None.

Definition sample_platform : Platform :=
  {| number := Z;
     number_truthy := λ n, negb (Z.eqb n 0);
     number_toString := pretty;
     JSON_parse := sample_JSON_parse;
     URL_pathname := sample_URL_pathname;
     WebSocket_accepts := λ u, startsWith u "ws://" || startsWith u "wss://";
     location_origin := "http://localhost:8080" |}.

(** [{ method: POST, body: text }] *)
Definition post (text : string) : option Terminal.RequestInit :=
  Some {| Terminal.method := Some "POST"; Terminal.body := Terminal.BodyText text |}.

End Sample.

(** ** Index: the page state and its handlers *)

Module IndexPage.
Import JSString.

Record FeedData : Type := {
  id : string;
  name : string;
  url : string;
  active : bool;
  detectionMode : string
}.

Record DetectionMode : Type := {
  mode_id : string;
  mode_name : string;
  description : string
}.

(** The toasts the page shows. *)
Inductive Toast : Type :=
| NewCameraConnected (feed_name : string)
| Refused (why : Index.Refusal).

(** The [useState] cells of the page ([activeFeeds] and [currentFeedIndex]
    are [nav]), the toasts shown so far, and the pending timers of
    [changeDetectionMode], each with the feed name it closes over. *)
Record Page : Type := {
  feeds : list FeedData;
  detectionModes : list DetectionMode;
  terminalOutput : list string;
  nav : Index.State;
  toasts : list Toast;
  pending_results : list string
}.

(** The first render. *)
Definition initial : Page :=
  {| feeds := []; detectionModes := []; terminalOutput := [];
     nav := {| Index.activeFeeds := []; Index.currentFeedIndex := 0 |};
     toasts := []; pending_results := [] |}.

Definition setFeeds (f : list FeedData → list FeedData) (p : Page) : Page :=
  {| feeds := f (feeds p); detectionModes := detectionModes p;
     terminalOutput := terminalOutput p; nav := nav p;
     toasts := toasts p; pending_results := pending_results p |}.
Definition setDetectionModes (l : list DetectionMode) (p : Page) : Page :=
  {| feeds := feeds p; detectionModes := l;
     terminalOutput := terminalOutput p; nav := nav p;
     toasts := toasts p; pending_results := pending_results p |}.
Definition setTerminalOutput (f : list string → list string) (p : Page)
    : Page :=
  {| feeds := feeds p; detectionModes := detectionModes p;
     terminalOutput := f (terminalOutput p); nav := nav p;
     toasts := toasts p; pending_results := pending_results p |}.
Definition set_nav (n : Index.State) (p : Page) : Page :=
  {| feeds := feeds p; detectionModes := detectionModes p;
     terminalOutput := terminalOutput p; nav := n;
     toasts := toasts p; pending_results := pending_results p |}.
Definition toast (t : Toast) (p : Page) : Page :=
  {| feeds := feeds p; detectionModes := detectionModes p;
     terminalOutput := terminalOutput p; nav := nav p;
     toasts := toasts p ++ [t]; pending_results := pending_results p |}.
Definition set_pending (l : list string) (p : Page) : Page :=
  {| feeds := feeds p; detectionModes := detectionModes p;
     terminalOutput := terminalOutput p; nav := nav p;
     toasts := toasts p; pending_results := l |}.

(** [addTerminalMessage]; [now] is [new Date().toLocaleTimeString()]. *)
Definition addTerminalMessage (now message : string) (p : Page) : Page :=
  setTerminalOutput (λ prev, prev ++ ["[" +:+ now +:+ "] " +:+ message]) p.

Definition mockDetectionModes : list DetectionMode :=
  [ {| mode_id := "none"; mode_name := "None";
       description := "No detection" |};
    {| mode_id := "motion"; mode_name := "Motion Detection";
       description := "Detects movement in the frame" |};
    {| mode_id := "person"; mode_name := "Person Detection";
       description := "Identifies people in the frame" |};
    {| mode_id := "vehicle"; mode_name := "Vehicle Detection";
       description := "Identifies vehicles in the frame" |};
    {| mode_id := "object"; mode_name := "Object Detection";
       description := "Identifies various objects in the frame" |} ].

(** The state updates of the mount effect (its two timers call
    [handleNewFeed] later). *)
Definition mount (now : string) (p : Page) : Page :=
  addTerminalMessage now "System initialized. Ready for detection."
    (set_nav {| Index.activeFeeds := ["1"];
                Index.currentFeedIndex := Index.currentFeedIndex (nav p) |}
       (setDetectionModes mockDetectionModes p)).

Definition has_id (feedId : string) (feed : FeedData) : bool :=
  String.eqb (id feed) feedId.

(** [handleNewFeed] *)
Definition handleNewFeed (now : string) (newFeed : FeedData) (p : Page)
    : Page :=
  let feedExists := existsb (has_id (id newFeed)) (feeds p) in
  if feedExists then p
  else
    setFeeds (λ prevFeeds, prevFeeds ++ [newFeed])
      (toast (NewCameraConnected (name newFeed))
         (addTerminalMessage now
            ("New camera feed connected: " +:+ name newFeed) p)).

Definition with_name (newName : string) (feed : FeedData) : FeedData :=
  {| id := id feed; name := newName; url := url feed; active := active feed;
     detectionMode := detectionMode feed |}.

Definition with_detectionMode (modeId : string) (feed : FeedData) : FeedData :=
  {| id := id feed; name := name feed; url := url feed; active := active feed;
     detectionMode := modeId |}.

(** [updateFeedName] *)
Definition updateFeedName (now : string) (feedId newName : string) (p : Page)
    : Page :=
  addTerminalMessage now
    ("Camera feed " +:+ feedId +:+ " renamed to: " +:+ newName)
    (setFeeds
       (map (λ feed, if has_id feedId feed then with_name newName feed
                     else feed)) p).

(** [toggleFeed], with the toast of a refusal. *)
Definition toggleFeed (feedId : string) (p : Page) : Page :=
  let '(n, refusal) := Index.toggleFeed feedId (nav p) in
  match refusal with
  | Some why => toast (Refused why) (set_nav n p)
  | None => set_nav n p
  end.

(** [changeDetectionMode]: [mode] and [feed] are looked up in the rendered
    state; the body of its [try] does not throw. *)
Definition changeDetectionMode (now : string) (feedId modeId : string)
    (p : Page) : Page :=
  let p1 :=
    setFeeds
      (map (λ feed, if has_id feedId feed then with_detectionMode modeId feed
                    else feed)) p in
  let mode :=
    List.find (λ mode, String.eqb (mode_id mode) modeId) (detectionModes p) in
  let feed := List.find (has_id feedId) (feeds p) in
  match mode, feed with
  | Some mode, Some feed =>
      let p2 :=
        addTerminalMessage now
          ("Set detection mode for " +:+ name feed +:+ " to " +:+
           mode_name mode) p1 in
      if String.eqb modeId "none" then p2
      else set_pending (pending_results p2 ++ [name feed]) p2
  | _, _ => p1
  end.

(** The timer of [changeDetectionMode] fires. *)
Definition results_timer (now : string) (p : Page) : Page :=
  match pending_results p with
  | feed_name :: rest =>
      addTerminalMessage now
        ("Detection results for " +:+ feed_name +:+
         ": person (87%), backpack (63%)")
        (set_pending rest p)
  | [] => p
  end.

(** [handleNextFeed]: [(prev + 1) % activeFeeds.length] *)
Definition handleNextFeed (n : Index.State) : Index.State :=
  let len := length (Index.activeFeeds n) in
  if 1 <? len then
    {| Index.activeFeeds := Index.activeFeeds n;
       Index.currentFeedIndex :=
         Z.to_nat (Z.rem (Z.of_nat (Index.currentFeedIndex n) + 1)
                         (Z.of_nat len)) |}
  else n.

(** [handlePrevFeed]: [(prev - 1 + activeFeeds.length) %
    activeFeeds.length], in the integers. *)
Definition handlePrevFeed (n : Index.State) : Index.State :=
  let len := length (Index.activeFeeds n) in
  if 1 <? len then
    {| Index.activeFeeds := Index.activeFeeds n;
       Index.currentFeedIndex :=
         Z.to_nat (Z.rem (Z.of_nat (Index.currentFeedIndex n) - 1
                          + Z.of_nat len)
                         (Z.of_nat len)) |}
  else n.

(** [feeds.find(feed => feed.id === activeFeeds[currentFeedIndex])]; an index
    out of range reads [undefined], which no id equals. *)
Definition displayedFeed (p : Page) : option FeedData :=
  match Index.activeFeeds (nav p) !! Index.currentFeedIndex (nav p) with
  | Some feedId => List.find (has_id feedId) (feeds p)
  | None => None
  end.

(** What the sidebar shows for a feed: [activeFeeds.includes(feed.id)]. *)
Definition switch_checked (feedId : string) (n : Index.State) : bool :=
  bool_decide (feedId ∈ Index.activeFeeds n).

(** The turns of the event loop that concern the page. *)
Inductive Event : Type :=
| NewFeed (now : string) (feed : FeedData)
| Rename (now : string) (feedId newName : string)
| Toggle (feedId : string)
| ChangeMode (now : string) (feedId modeId : string)
| ResultsTimer (now : string)
| Next
| Prev.

Definition step (ev : Event) (p : Page) : Page :=
  match ev with
  | NewFeed now feed => handleNewFeed now feed p
  | Rename now feedId newName => updateFeedName now feedId newName p
  | Toggle feedId => toggleFeed feedId p
  | ChangeMode now feedId modeId => changeDetectionMode now feedId modeId p
  | ResultsTimer now => results_timer now p
  | Next => set_nav (handleNextFeed (nav p)) p
  | Prev => set_nav (handlePrevFeed (nav p)) p
  end.

Definition run (events : list Event) (p : Page) : Page :=
  foldl (λ p ev, step ev p) p events.

(** The page once mounted at the clock reading [now]. *)
Definition mounted (now : string) : Page := mount now initial.

(** What never changes of a feed entry. *)
Definition identity (feed : FeedData) : string * string * bool :=
  (id feed, url feed, active feed).

(** The displayed slot is well defined: pairwise distinct active feeds,
    between one and five of them, and an index inside the list. *)
Definition nav_ok (n : Index.State) : Prop :=
  NoDup (Index.activeFeeds n) ∧ Index.within_bounds n ∧
  Index.currentFeedIndex n < length (Index.activeFeeds n).

End IndexPage.

(** ** Terminal: the life of a socket object and the status indicator *)

Module SocketLife.
Import Terminal.

Section WithPlatform.
Context {P : Platform}.

(** The order in which a socket object goes through its states. *)
Definition rank (rs : ReadyState) : nat :=
  match rs with
  | CONNECTING => 0
  | OPEN => 1
  | CLOSING => 2
  | CLOSED => 3
  end.

(** Every socket object of [l] is still in [l'], at its index and with its
    URL, and no earlier in its life. *)
Definition advanced (l l' : list Socket) : Prop :=
  ∀ id sock, l !! id = Some sock →
    ∃ sock', l' !! id = Some sock' ∧ url sock' = url sock ∧
             rank (readyState sock) ≤ rank (readyState sock').

(** The socket object [id] is the one the [socket] cell and the pending
    cleanup refer to, and it is open. *)
Definition open_at (st : State) (id : nat) : Prop :=
  socket st = Some id ∧ effect_ws st = Some id ∧
  ∃ sock, sockets st !! id = Some sock ∧ readyState sock = OPEN.

(** The detection events dispatched between two states. *)
Definition detection_events_since (before after : State) : list Payload :=
  detection_events (drop (length (out before)) (out after)).

(** Between the two states the component only added to what it wrote, and
    dispatched no detection event. *)
Definition quiet (before after : State) : Prop :=
  ∃ es, out after = out before ++ es ∧ detection_events es = [].

(** The pending cleanup refers to a socket only if the constructor accepted
    the committed endpoint. *)
Definition effect_accepted (st : State) : Prop :=
  effect_ws st ≠ None → WebSocket_accepts (wsEndpoint st) = true.

(** What holds while the timers queued before a reconnect fire: the
    component stays mounted, keeps the [n] socket objects it had, and when
    the committed endpoint is [e] the effect's socket is a later object,
    built for [e]. *)
Definition awaiting (e : string) (n : nat) (st : State) : Prop :=
  mounted st = true ∧ n ≤ length (sockets st) ∧
  (wsEndpoint st = e →
   ∃ id, n ≤ id ∧ effect_ws st = Some id ∧
         sockets st !! id = Some (new_socket e)).

End WithPlatform.
End SocketLife.

(** ** VideoFeed: the mounted component over the turns of the event loop *)

Module Playback.
Import JSString VideoFeed.

(** The classification effect as it runs in a commit that also ran the load
    effect: [videoRef.current] is the element of the committed render
    [rendered], the updates are queued behind those in [s]. *)
Definition classification_effect_in (rendered : Session) (f : Feed)
    (s : Session) : Session * list SinkCall :=
  let url := toLowerCase (feed_url f) in
  let isVideoFile := isVideoFile url in
  let isStream := isStream url in
  let s1 := setIsLiveStream (isStream && negb isVideoFile)
              (setIsVideoFeed (isVideoFile || isStream) s) in
  if isStream && negb isVideoFile && video_mounted rendered then
    (setIsPlaying true s1, [Play StreamAutoplay])
  else (s1, []).

(** The component is rendered with another [feed] prop: the load effect runs
    when [feed.id] or [feed.url] differs, then the classification effect when
    [feed.url] differs; both read the state of that render. *)
Definition feed_changed (f_prev f : Feed) (s : Session)
    : Session * list SinkCall :=
  let '(s1, calls1) := commit f_prev s f s in
  if bool_decide (feed_url f_prev = feed_url f) then (s1, calls1)
  else
    let '(s2, calls2) := classification_effect_in s f s1 in
    (s2, calls1 ++ calls2).

(** The mounted component: the [feed] prop of its last render and its
    state. *)
Record Component : Type := { feed : Feed; session : Session }.

Inductive Event : Type :=
| FeedChanged (f : Feed)
| RetryClick
| ToggleClick
| PlayRejected (site : PlaySite) (error : JSError)
| PlayResolved
| VideoLoaded
| VideoError (err : option MediaError).

Definition with_session (c : Component) (r : Session * list SinkCall)
    : Component * list SinkCall :=
  ({| feed := feed c; session := r.1 |}, r.2).

Definition step (ev : Event) (c : Component) : Component * list SinkCall :=
  let s := session c in
  match ev with
  | FeedChanged f =>
      let r := feed_changed (feed c) f s in
      ({| feed := f; session := r.1 |}, r.2)
  | RetryClick => with_session c (retry_click (feed c) s)
  | ToggleClick => with_session c (togglePlayback s)
  | PlayRejected site error => with_session c (play_rejected site error s, [])
  | PlayResolved => with_session c (play_resolved s, [])
  | VideoLoaded => with_session c (handleVideoLoaded s, [])
  | VideoError err => with_session c (handleVideoError err s, [])
  end.

Definition run (events : list Event) (c : Component) : Component :=
  foldl (λ c ev, (step ev c).1) c events.

(** The component after its first commit. *)
Definition mounted (f : Feed) : Component :=
  {| feed := f; session := (mount f).1 |}.



End Playback.

(** ** VideoFeed: the table of detection modes and the prompt *)

Module DetectionModes.
Import JSString.

Record Child : Type := {
  child_id : string;
  child_name : string;
  child_prompt : bool
}.

(** An entry of the table; [prompt] and [children] are [None] where the
    object literal has no such property. *)
Record Mode : Type := {
  mode_id : string;
  mode_name : string;
  prompt : option bool;
  children : option (list Child)
}.

Definition detectionModes : list Mode :=
  [ {| mode_id := "none"; mode_name := "None"; prompt := Some false;
       children := None |};
    {| mode_id := "object"; mode_name := "Object Detection";
       prompt := Some true; children := None |};
    {| mode_id := "motion"; mode_name := "Motion Detection";
       prompt := Some true; children := None |};
    {| mode_id := "object-motion";
       mode_name := "Object-specific Motion Detection";
       prompt := Some true; children := None |};
    {| mode_id := "no-go"; mode_name := "No-go Zones"; prompt := None;
       children :=
         Some [ {| child_id := "entrance"; child_name := "Entrance Detection";
                   child_prompt := true |};
                {| child_id := "floor"; child_name := "Floor Detection";
                   child_prompt := true |} ] |} ].

Definition is_child (detectionMode : string) (child : Child) : bool :=
  String.eqb (child_id child) detectionMode.

Definition is_mode (detectionMode : string) (mode : Mode) : bool :=
  String.eqb (mode_id mode) detectionMode.

(** The loop of [getCurrentModeName] over a table. *)
Fixpoint mode_name_in (modes : list Mode) (detectionMode : string) : string :=
  match modes with
  | [] => "None"
  | mode :: rest =>
      if is_mode detectionMode mode then mode_name mode
      else
        match children mode with
        | Some cs =>
            match List.find (is_child detectionMode) cs with
            | Some child => child_name child
            | None => mode_name_in rest detectionMode
            end
        | None => mode_name_in rest detectionMode
        end
  end.

Definition getCurrentModeName (detectionMode : string) : string :=
  mode_name_in detectionModes detectionMode.

(** [mode.children?.some(child => child.id === feed.detectionMode)] *)
Definition has_child (detectionMode : string) (mode : Mode) : bool :=
  match children mode with
  | Some cs => existsb (is_child detectionMode) cs
  | None => false
  end.

(** [a || b] on values that are [true], [false] or [undefined]. *)
Definition or_undefined (a b : option bool) : option bool :=
  match a with
  | Some true => a
  | _ => b
  end.

(** [shouldShowPrompt] over a table; [None] is [undefined]. *)
Definition should_show_in (modes : list Mode) (detectionMode : string)
    : option bool :=
  let mode :=
    match List.find (is_mode detectionMode) modes with
    | Some m => Some m
    | None => List.find (has_child detectionMode) modes
    end in
  match mode with
  | Some m =>
      or_undefined (prompt m)
        match children m with
        | Some cs =>
            match List.find (is_child detectionMode) cs with
            | Some child => Some (child_prompt child)
            | None => None
            end
        | None => None
        end
  | None => None
  end.

Definition shouldShowPrompt (detectionMode : string) : option bool :=
  should_show_in detectionModes detectionMode.

(** [shouldShowPrompt() && (...)]: the prompt input is rendered. *)
Definition prompt_rendered (detectionMode : string) : bool :=
  match shouldShowPrompt detectionMode with
  | Some b => b
  | None => false
  end.

(** The ids of the table, children included. *)
Definition mode_ids : list string :=
  ["none"; "object"; "motion"; "object-motion"; "no-go"; "entrance"; "floor"].

End DetectionModes.

(** ** VideoFeed (the draft that sends prompts): [handleSendPrompt] *)

Module PromptSender.
Import JSString DetectionModes.

(** WhiteSpace and LineTerminator among the units below U+0100: TAB, LF, VT,
    FF, CR, SP and NBSP. *)
Definition is_white (c : ascii) : bool :=
  between 9 13 c || (ord c =? 32) || (ord c =? 160).

Fixpoint trimStart (s : string) : string :=
  match s with
  | EmptyString => EmptyString
  | String c s' => if is_white c then trimStart s' else s
  end.

Fixpoint trimEnd (s : string) : string :=
  match s with
  | EmptyString => EmptyString
  | String c s' =>
      match trimEnd s' with
      | EmptyString => if is_white c then EmptyString else String c EmptyString
      | t => String c t
      end
  end.

(** [String.prototype.trim] *)
Definition trim (s : string) : string := trimEnd (trimStart s).

Definition API_ENDPOINT : string := "https://api.example.com/detection-prompts".

(** The object passed to [JSON.stringify]. *)
Record PromptBody : Type := {
  body_feedId : string;
  body_feedName : string;
  body_detectionMode : string;
  body_prompt : string;
  body_timestamp : string
}.

(** How the [fetch] settles: a response with its status, or a rejection. *)
Inductive FetchOutcome : Type :=
| Responded (status : nat)
| Rejected.

(** [response.ok]: a status in the range 200..299. *)
Definition response_ok (status : nat) : bool :=
  (200 <=? status) && (status <=? 299).

Inductive Effect : Type :=
| OnChangeDetectionMode (feedId modeId prompt : string)
| Fetch (endpoint method : string) (body : PromptBody)
| ConsoleError (label : string)
| Toast (title description : string) (destructive : bool).

Definition sent_toast (detectionMode : string) : Effect :=
  Toast "Prompt sent successfully"
    (getCurrentModeName detectionMode +:+ " prompt sent to API") false.

Definition failed_toast : Effect :=
  Toast "Failed to send prompt" "Could not send the prompt to the remote API"
    true.

(** [handleSendPrompt] for the rendered [feed] and [promptInput]; [now] is
    [new Date().toISOString()], [outcome] how the request settles. *)
Definition handleSendPrompt (feed : IndexPage.FeedData)
    (promptInput now : string) (outcome : FetchOutcome) : list Effect :=
  OnChangeDetectionMode (IndexPage.id feed) (IndexPage.detectionMode feed)
    promptInput ::
  if truthy (trim promptInput) then
    Fetch API_ENDPOINT "POST"
      {| body_feedId := IndexPage.id feed;
         body_feedName := IndexPage.name feed;
         body_detectionMode := IndexPage.detectionMode feed;
         body_prompt := promptInput;
         body_timestamp := now |} ::
    match outcome with
    | Responded status =>
        if response_ok status then [sent_toast (IndexPage.detectionMode feed)]
        else [ConsoleError "Failed to send prompt to API:"; failed_toast]
    | Rejected => [ConsoleError "Failed to send prompt to API:"; failed_toast]
    end
  else [].

Definition requests (effects : list Effect) : list PromptBody :=
  omap (λ e, match e with Fetch _ _ b => Some b | _ => None end) effects.

Definition toasts (effects : list Effect) : list Effect :=
  List.filter (λ e, match e with Toast _ _ _ => true | _ => false end) effects.

(** Some unit of the text is no white space. *)
Definition has_ink (s : string) : bool := negb (all_chars is_white s).

End PromptSender.

(** ** VideoFeed: the locators the IP-camera pattern matches *)

Module Locator.
Import JSString Regex VideoFeed.

Fixpoint last_char (s : string) : option ascii :=
  match s with
  | EmptyString => None
  | String c s' =>
      match last_char s' with
      | Some d => Some d
      | None => Some c
      end
  end.

(** The unit before a position that lies [pre] into the text scanned from a
    position whose previous unit is [prev]. *)
Definition unit_before (prev : option ascii) (pre : string) : option ascii :=
  match last_char pre with
  | Some d => Some d
  | None => prev
  end.

(** The text before the address is empty or ends outside a word. *)
Definition ends_outside_word (pre : string) : Prop :=
  prev_is_word (last_char pre) = false.

(** Nothing, or a slash followed by units of the path class. *)
Definition optional_path (s : string) : Prop :=
  s = "" ∨ ∃ p, s = "/" +:+ p ∧ all_chars url_tail_char p = true.

(** A text that ends in a dotted quad with an optional port and an optional
    path, the quad starting the text or following a unit that is no word
    unit: [cam 10.0.0.7:8080/video], [rtp:192.168.1.10]. *)
Definition ip_camera_locator (s : string) : Prop :=
  ∃ pre a b c d port path,
    s = pre +:+ a +:+ "." +:+ b +:+ "." +:+ c +:+ "." +:+ d +:+ port +:+ path ∧
    ends_outside_word pre ∧
    octet a ∧ octet b ∧ octet c ∧ octet d ∧
    optional_port port ∧ optional_path path.

(** The tail of the pattern: the optional port, the optional path and the
    end of the input. *)
Definition port_path_end : regex :=
  Cat (Opt (Cat (Lit ":") (Plus is_digit)))
 (Cat (Opt (Cat (Lit "/") (Star url_tail_char))) EndOfInput).

End Locator.

(** * Proofs *)

(** * Facts about the string functions *)

Section StringFacts.
Import JSString.

Lemma append_cons c s t : String c s +:+ t = String c (s +:+ t).
Proof. reflexivity. Qed.

Lemma append_nil_l s : "" +:+ s = s.
Proof. reflexivity. Qed.

Lemma append_nil_r s : s +:+ "" = s.
Proof. induction s as [|c s IH]; [done|]. by rewrite append_cons, IH. Qed.

Lemma length_append s t :
  String.length (s +:+ t) = String.length s + String.length t.
Proof. induction s as [|c s IH]; [done|]. rewrite append_cons. simpl. by rewrite IH. Qed.

Lemma toLowerCase_append s t :
  toLowerCase (s +:+ t) = toLowerCase s +:+ toLowerCase t.
Proof.
  induction s as [|c s IH]; [done|].
  rewrite append_cons. simpl. by rewrite IH, append_cons.
Qed.

(** Splitting the lower-cased text splits the text. *)
Lemma toLowerCase_split s a b :
  toLowerCase s = a +:+ b →
  ∃ a' b', s = a' +:+ b' ∧ toLowerCase a' = a ∧ toLowerCase b' = b.
Proof.
  revert s. induction a as [|c a IH]; intros s H.
  - exists "", s. by rewrite !append_nil_l in *.
  - destruct s as [|d s]; [done|].
    rewrite append_cons in H. simpl in H. injection H as Hc Hs.
    destruct (IH _ Hs) as (a' & b' & -> & <- & <-).
    exists (String d a'), b'. rewrite append_cons. simpl. by rewrite Hc.
Qed.

Lemma all_chars_append p s t :
  all_chars p (s +:+ t) = all_chars p s && all_chars p t.
Proof.
  induction s as [|c s IH]; [done|].
  rewrite append_cons. simpl. by rewrite IH, andb_assoc.
Qed.

Lemma prefix_spec sub s :
  String.prefix sub s = true ↔ ∃ post, s = sub +:+ post.
Proof.
  revert s. induction sub as [|c sub IH]; intros s.
  - split; [intros _; by exists s|intros _; by destruct s].
  - destruct s as [|d s]; simpl.
    + split; [done|intros [post H]; by rewrite append_cons in H].
    + destruct (ascii_dec c d) as [->|Hne].
      * rewrite IH. split; intros [post H]; exists post.
        -- by rewrite append_cons, H.
        -- rewrite append_cons in H. congruence.
      * split; [done|]. intros [post H]. rewrite append_cons in H. congruence.
Qed.

Lemma includes_spec s sub :
  includes s sub = true ↔ ∃ pre post, s = pre +:+ sub +:+ post.
Proof.
  induction s as [|c s IH]; cbn [includes].
  - rewrite orb_false_r, prefix_spec. split.
    + intros [post H]. by exists "", post.
    + intros (pre & post & H). destruct pre; [by exists post|].
      by rewrite append_cons in H.
  - rewrite orb_true_iff, IH, prefix_spec. split.
    + intros [[post H]|(pre & post & H)].
      * by exists "", post.
      * exists (String c pre), post. by rewrite append_cons, H.
    + intros (pre & post & H). destruct pre as [|d pre].
      * left. by exists post.
      * right. rewrite append_cons in H. injection H as _ H. by exists pre, post.
Qed.

Lemma substring_append_r pre suf :
  String.substring (String.length pre) (String.length suf) (pre +:+ suf) = suf.
Proof.
  induction pre as [|c pre IH]; simpl.
  - rewrite append_nil_l. induction suf as [|d suf IH]; simpl; [done|].
    by rewrite IH.
  - exact IH.
Qed.

Lemma substring_split n m s :
  n + m = String.length s →
  ∃ pre, s = pre +:+ String.substring n m s ∧ String.length pre = n.
Proof.
  revert s. induction n as [|n IH]; intros s H.
  - exists "". split; [|done]. rewrite append_nil_l. simpl in H. subst m.
    induction s as [|c s IHs]; [done|]. simpl. by rewrite <- IHs.
  - destruct s as [|c s]; [done|]. simpl in H.
    destruct (IH s) as (pre & Hs & Hlen); [lia|].
    exists (String c pre). simpl. rewrite append_cons. split; [by f_equal|lia].
Qed.

Lemma endsWith_append pre suf : endsWith (pre +:+ suf) suf = true.
Proof.
  unfold endsWith. rewrite length_append.
  replace (String.length pre + String.length suf - String.length suf)
    with (String.length pre) by lia.
  rewrite substring_append_r, String.eqb_refl, andb_true_r.
  apply Nat.leb_le. lia.
Qed.

Lemma endsWith_spec s suf :
  endsWith s suf = true ↔ ∃ pre, s = pre +:+ suf.
Proof.
  split.
  - unfold endsWith. intros [Hle Heq]%andb_true_iff.
    apply Nat.leb_le in Hle. apply String.eqb_eq in Heq.
    destruct (substring_split (String.length s - String.length suf)
                (String.length suf) s) as (pre & Hs & _); [lia|].
    exists pre. congruence.
  - intros [pre ->]. apply endsWith_append.
Qed.

End StringFacts.

(** * Case folding *)

Section CaseFacts.
Import JSString.

Ltac unfold_classes :=
  unfold is_word, is_digit, is_lower, is_upper, is_latin1_upper, between in *.

Ltac bool_arith :=
  repeat match goal with
  | H : _ && _ = true |- _ => apply andb_true_iff in H as [? ?]
  | H : _ || _ = false |- _ => apply orb_false_iff in H as [? ?]
  | H : negb _ = true |- _ => apply negb_true_iff in H
  | H : negb _ = false |- _ => apply negb_false_iff in H
  | H : (_ <=? _) = true |- _ => apply Nat.leb_le in H
  | H : (_ <=? _) = false |- _ => apply Nat.leb_gt in H
  | H : (_ <? _) = true |- _ => apply Nat.ltb_lt in H
  | H : (_ <? _) = false |- _ => apply Nat.ltb_ge in H
  | H : (_ =? _) = true |- _ => apply Nat.eqb_eq in H
  | H : (_ =? _) = false |- _ => apply Nat.eqb_neq in H
  end.

Lemma lower_char_upper c :
  is_upper c = true → lower_char c = chr (ord c + 32).
Proof. intros H. unfold lower_char. by rewrite H. Qed.

Lemma lower_char_plain c :
  (ord c <? 128) && negb (is_upper c) = true → lower_char c = c.
Proof.
  intros H. unfold lower_char.
  destruct (is_upper c) eqn:Hu; [by rewrite andb_false_r in H|].
  destruct (is_latin1_upper c) eqn:Hl; [|done].
  unfold_classes. bool_arith. lia.
Qed.

Lemma chr_ord c : chr (ord c) = c.
Proof. apply ascii_nat_embedding. Qed.

Lemma ord_bound c : ord c < 256.
Proof. apply nat_ascii_bounded. Qed.

Lemma lower_char_same_letter a b :
  same_letter a b → (ord b <? 128) && negb (is_upper b) = true →
  lower_char a = b.
Proof.
  intros [->|[[Hu Hb]|[Hu _]]] Hplain.
  - by apply lower_char_plain.
  - rewrite (lower_char_upper _ Hu), <- Hb. apply chr_ord.
  - by rewrite Hu, andb_false_r in Hplain.
Qed.

Lemma same_letter_lower_char a b :
  lower_char a = b → (ord b <? 128) = true → same_letter a b.
Proof.
  unfold lower_char. intros H Hb.
  destruct (is_upper a) eqn:Hu; simpl in H.
  - right; left. split; [done|]. subst b. unfold chr, ord.
    apply nat_ascii_embedding. pose proof (ord_bound a).
    unfold_classes. bool_arith. unfold ord in *. lia.
  - destruct (is_latin1_upper a) eqn:Hl; [|by left].
    exfalso. subst b. unfold chr, ord in Hb.
    rewrite nat_ascii_embedding in Hb.
    + unfold_classes. bool_arith. unfold ord in *. lia.
    + unfold_classes. bool_arith. unfold ord in *. lia.
Qed.

(** Equal up to case to a lower-case ASCII text: lower-casing gives that
    text. *)
Lemma toLowerCase_eq_ignoring_case s t :
  eq_ignoring_case s t → plain_lower t = true → toLowerCase s = t.
Proof.
  revert t. induction s as [|a s IH]; intros [|b t]; simpl; try done.
  intros [Hab Hst] [Hb Ht]%andb_true_iff.
  by rewrite (lower_char_same_letter a b), (IH t).
Qed.

Lemma eq_ignoring_case_toLowerCase s t :
  toLowerCase s = t → all_chars (λ c, ord c <? 128) t = true →
  eq_ignoring_case s t.
Proof.
  revert t. induction s as [|a s IH]; intros [|b t]; simpl; try done.
  intros [= Hab Hst] [Hb Ht]%andb_true_iff.
  split; [by apply same_letter_lower_char|by apply IH].
Qed.

Lemma toLowerCase_fixed p s :
  (∀ c, p c = true → lower_char c = c) →
  all_chars p s = true → toLowerCase s = s.
Proof.
  intros Hp. induction s as [|c s IH]; simpl; [done|].
  intros [Hc Hs]%andb_true_iff. by rewrite (Hp c Hc), IH.
Qed.

(** What the code's tests on the lower-cased locator mean for the locator. *)
Lemma endsWith_lower_iff url ext :
  plain_lower ext = true →
  endsWith (toLowerCase url) ext = true ↔ ends_with_ci url ext.
Proof.
  intros Hext. rewrite endsWith_spec. split.
  - intros [pre H]. apply toLowerCase_split in H as (a & b & -> & _ & Hb).
    exists a, b. split; [done|]. apply eq_ignoring_case_toLowerCase; [done|].
    clear -Hext. induction ext as [|c ext IH]; simpl in *; [done|].
    apply andb_true_iff in Hext as [[Hc _]%andb_true_iff Ht].
    by rewrite Hc, IH.
  - intros (pre & tail & -> & H).
    exists (toLowerCase pre).
    by rewrite toLowerCase_append, (toLowerCase_eq_ignoring_case tail ext).
Qed.

Lemma includes_lower_iff url sub :
  plain_lower sub = true →
  includes (toLowerCase url) sub = true ↔ contains_ci url sub.
Proof.
  intros Hsub. rewrite includes_spec. split.
  - intros (pre & post & H).
    apply toLowerCase_split in H as (a & b & -> & _ & Hb).
    apply toLowerCase_split in Hb as (m & c & -> & Hm & _).
    exists a, m, c. split; [done|]. apply eq_ignoring_case_toLowerCase; [done|].
    clear -Hsub. induction sub as [|x sub IH]; simpl in *; [done|].
    apply andb_true_iff in Hsub as [[Hc _]%andb_true_iff Ht].
    by rewrite Hc, IH.
  - intros (pre & mid & post & -> & H).
    exists (toLowerCase pre), (toLowerCase post).
    by rewrite !toLowerCase_append, (toLowerCase_eq_ignoring_case mid sub).
Qed.

End CaseFacts.

(** * The matcher on texts of a known shape *)

Section RegexFacts.
Import JSString Regex.

Lemma accepts_Lit c prev rest k :
  k (Some c) rest = true → accepts (Lit c) prev (String c rest) k = true.
Proof. intros H. simpl. by rewrite Ascii.eqb_refl, H. Qed.

Lemma star_all p a prev rest k :
  all_chars p a = true → (∀ q, k q rest = true) →
  star p prev (a +:+ rest) k = true.
Proof.
  intros Ha Hk. revert prev. induction a as [|c a IH]; intros prev.
  - rewrite append_nil_l. destruct rest; simpl; by rewrite Hk.
  - simpl in Ha. apply andb_true_iff in Ha as [Hc Ha].
    rewrite append_cons. simpl. by rewrite Hc, (IH Ha), orb_true_r.
Qed.

Lemma accepts_Plus p a prev rest k :
  all_chars p a = true → a ≠ "" → (∀ q, k q rest = true) →
  accepts (Plus p) prev (a +:+ rest) k = true.
Proof.
  intros Ha Hne Hk. destruct a as [|c a]; [done|].
  simpl in Ha. apply andb_true_iff in Ha as [Hc Ha].
  rewrite append_cons. simpl. rewrite Hc. by apply star_all.
Qed.

Lemma accepts_Rep1to3 p a prev rest k :
  all_chars p a = true → 1 ≤ String.length a ≤ 3 →
  (∀ q, k q rest = true) →
  accepts (Rep1to3 p) prev (a +:+ rest) k = true.
Proof.
  intros Ha Hlen Hk.
  destruct a as [|c1 [|c2 [|c3 [|c4 a]]]]; simpl in Hlen; try lia;
    simpl in Ha; rewrite ?andb_true_r in Ha.
  - rewrite append_cons, append_nil_l. simpl.
    by rewrite Ha, Hk, orb_true_r.
  - apply andb_true_iff in Ha as [H1 H2].
    rewrite !append_cons, append_nil_l. simpl.
    by rewrite H1, H2, Hk, orb_true_r.
  - apply andb_true_iff in Ha as [H1 [H2 H3]%andb_true_iff].
    rewrite !append_cons, append_nil_l. simpl.
    by rewrite H1, H2, H3, Hk.
Qed.

End RegexFacts.

(** * Locator classification *)

Section ClassifierFacts.
Import JSString Regex VideoFeed.

Lemma all_chars_impl (p q : ascii → bool) s :
  (∀ c, p c = true → q c = true) → all_chars p s = true → all_chars q s = true.
Proof.
  intros Hpq. induction s as [|c s IH]; simpl; [done|].
  intros [Hc Hs]%andb_true_iff. by rewrite (Hpq c Hc), IH.
Qed.

Lemma digits_ipv4_chars s : digits s → all_chars ipv4_char s = true.
Proof.
  apply all_chars_impl. intros c Hc. unfold ipv4_char. by rewrite Hc.
Qed.

Lemma lower_char_ipv4_char c : ipv4_char c = true → lower_char c = c.
Proof.
  unfold ipv4_char. intros [[H|H]%orb_true_iff|H]%orb_true_iff.
  - apply lower_char_plain. unfold is_digit, is_upper, between in *.
    apply andb_true_iff in H as [H1%Nat.leb_le H2%Nat.leb_le].
    apply andb_true_iff. split; [apply Nat.ltb_lt; lia|].
    apply negb_true_iff, andb_false_iff. left. apply Nat.leb_gt. lia.
  - apply Ascii.eqb_eq in H. by subst c.
  - apply Ascii.eqb_eq in H. by subst c.
Qed.

Lemma bare_ipv4_chars s : bare_ipv4 s → all_chars ipv4_char s = true.
Proof.
  intros (a & b & c & d & port & [Ha _] & [Hb _] & [Hc _] & [Hd _] & Hp & ->).
  rewrite !all_chars_append.
  rewrite (digits_ipv4_chars a), (digits_ipv4_chars b),
    (digits_ipv4_chars c), (digits_ipv4_chars d) by done.
  simpl. destruct Hp as [->|(p & -> & Hp & _)]; [done|].
  rewrite all_chars_append, (digits_ipv4_chars p) by done. done.
Qed.

Lemma endsWith_needs_chars p s ext :
  all_chars p s = true → all_chars p ext = false → endsWith s ext = false.
Proof.
  intros Hs Hext. destruct (endsWith s ext) eqn:E; [|done].
  apply endsWith_spec in E as [pre ->].
  rewrite all_chars_append in Hs. apply andb_true_iff in Hs as [_ Hs].
  congruence.
Qed.

Lemma isVideoFile_needs_letters s :
  all_chars ipv4_char s = true → isVideoFile s = false.
Proof.
  intros Hs. unfold isVideoFile.
  by rewrite !(endsWith_needs_chars ipv4_char s) by done.
Qed.

Lemma ip_camera_re_bare_ipv4 s : bare_ipv4 s → test ip_camera_re s = true.
Proof.
  intros (a & b & c & d & port & [Ha La] & [Hb Lb] & [Hc Lc] & [Hd Ld] & Hp & ->).
  unfold test.
  assert (Hsearch : ∀ r prev t,
    accepts r prev t (λ _ _, true) = true → search r prev t = true).
  { intros r prev t H. destruct t; simpl; by rewrite H. }
  apply Hsearch. unfold ip_camera_re.
  cbn [accepts]. apply andb_true_iff. split.
  { destruct a as [|c1 a]; [simpl in La; lia|].
    simpl in Ha. apply andb_true_iff in Ha as [H1 _].
    unfold at_word_boundary. rewrite append_cons. simpl.
    unfold is_word. by rewrite H1, !orb_true_r. }
  assert (Hdot : ∀ (k : option ascii → string → bool) rest,
    (∀ q, k q rest = true) → ∀ q, accepts dot q ("." +:+ rest) k = true).
  { intros k rest Hk q. apply accepts_Lit, Hk. }
  unfold octet_dot. cbn [accepts].
  apply accepts_Rep1to3; [done..|]. apply Hdot.
  intros q1. apply accepts_Rep1to3; [done..|]. apply Hdot.
  intros q2. apply accepts_Rep1to3; [done..|]. apply Hdot.
  intros q3. apply accepts_Rep1to3; [done..|].
  intros q. destruct Hp as [->|(p & -> & Hp & Hne)].
  - reflexivity.
  - cbn [accepts]. apply orb_true_iff. left.
    rewrite append_cons, append_nil_l.
    apply accepts_Lit. rewrite <- (append_nil_r p).
    apply accepts_Plus; [done..|]. intros q'. apply orb_true_r.
Qed.

Lemma classify_video_file url ext :
  ext ∈ video_extensions → ends_with_ci url ext → classify url = FileVideo.
Proof.
  intros Hin Hends. unfold classify, classification_flags.
  assert (HV : isVideoFile (toLowerCase url) = true).
  { unfold isVideoFile, video_extensions in *.
    rewrite !elem_of_cons, elem_of_nil in Hin.
    destruct Hin as [->|[->|[->|[->|[->|[]]]]]];
      apply endsWith_lower_iff in Hends; try done;
      rewrite Hends; by rewrite ?orb_true_r. }
  rewrite HV. simpl. by rewrite andb_false_r.
Qed.

Lemma classify_bare_ipv4 url : bare_ipv4 url → classify url = LiveStream.
Proof.
  intros H. pose proof (bare_ipv4_chars _ H) as Hchars.
  unfold classify, classification_flags.
  rewrite (toLowerCase_fixed ipv4_char) by auto using lower_char_ipv4_char.
  rewrite isVideoFile_needs_letters by done.
  unfold isStream. rewrite ip_camera_re_bare_ipv4 by done.
  by rewrite !orb_true_r.
Qed.

(** C1.  A locator that ends, compared case-insensitively, with one of the
    recognised video extensions classifies as FileVideo; a bare dotted quad
    with an optional port classifies as LiveStream; the empty locator
    classifies as StaticImage. *)
Theorem classify_extension_ipv4_empty :
  (∀ url ext,
     ext ∈ video_extensions → ends_with_ci url ext →
     classify url = FileVideo) ∧
  (∀ url, bare_ipv4 url → classify url = LiveStream) ∧
  classify "" = StaticImage.
Proof.
  split; [|split].
  - apply classify_video_file.
  - apply classify_bare_ipv4.
  - reflexivity.
Qed.

Lemma classify_extension_ipv4_empty_witness :
  classify "cam/Clip.MP4" = FileVideo ∧
  classify "192.168.1.10:8080" = LiveStream.
Proof.
  destruct classify_extension_ipv4_empty as (Hvideo & Hip & _). split.
  - apply (Hvideo _ ".mp4").
    + unfold video_extensions. rewrite elem_of_cons. by left.
    + exists "cam/Clip", ".MP4". split; [reflexivity|]. simpl.
      repeat split; try (by left).
      * right; left. by vm_compute.
      * right; left. by vm_compute.
  - apply Hip. exists "192", "168", "1", "10", ":8080".
    repeat split; try (simpl; lia); try reflexivity.
    right. exists "8080". by repeat split.
Defined.

Lemma startsWith_lower_iff url sub :
  plain_lower sub = true →
  startsWith (toLowerCase url) sub = true ↔ starts_with_ci url sub.
Proof.
  intros Hsub. unfold startsWith. rewrite prefix_spec. split.
  - intros [post H]. apply toLowerCase_split in H as (a & b & -> & Ha & _).
    exists a, b. split; [done|]. apply eq_ignoring_case_toLowerCase; [done|].
    clear -Hsub. induction sub as [|x sub IH]; simpl in *; [done|].
    apply andb_true_iff in Hsub as [[Hc _]%andb_true_iff Ht].
    by rewrite Hc, IH.
  - intros (hd & post & -> & H). exists (toLowerCase post).
    by rewrite toLowerCase_append, (toLowerCase_eq_ignoring_case hd sub).
Qed.

Lemma isVideoFile_false_iff url :
  isVideoFile (toLowerCase url) = false ↔
  ∀ ext, ext ∈ video_extensions → ¬ ends_with_ci url ext.
Proof.
  unfold isVideoFile, video_extensions. rewrite !orb_false_iff. split.
  - intros ((((H1 & H2) & H3) & H4) & H5) ext Hin Hends.
    rewrite !elem_of_cons, elem_of_nil in Hin.
    destruct Hin as [->|[->|[->|[->|[->|[]]]]]];
      apply endsWith_lower_iff in Hends; try done; congruence.
  - intros H.
    assert (Hno : ∀ ext, ext ∈ video_extensions → plain_lower ext = true →
              endsWith (toLowerCase url) ext = false).
    { intros ext Hin Hpl. destruct (endsWith _ ext) eqn:E; [|done].
      apply endsWith_lower_iff in E; [|done]. by destruct (H ext). }
    unfold video_extensions in Hno.
    repeat split; apply Hno; try done; rewrite !elem_of_cons; tauto.
Qed.

Lemma isStream_false_iff url :
  isStream (toLowerCase url) = false ↔
  (∀ sub, sub ∈ stream_markers → ¬ contains_ci url sub) ∧
  test ip_camera_re (toLowerCase url) = false.
Proof.
  unfold isStream, stream_markers. rewrite !orb_false_iff. split.
  - intros ((((((H1 & H2) & H3) & H4) & H5) & H6) & H7).
    split; [|done]. intros sub Hin Hc.
    rewrite !elem_of_cons, elem_of_nil in Hin.
    destruct Hin as [->|[->|[->|[->|[->|[->|[]]]]]]];
      apply includes_lower_iff in Hc; try done; congruence.
  - intros [H Hre].
    assert (Hno : ∀ sub, sub ∈ stream_markers → plain_lower sub = true →
              includes (toLowerCase url) sub = false).
    { intros sub Hin Hpl. destruct (includes _ sub) eqn:E; [|done].
      apply includes_lower_iff in E; [|done]. by destruct (H sub). }
    unfold stream_markers in Hno.
    repeat split; try apply Hno; try done; rewrite !elem_of_cons; tauto.
Qed.

Lemma classify_StaticImage_flags url :
  classify url = StaticImage ↔
  isVideoFile (toLowerCase url) = false ∧ isStream (toLowerCase url) = false.
Proof.
  unfold classify, classification_flags, kind_of_flags.
  destruct (isVideoFile _), (isStream _); simpl; split; try done;
    intros [? ?]; done.
Qed.

(** C2 (as stated) fails: a plain HTTP URL of an image has no video
    extension, no streaming-protocol prefix, neither [stream] nor
    [video_feed] in it, and does not match the IP pattern, yet it classifies
    as LiveStream. *)
Lemma classify_http_image_is_live_stream :
  let url := "http://example.com/a.png" in
  (∀ ext, ext ∈ video_extensions → ¬ ends_with_ci url ext) ∧
  ¬ starts_with_ci url "rtsp://" ∧ ¬ starts_with_ci url "rtmp://" ∧
  ¬ contains_ci url "stream" ∧ ¬ contains_ci url "video_feed" ∧
  test ip_camera_re (toLowerCase url) = false ∧
  classify url = LiveStream ∧ classify url ≠ StaticImage.
Proof.
  intros url. repeat split.
  - by apply isVideoFile_false_iff.
  - intros H. by apply startsWith_lower_iff in H.
  - intros H. by apply startsWith_lower_iff in H.
  - intros H. by apply includes_lower_iff in H.
  - intros H. by apply includes_lower_iff in H.
  - done.
Qed.

(** C2 (amended).  A locator classifies as StaticImage exactly when it has
    no recognised video extension, contains none of [rtsp://], [rtmp://],
    [http://], [https://], [stream], [video_feed] anywhere (compared
    case-insensitively), and its lower-cased text does not match the
    IP-camera pattern; a locator without video extension that contains
    [http://] or [https://] classifies as LiveStream. *)
Theorem classify_static_image_iff url :
  (classify url = StaticImage ↔
     (∀ ext, ext ∈ video_extensions → ¬ ends_with_ci url ext) ∧
     (∀ sub, sub ∈ stream_markers → ¬ contains_ci url sub) ∧
     test ip_camera_re (toLowerCase url) = false) ∧
  ((∀ ext, ext ∈ video_extensions → ¬ ends_with_ci url ext) ∧
   (contains_ci url "http://" ∨ contains_ci url "https://") →
   classify url = LiveStream).
Proof.
  split.
  - rewrite classify_StaticImage_flags, isVideoFile_false_iff,
      isStream_false_iff. tauto.
  - intros [Hext Hhttp]. apply isVideoFile_false_iff in Hext.
    unfold classify, classification_flags. rewrite Hext.
    assert (isStream (toLowerCase url) = true) as ->; [|done].
    unfold isStream.
    destruct Hhttp as [H|H]; apply includes_lower_iff in H; try done;
      rewrite H; by rewrite ?orb_true_r.
Qed.

Lemma dotted_quad_re_bare_ipv4 s : bare_ipv4 s → test dotted_quad_re s = true.
Proof.
  intros (a & b & c & d & port & [Ha La] & [Hb Lb] & [Hc Lc] & [Hd Ld] & _ & ->).
  assert (Hne : ∀ x, 1 ≤ String.length x ≤ 3 → x ≠ "").
  { intros x Hx ->. simpl in Hx. lia. }
  unfold test.
  assert (search dotted_quad_re None
            (a +:+ "." +:+ b +:+ "." +:+ c +:+ "." +:+ d +:+ port) =
          true) as ->; [|done].
  assert (accepts dotted_quad_re None
            (a +:+ "." +:+ b +:+ "." +:+ c +:+ "." +:+ d +:+ port)
            (λ _ _, true) = true) as Hacc.
  { unfold dotted_quad_re. cbn [accepts].
    apply (accepts_Plus is_digit a); [done|by apply Hne|].
    intros q0. apply accepts_Lit.
    apply (accepts_Plus is_digit b); [done|by apply Hne|].
    intros q1. apply accepts_Lit.
    apply (accepts_Plus is_digit c); [done|by apply Hne|].
    intros q2. apply accepts_Lit.
    apply (accepts_Plus is_digit d); [done|by apply Hne|]. done. }
  destruct (a +:+ _); simpl; simpl in Hacc; by rewrite Hacc.
Qed.

(** The earlier draft's classifier meets the same three properties. *)
Lemma classify_draft_extension_ipv4_empty :
  (∀ url ext,
     ext ∈ video_extensions → ends_with_ci url ext →
     classify_draft url = FileVideo) ∧
  (∀ url, bare_ipv4 url → classify_draft url = LiveStream) ∧
  classify_draft "" = StaticImage.
Proof.
  split; [|split].
  - intros url ext Hin Hends. unfold classify_draft, classification_flags_draft.
    assert (HV : isVideoFile (toLowerCase url) = true).
    { destruct (isVideoFile (toLowerCase url)) eqn:E; [done|].
      by destruct (proj1 (isVideoFile_false_iff url) E ext). }
    rewrite HV. simpl. by rewrite andb_false_r.
  - intros url H. pose proof (bare_ipv4_chars _ H) as Hchars.
    unfold classify_draft, classification_flags_draft.
    rewrite (toLowerCase_fixed ipv4_char) by auto using lower_char_ipv4_char.
    rewrite isVideoFile_needs_letters by done.
    unfold isStream_draft. rewrite dotted_quad_re_bare_ipv4 by done.
    by rewrite !orb_true_r.
  - reflexivity.
Qed.

End ClassifierFacts.

(** * The playback session *)

Section SessionFacts.
Import JSString VideoFeed.

Lemma truthy_nonempty m : truthy m = true → m ≠ "".
Proof. by destruct m. Qed.

Lemma getErrorMessage_nonempty error : getErrorMessage error ≠ "".
Proof.
  destruct error as [e|]; [|done]. unfold getErrorMessage.
  repeat (case_match; try done).
  by apply truthy_nonempty.
Qed.

(** The load effect's [catch] treats the autoplay-policy rejection as a
    minor issue: no Error state. *)
Lemma load_effect_autoplay_rejection_no_error error s :
  name error = Some "NotAllowedError" →
  hasError (play_rejected LoadEffect error s) = false.
Proof.
  intros H. unfold play_rejected, name_is. by rewrite bool_decide_eq_true_2.
Qed.

(** Any other rejection, at any site, gives the Error state with a
    diagnostic. *)
Lemma play_rejected_error site error s :
  name error ≠ Some "NotAllowedError" →
  in_error (play_rejected site error s) ∧
  lastError (play_rejected site error s) ≠ "".
Proof.
  intros H. unfold in_error, lastError.
  destruct site; unfold play_rejected, name_is;
    rewrite ?bool_decide_eq_false_2 by done; cbn -[getErrorMessage];
    (split; [done|apply getErrorMessage_nonempty]).
Qed.

(** The media element's [error] event always gives the Error state with a
    diagnostic. *)
Lemma handleVideoError_error err s :
  in_error (handleVideoError err s) ∧ lastError (handleVideoError err s) ≠ "".
Proof.
  split; [done|]. unfold lastError, handleVideoError. simpl.
  destruct err as [[c m]|]; [|done]. simpl.
  destruct c as [|[|[|[|[|c]]]]]; try done;
    (destruct (truthy m) eqn:E; [by apply truthy_nonempty|done]).
Qed.

(** C4, at the failing input.  A live-stream locator is mounted; the
    classification effect calls [play()]; the platform rejects that call
    with NotAllowedError; the stream-autoplay [catch] has no branch for it,
    so the session ends in the Error state. *)
Theorem stream_autoplay_rejection_sets_error :
  let f := {| feed_id := "1"; feed_url := "rtsp://192.168.1.10/live" |} in
  let blocked :=
    {| name := Some "NotAllowedError"; message := None; code := Some 0 |} in
  let s := (mount f).1 in
  classify (feed_url f) = LiveStream ∧
  Play StreamAutoplay ∈ (mount f).2 ∧
  hasError s = false ∧
  in_error (play_rejected StreamAutoplay blocked s) ∧
  lastError (play_rejected StreamAutoplay blocked s)
    = "Permission denied: Browser prevented autoplay." ∧
  hasError (play_rejected LoadEffect blocked s) = false.
Proof.
  intros f blocked s. repeat split.
  apply list_elem_of_In. vm_compute. tauto.
Qed.

(** C9 (amended).  A click on "Try Again" in the Error state: [retryCount]
    grows by exactly one, the error state is cleared, and the load effect
    runs again although the feed (and so the locator) is the same.  The
    effect calls [load()] on the media sink exactly when the session has
    one, that is when [isVideoFeed] is set; it then goes on with [play()]
    when the session was playing or is a live stream and with [pause()]
    otherwise.  A session without sink, one that renders the locator as a
    static image, is reset and issues no call at all. *)
Theorem retry_click_reissues_load f s :
  in_error s →
  let s' := (retry_click f s).1 in
  let calls := (retry_click f s).2 in
  retryCount s' = retryCount s + 1 ∧
  hasError s' = false ∧ errorDetails s' = "" ∧ isLoading s' = true ∧
  isVideoFeed s' = isVideoFeed s ∧ isLiveStream s' = isLiveStream s ∧
  isPlaying s' = isPlaying s ∧
  (isVideoFeed s = true →
   calls = Load :: (if isPlaying s || isLiveStream s then [Play LoadEffect]
                    else [Pause])) ∧
  (isVideoFeed s = false → calls = []).
Proof.
  intros Herr. unfold retry_click, commit.
  rewrite bool_decide_eq_false_2.
  - unfold load_effect, video_mounted. simpl.
    repeat split; by intros ->.
  - unfold load_effect_deps. simpl. intros [= H]. lia.
Qed.

Lemma retry_click_reissues_load_witness :
  let f := {| feed_id := "2"; feed_url := "clips/yard.mp4" |} in
  let s := handleVideoError (Some {| media_code := 4; media_message := "" |})
             (mount f).1 in
  in_error s ∧ (retry_click f s).2 = [Load; Pause] ∧
  retryCount (retry_click f s).1 = 1.
Proof.
  intros f s.
  destruct (retry_click_reissues_load f s)
    as (Hcount & _ & _ & _ & _ & _ & _ & Hcalls & _); [reflexivity|].
  split; [reflexivity|]. split; [by apply Hcalls|exact Hcount].
Defined.

End SessionFacts.

(** * The fetch override *)

Section FetchFacts.
Import JSString JSON Terminal.
Context {P : Platform}.

Lemma method_is_POST_iff init :
  method_is_POST init = true ↔ ∃ i, init = Some i ∧ method i = Some "POST".
Proof.
  unfold method_is_POST. destruct init as [i|].
  - rewrite bool_decide_eq_true. split.
    + intros H. by exists i.
    + by intros (i' & [= <-] & H).
  - split; [done|]. by intros (i & [=] & _).
Qed.

(** While the override is installed, and for a request URL and an endpoint
    that [new URL] accepts: the request is intercepted exactly when its
    pathname equals the endpoint's pathname and [init.method] is the text
    POST; every other such request goes to the original fetch with the same
    arguments, and nothing is published for it. *)
Lemma fetch_override_intercepts_iff apiEndpoint now input init p e :
  request_pathname (url_of input) = Some p →
  endpoint_pathname apiEndpoint = Some e →
  let matching := p = e ∧ ∃ i, init = Some i ∧ method i = Some "POST" in
  let effects := (window_fetch true apiEndpoint now input init).1 in
  let result := (window_fetch true apiEndpoint now input init).2 in
  (intercepted effects ↔ matching) ∧
  (¬ matching → result = OriginalFetch input init ∧ published effects = []).
Proof.
  intros Hp He matching effects result.
  subst matching effects result. unfold window_fetch, fetch_override.
  rewrite Hp, He. rewrite <- method_is_POST_iff.
  destruct (String.eqb p e) eqn:Epe.
  - apply String.eqb_eq in Epe as ->.
    destruct (method_is_POST init) eqn:Em; simpl.
    + split.
      * split; [done|]. intros _. unfold intercepted.
        destruct (process_detection now init) as [effects [r|]]; simpl;
          rewrite !elem_of_cons; tauto.
      * intros H. by destruct H.
    + split.
      * unfold intercepted. rewrite !elem_of_cons, elem_of_nil.
        split; [intros [[=]|[[=]|[]]]|intros [_ [=]]].
      * done.
  - simpl. apply String.eqb_neq in Epe. split.
    + unfold intercepted. rewrite !elem_of_cons, elem_of_nil.
      split; [intros [[=]|[[=]|[]]]|intros [? _]; done].
    + done.
Qed.

(** The two [new URL(..)] calls stand outside the [try]: when the text the
    override builds from the request URL is no URL, the override throws and
    the request reaches neither the detection branch nor the original
    fetch. *)
Lemma fetch_override_unparseable_url apiEndpoint now input init :
  request_pathname (url_of input) = None →
  fetch_override apiEndpoint now input init
    = ([ConsoleLog "Fetch intercepted:"], Thrown).
Proof. intros H. unfold fetch_override. by rewrite H. Qed.

(** C3 (amended).  A POST to the configured path whose body is a text that
    [JSON.parse] rejects: the override logs the error, publishes neither a
    detection event nor a notification, and hands the unchanged request to
    the original fetch; no response is synthesized. *)
Theorem unparseable_body_goes_to_original_fetch
    apiEndpoint now input i text :
  matches apiEndpoint input (Some i) = true →
  body i = BodyText text →
  JSON_parse text = None →
  let effects := (fetch_override apiEndpoint now input (Some i)).1 in
  let result := (fetch_override apiEndpoint now input (Some i)).2 in
  result = OriginalFetch input (Some i) ∧
  intercepted effects ∧
  ConsoleError "Error processing detection data:" ∈ effects ∧
  detection_events effects = [] ∧
  published effects = [].
Proof.
  intros Hm Hb Hj. unfold matches in Hm. unfold fetch_override.
  destruct (request_pathname _) as [p|]; [|done].
  destruct (endpoint_pathname _) as [e|]; [|done].
  rewrite Hm. unfold process_detection.
  destruct i as [m b]. simpl in Hb. subst b. rewrite Hj. simpl.
  unfold intercepted. rewrite !elem_of_cons. tauto.
Qed.

End FetchFacts.

Section FetchExamples.
Import JSString JSON Terminal Sample.

Lemma fetch_override_intercepts_iff_witness :
  intercepted
    (window_fetch (P:=sample_platform) true "/detection_output" "14:35:22"
       (InString "https://cam.example/detection_output")
       (post vehicle_frame)).1 ∧
  (window_fetch (P:=sample_platform) true "/detection_output" "14:35:22"
     (InString "/api/feeds") (post vehicle_frame)).2
  = OriginalFetch (InString "/api/feeds") (post vehicle_frame).
Proof.
  split.
  - apply (fetch_override_intercepts_iff (P:=sample_platform)
             "/detection_output" "14:35:22"
             (InString "https://cam.example/detection_output")
             (post vehicle_frame) "/detection_output" "/detection_output");
      [reflexivity|reflexivity|].
    split; [reflexivity|]. by eexists.
  - apply (fetch_override_intercepts_iff (P:=sample_platform)
             "/detection_output" "14:35:22" (InString "/api/feeds")
             (post vehicle_frame) "/api/feeds" "/detection_output");
      [reflexivity|reflexivity|].
    intros [[=] _].
Defined.

(** C6, at the failing input.  A GET of a [data:] URL is no request for the
    configured path.  The override prefixes the page origin to it, [new URL]
    rejects the result, and the override throws: the request is not passed
    to the original fetch. *)
Theorem data_url_request_is_not_passed_through :
  let input := InString "data:text/plain,hi" in
  let attempt := window_fetch (P:=sample_platform) true "/detection_output"
                   "14:35:22" input None in
  matches (P:=sample_platform) "/detection_output" input None = false ∧
  request_pathname (P:=sample_platform) (url_of input) = None ∧
  attempt = ([ConsoleLog "Fetch intercepted:"], Thrown) ∧
  attempt.2 ≠ OriginalFetch input None.
Proof. repeat split. intros H. vm_compute in H. discriminate H. Qed.

(** The first draft's substring test also takes requests for other paths
    that merely contain the endpoint. *)
Example substring_draft_matches_other_path :
  matches_draft "/detection_output"
    (InString "/archive/detection_output/2024") (post "{}") = true ∧
  matches (P:=sample_platform) "/detection_output"
    (InString "/api/feeds") (post "{}") = false.
Proof. split; reflexivity. Qed.

(** C3 (as stated) fails: for a POST to the configured path with the body
    [not json], the caller gets what the original fetch returns for the
    unchanged request, not a synthesized response. *)
Lemma unparseable_body_gets_no_mock_response :
  let input := InString "/detection_output" in
  let run := fetch_override (P:=sample_platform) "/detection_output"
               "14:35:22" input (post "not json") in
  matches (P:=sample_platform) "/detection_output" input (post "not json")
    = true ∧
  JSON_parse (Platform:=sample_platform) "not json" = None ∧
  run.2 = OriginalFetch input (post "not json") ∧
  run.2 ≠ MockResponse 200 success_body ∧
  detection_events run.1 = [].
Proof. intros input run. repeat split. intros H. vm_compute in H. discriminate H. Qed.

Lemma unparseable_body_goes_to_original_fetch_witness :
  (fetch_override (P:=sample_platform) "/detection_output" "14:35:22"
     (InString "/detection_output") (post "not json")).2
  = OriginalFetch (InString "/detection_output") (post "not json").
Proof.
  apply (unparseable_body_goes_to_original_fetch (P:=sample_platform)
           "/detection_output" "14:35:22" (InString "/detection_output")
           {| method := Some "POST"; body := BodyText "not json" |}
           "not json"); reflexivity.
Defined.

End FetchExamples.

(** * The WebSocket message handler *)

Section MessageFacts.
Import JSString JSON Terminal.
Context {P : Platform}.

Lemma to_string_scalar (v : JSON.json number) :
  scalar v = true → is_Some (to_string number_toString v).
Proof. destruct v as [|[]| | | |]; simpl; try done; eauto. Qed.

Lemma to_string_or_else (v : property) fallback :
  scalar_or_absent v = true →
  is_Some (to_string number_toString (or_else number_truthy v fallback)).
Proof.
  destruct v as [j|]; simpl; [|eauto]. intros Hj.
  destruct (truthy_value number_truthy j); [|simpl; eauto].
  by apply to_string_scalar.
Qed.

(** For a plain payload the notification can be built. *)
Lemma detection_toast_plain_payload label now data :
  plain_payload data = true →
  ∃ title description,
    detection_toast label now data = Some (Toast title description false).
Proof.
  unfold plain_payload, detection_toast.
  destruct data as [| | | | |fields]; simpl; try done;
    try (intros _; do 2 eexists; reflexivity).
  intros [Hf Ht]%andb_true_iff.
  destruct (to_string_or_else (lookup_field "feedId" fields) "Unknown" Hf)
    as [f ->].
  destruct (to_string_or_else (lookup_field "timestamp" fields) now Ht)
    as [t ->].
  eauto.
Qed.

(** The payload [null] parses, is dispatched, and then makes the reading of
    [data.event] throw inside the same [try]: the fallback runs as well. *)
Lemma on_message_null now text :
  JSON_parse text = Some JNull →
  detection_events (on_message now (TextFrame text))
    = [Parsed JNull; RawMessage (TextFrame text)].
Proof. intros H. unfold on_message. by rewrite H. Qed.

Lemma on_message_binary now :
  detection_events (on_message now BinaryFrame) = [RawMessage BinaryFrame].
Proof. reflexivity. Qed.

(** C7 (amended).  A text frame received by [ws.onmessage] at the clock
    reading [now]:
    - if it parses to a payload for which the notification can be built,
      the handler dispatches exactly one detection event, carrying the
      payload as parsed, and shows that notification;
    - if the payload is an object without [timestamp] field, the
      notification's description ends with [now], and the dispatched payload
      is still the parsed one;
    - if it does not parse, the handler dispatches exactly one event, the
      raw message. *)
Theorem on_message_publishes_one_event now text :
  (∀ data toast,
     JSON_parse text = Some data →
     detection_toast "WebSocket event" now data = Some toast →
     on_message now (TextFrame text)
       = [ConsoleLog "WebSocket message received:";
          DispatchDetectionEvent (Parsed data); toast] ∧
     detection_events (on_message now (TextFrame text)) = [Parsed data]) ∧
  (∀ fields f,
     JSON_parse text = Some (JObj fields) →
     lookup_field "timestamp" fields = None →
     to_string number_toString
       (or_else number_truthy (lookup_field "feedId" fields) "Unknown")
       = Some f →
     on_message now (TextFrame text)
       = [ConsoleLog "WebSocket message received:";
          DispatchDetectionEvent (Parsed (JObj fields));
          Toast (or_else number_truthy (lookup_field "event" fields)
                   "WebSocket event")
            ("Feed ID: " +:+ f +:+ " - " +:+ now) false]) ∧
  (JSON_parse text = None →
     on_message now (TextFrame text)
       = [ConsoleLog "WebSocket message received:";
          ConsoleError "Error parsing WebSocket data:";
          DispatchDetectionEvent (RawMessage (TextFrame text))] ∧
     detection_events (on_message now (TextFrame text))
       = [RawMessage (TextFrame text)]).
Proof.
  split; [|split].
  - intros data toast Hj Ht. unfold on_message. rewrite Hj, Ht.
    split; [done|]. unfold detection_toast in Ht.
    repeat case_match; try done. by injection Ht as <-.
  - intros fields f Hj Ht Hf. unfold on_message, detection_toast.
    rewrite Hj. simpl. by rewrite Ht, Hf.
  - intros Hj. unfold on_message. by rewrite Hj.
Qed.

End MessageFacts.

Section MessageExamples.
Import JSString JSON Terminal Sample.

(** C7 (as stated) fails twice.  The frame of the specification's example
    gives one event whose payload has no [timestamp] (the receipt time goes
    into the notification only); and the frame [null], which is JSON, gives
    two events. *)
Lemma parsed_frame_events_differ :
  let now := "14:35:22" in
  on_message (P:=sample_platform) now (TextFrame vehicle_frame)
    = [ConsoleLog "WebSocket message received:";
       DispatchDetectionEvent (Parsed (P:=sample_platform) vehicle_payload);
       Toast (JStr "Vehicle detected") "Feed ID: 2 - 14:35:22" false] ∧
  get vehicle_payload "timestamp" = Some None ∧
  JSON_parse (Platform:=sample_platform) "null" = Some JNull ∧
  detection_events (on_message (P:=sample_platform) now (TextFrame "null"))
    = [Parsed JNull; RawMessage (TextFrame "null")].
Proof. repeat split. Qed.

Lemma on_message_publishes_one_event_witness :
  detection_events
    (on_message (P:=sample_platform) "14:35:22" (TextFrame vehicle_frame))
    = [Parsed (P:=sample_platform) vehicle_payload] ∧
  detection_events
    (on_message (P:=sample_platform) "14:35:22" (TextFrame "not json"))
    = [RawMessage (TextFrame "not json")].
Proof.
  destruct (on_message_publishes_one_event (P:=sample_platform) "14:35:22"
              vehicle_frame) as (Hparsed & _ & _).
  destruct (on_message_publishes_one_event (P:=sample_platform) "14:35:22"
              "not json") as (_ & _ & Hraw).
  split.
  - refine (proj2 (Hparsed vehicle_payload
              (Toast (JStr "Vehicle detected") "Feed ID: 2 - 14:35:22" false)
              _ _)); reflexivity.
  - apply Hraw. reflexivity.
Defined.

End MessageExamples.

(** * The WebSocket effect as a state machine *)

Section SocketFacts.
Import JSString JSON Terminal.
Context {P : Platform}.

Lemma closed_by_script_inactive sock : active (closed_by_script sock) = false.
Proof. unfold active, closed_by_script. simpl. by destruct (readyState sock). Qed.

Lemma setWsConnected_fields b st :
  sockets (setWsConnected b st) = sockets st ∧
  effect_ws (setWsConnected b st) = effect_ws st ∧
  mounted (setWsConnected b st) = mounted st ∧
  out (setWsConnected b st) = out st ∧
  timers (setWsConnected b st) = timers st ∧
  wsEndpoint (setWsConnected b st) = wsEndpoint st.
Proof. unfold setWsConnected. destruct (mounted st) eqn:E; repeat split; done. Qed.

Lemma setSocket_fields w st :
  sockets (setSocket w st) = sockets st ∧
  effect_ws (setSocket w st) = effect_ws st ∧
  mounted (setSocket w st) = mounted st ∧
  out (setSocket w st) = out st ∧
  timers (setSocket w st) = timers st ∧
  wsEndpoint (setSocket w st) = wsEndpoint st.
Proof. unfold setSocket. destruct (mounted st) eqn:E; repeat split; done. Qed.

Ltac fields_step :=
  match goal with
  | |- context [sockets (setWsConnected ?b ?s)] =>
      rewrite (proj1 (setWsConnected_fields b s))
  | |- context [effect_ws (setWsConnected ?b ?s)] =>
      rewrite (proj1 (proj2 (setWsConnected_fields b s)))
  | |- context [mounted (setWsConnected ?b ?s)] =>
      rewrite (proj1 (proj2 (proj2 (setWsConnected_fields b s))))
  | |- context [out (setWsConnected ?b ?s)] =>
      rewrite (proj1 (proj2 (proj2 (proj2 (setWsConnected_fields b s)))))
  | |- context [timers (setWsConnected ?b ?s)] =>
      rewrite (proj1 (proj2 (proj2 (proj2 (proj2 (setWsConnected_fields b s))))))
  | |- context [wsEndpoint (setWsConnected ?b ?s)] =>
      rewrite (proj2 (proj2 (proj2 (proj2 (proj2 (setWsConnected_fields b s))))))
  | |- context [sockets (setSocket ?b ?s)] =>
      rewrite (proj1 (setSocket_fields b s))
  | |- context [effect_ws (setSocket ?b ?s)] =>
      rewrite (proj1 (proj2 (setSocket_fields b s)))
  | |- context [mounted (setSocket ?b ?s)] =>
      rewrite (proj1 (proj2 (proj2 (setSocket_fields b s))))
  | |- context [out (setSocket ?b ?s)] =>
      rewrite (proj1 (proj2 (proj2 (proj2 (setSocket_fields b s)))))
  | |- context [timers (setSocket ?b ?s)] =>
      rewrite (proj1 (proj2 (proj2 (proj2 (proj2 (setSocket_fields b s))))))
  | |- context [wsEndpoint (setSocket ?b ?s)] =>
      rewrite (proj2 (proj2 (proj2 (proj2 (proj2 (setSocket_fields b s))))))
  end.

Ltac fields :=
  repeat first
    [ progress cbn [sockets effect_ws mounted out timers wsEndpoint
        set_sockets set_effect_ws set_mounted set_timers set_wsEndpoint emit
        close_socket]
    | fields_step ].

(** What the cleanup leaves. *)
Lemma ws_cleanup_fields st :
  mounted (ws_cleanup st) = mounted st ∧
  effect_ws (ws_cleanup st) = None ∧
  wsEndpoint (ws_cleanup st) = wsEndpoint st ∧
  timers (ws_cleanup st) = timers st ∧
  out (ws_cleanup st) = out st ∧
  sockets (ws_cleanup st)
    = match effect_ws st with
      | Some id => alter closed_by_script id (sockets st)
      | None => sockets st
      end.
Proof.
  unfold ws_cleanup. destruct (effect_ws st) as [id|] eqn:E; [|done].
  fields. repeat split.
Qed.

Lemma handlers_alter (f : Socket → Socket) id st :
  (∀ sock, onopen (f sock) = onopen sock ∧ onmessage (f sock) = onmessage sock ∧
           onerror (f sock) = onerror sock ∧ onclose (f sock) = onclose sock) →
  handlers_attached st →
  ∀ i sock, alter f id (sockets st) !! i = Some sock →
    onopen sock = true ∧ onmessage sock = true ∧
    onerror sock = true ∧ onclose sock = true.
Proof.
  intros Hf H i sock Hl. destruct (decide (id = i)) as [->|Hne].
  - rewrite list_lookup_alter_eq in Hl.
    destruct (sockets st !! i) as [s0|] eqn:E; [|done].
    injection Hl as <-. destruct (Hf s0) as (-> & -> & -> & ->). eauto.
  - rewrite list_lookup_alter_ne in Hl by done. eauto.
Qed.

Lemma ws_cleanup_invariant st :
  invariant st →
  handlers_attached (ws_cleanup st) ∧ none_active (ws_cleanup st).
Proof.
  intros [Hh Ha Hu].
  destruct (ws_cleanup_fields st) as (_ & _ & _ & _ & _ & Hs).
  unfold handlers_attached, none_active. rewrite Hs.
  destruct (effect_ws st) as [id|] eqn:E.
  - split.
    + by apply handlers_alter.
    + intros i sock Hl. destruct (decide (id = i)) as [->|Hne].
      * rewrite list_lookup_alter_eq in Hl.
        destruct (sockets st !! i); [|done]. injection Hl as <-.
        apply closed_by_script_inactive.
      * rewrite list_lookup_alter_ne in Hl by done.
        destruct (active sock) eqn:Eact; [|done].
        specialize (Ha _ _ Hl Eact). congruence.
  - split; [done|]. intros i sock Hl.
    destruct (active sock) eqn:Eact; [|done].
    by specialize (Ha _ _ Hl Eact).
Qed.

(** Running the effect in a mounted state without active sockets
    re-establishes the invariant. *)
Lemma ws_effect_invariant st :
  mounted st = true → handlers_attached st → none_active st →
  invariant (ws_effect st).
Proof.
  intros Hm Hh Hn. unfold ws_effect.
  destruct (WebSocket_accepts (wsEndpoint st)); split;
    unfold handlers_attached; fields.
  - intros i sock Hl. apply lookup_app_Some in Hl as [Hl|[_ Hl]]; [eauto|].
    apply list_lookup_singleton_Some in Hl as [_ <-]. done.
  - intros i sock Hl Hact. apply lookup_app_Some in Hl as [Hl|[Hge Hl]].
    + by rewrite (Hn _ _ Hl) in Hact.
    + apply list_lookup_singleton_Some in Hl as [Hi _]. f_equal. lia.
  - by rewrite Hm.
  - done.
  - intros i sock Hl Hact. by rewrite (Hn _ _ Hl) in Hact.
  - by rewrite Hm.
Qed.

Lemma set_wsEndpoint_cleanup_ready v st :
  mounted st = true → invariant st →
  invariant (ws_effect (set_wsEndpoint v (ws_cleanup st))).
Proof.
  intros Hm Hinv.
  destruct (ws_cleanup_invariant st Hinv) as [Hh Hn].
  destruct (ws_cleanup_fields st) as (Hm' & _).
  apply ws_effect_invariant; [by rewrite <- Hm|done|done].
Qed.

Lemma setWsEndpoint_invariant v st :
  invariant st → invariant (setWsEndpoint v st).
Proof.
  intros Hinv. unfold setWsEndpoint.
  destruct (mounted st) eqn:Hm; [|done]. case_bool_decide; [done|].
  by apply set_wsEndpoint_cleanup_ready.
Qed.

Lemma invariant_same_sockets st st' :
  sockets st' = sockets st → effect_ws st' = effect_ws st →
  mounted st' = mounted st → invariant st → invariant st'.
Proof.
  intros Hs He Hm [Hh Ha Hu].
  split; unfold handlers_attached; rewrite ?Hs, ?He, ?Hm; done.
Qed.

Lemma handler_fields sock cb st :
  sockets (handler sock cb st) = sockets st ∧
  effect_ws (handler sock cb st) = effect_ws st ∧
  mounted (handler sock cb st) = mounted st.
Proof. destruct cb; unfold handler; fields; done. Qed.

Lemma fires_not_more_active sock cb rs :
  fires sock cb = Some rs →
  active (with_readyState rs sock) = true → active sock = true.
Proof.
  unfold fires, active. simpl.
  destruct cb, (readyState sock); intros [= <-]; done.
Qed.

Lemma deliver_invariant id cb st :
  invariant st → invariant (deliver id cb st).
Proof.
  intros Hinv. unfold deliver.
  destruct (sockets st !! id) as [sock|] eqn:Hl; [|done].
  destruct (fires sock cb) as [rs|] eqn:Hf; [|done].
  set (st1 := set_sockets _ st).
  assert (Hinv1 : invariant st1).
  { destruct Hinv as [Hh Ha Hu]. subst st1. split; unfold handlers_attached; fields.
    - by apply handlers_alter.
    - intros i s Hi Hact. destruct (decide (id = i)) as [->|Hne].
      + rewrite list_lookup_alter_eq, Hl in Hi. injection Hi as <-.
        eauto using fires_not_more_active.
      + rewrite list_lookup_alter_ne in Hi by done. eauto.
    - done. }
  destruct (handler_set sock cb); [|done].
  destruct (handler_fields sock cb st1) as (Hs & He & Hm).
  by apply (invariant_same_sockets st1).
Qed.

Lemma close_socket_invariant id st :
  invariant st → invariant (close_socket id st).
Proof.
  intros [Hh Ha Hu]. split; unfold handlers_attached; fields.
  - by apply handlers_alter.
  - intros i s Hi Hact. destruct (decide (id = i)) as [->|Hne].
    + rewrite list_lookup_alter_eq in Hi.
      destruct (sockets st !! i); [|done]. injection Hi as <-.
      by rewrite closed_by_script_inactive in Hact.
    + rewrite list_lookup_alter_ne in Hi by done. eauto.
  - done.
Qed.

Lemma handleConnectToggle_invariant st :
  invariant st → invariant (handleConnectToggle st).
Proof.
  intros Hinv. unfold handleConnectToggle.
  assert (Helse : invariant
            (set_timers (timers (setWsEndpoint "" st) ++ [wsEndpoint st])
               (setWsEndpoint "" st))).
  { by apply (invariant_same_sockets (setWsEndpoint "" st)),
      setWsEndpoint_invariant. }
  destruct (wsConnected st); [|done].
  destruct (socket st) as [id|]; [|done].
  apply (invariant_same_sockets (close_socket id st)); fields; try done.
  by apply close_socket_invariant.
Qed.

Lemma step_invariant ev st : invariant st → invariant (step ev st).
Proof.
  intros Hinv. destruct ev; simpl.
  - destruct (mounted st) eqn:Hm; [done|].
    destruct Hinv as [Hh Ha Hu]. apply ws_effect_invariant; fields; try done.
    intros i s Hi. destruct (active s) eqn:Eact; [|done].
    specialize (Ha _ _ Hi Eact). by rewrite Hu in Ha.
  - destruct (mounted st) eqn:Hm; [|done].
    destruct (ws_cleanup_invariant st Hinv) as [Hh Hn].
    destruct (ws_cleanup_fields st) as (_ & He & _).
    split; unfold handlers_attached; fields; try done.
    intros i s Hi Hact. by rewrite (Hn _ _ Hi) in Hact.
  - destruct (mounted st); [|done]. by apply handleConnectToggle_invariant.
  - by apply setWsEndpoint_invariant.
  - destruct (timers st) as [|endpoint rest]; [done|].
    apply setWsEndpoint_invariant.
    by apply (invariant_same_sockets st).
  - by apply deliver_invariant.
Qed.

Lemma run_invariant events st : invariant st → invariant (run events st).
Proof.
  revert st. induction events as [|ev events IH]; intros st Hinv; [done|].
  simpl. apply IH. by apply step_invariant.
Qed.

Lemma initial_invariant : invariant initial.
Proof. split; [intros id sock Hl|intros id sock Hl|]; done. Qed.

Lemma invariant_at_most_one_active st :
  invariant st → at_most_one_active st.
Proof.
  intros [_ Ha _] i j si sj Hi Hj Hai Haj.
  pose proof (Ha _ _ Hi Hai). pose proof (Ha _ _ Hj Haj). congruence.
Qed.

(** In every reachable state at most one socket is connecting or
    connected, and every socket still has its handlers. *)
Lemma reachable_one_active_and_attached events :
  at_most_one_active (run events initial) ∧
  handlers_attached (run events initial).
Proof.
  pose proof (run_invariant events initial initial_invariant) as Hinv.
  split; [by apply invariant_at_most_one_active|by destruct Hinv].
Qed.

(** The [close] callback on a socket that is not closed yet runs
    [ws.onclose], which publishes the disconnection. *)
Lemma deliver_close_publishes st id sock :
  sockets st !! id = Some sock → readyState sock ≠ CLOSED →
  onclose sock = true →
  published_since st (deliver id CbClose st) = [disconnected_toast].
Proof.
  intros Hl Hrs Hon. unfold deliver, published_since. rewrite Hl.
  assert (fires sock CbClose = Some CLOSED) as ->.
  { unfold fires. by destruct (readyState sock). }
  cbn [handler_set]. rewrite Hon. unfold handler. fields.
  by rewrite drop_app3_length.
Qed.

(** Likewise the [error] callback runs [ws.onerror]. *)
Lemma deliver_error_publishes st id sock :
  sockets st !! id = Some sock → readyState sock ≠ CLOSED →
  onerror sock = true →
  published_since st (deliver id CbError st) = [error_toast].
Proof.
  intros Hl Hrs Hon. unfold deliver, published_since. rewrite Hl.
  assert (fires sock CbError = Some CLOSING) as ->.
  { unfold fires. by destruct (readyState sock). }
  cbn [handler_set]. rewrite Hon. unfold handler. fields.
  by rewrite drop_app_length.
Qed.

Lemma closed_by_script_not_closed sock :
  readyState sock ≠ CLOSED → readyState (closed_by_script sock) = CLOSING.
Proof. unfold closed_by_script. simpl. by destruct (readyState sock). Qed.

(** ** The life of a socket object *)

Import SocketLife.

Lemma advanced_refl (l : list Socket) : advanced l l.
Proof. intros id sock Hl. by exists sock. Qed.

Lemma advanced_trans (l1 l2 l3 : list Socket) :
  advanced l1 l2 → advanced l2 l3 → advanced l1 l3.
Proof.
  intros H12 H23 id sock Hl.
  destruct (H12 _ _ Hl) as (s2 & Hl2 & Hu2 & Hr2).
  destruct (H23 _ _ Hl2) as (s3 & Hl3 & Hu3 & Hr3).
  exists s3. split; [done|]. split; [congruence|lia].
Qed.

Lemma advanced_alter (f : Socket → Socket) id (l : list Socket) :
  (∀ sock, url (f sock) = url sock ∧
           rank (readyState sock) ≤ rank (readyState (f sock))) →
  advanced l (alter f id l).
Proof.
  intros Hf i sock Hl. destruct (decide (id = i)) as [->|Hne].
  - exists (f sock). rewrite list_lookup_alter_eq, Hl.
    destruct (Hf sock). done.
  - exists sock. by rewrite list_lookup_alter_ne.
Qed.

Lemma advanced_app (l more : list Socket) : advanced l (l ++ more).
Proof.
  intros id sock Hl. exists sock. split; [|done].
  by apply lookup_app_l_Some.
Qed.

Lemma closed_by_script_advances sock :
  url (closed_by_script sock) = url sock ∧
  rank (readyState sock) ≤ rank (readyState (closed_by_script sock)).
Proof. split; [done|]. simpl. destruct (readyState sock); simpl; lia. Qed.

Lemma ws_cleanup_advanced st :
  advanced (sockets st) (sockets (ws_cleanup st)).
Proof.
  destruct (ws_cleanup_fields st) as (_ & _ & _ & _ & _ & ->).
  destruct (effect_ws st); [|apply advanced_refl].
  apply advanced_alter, closed_by_script_advances.
Qed.

Lemma ws_effect_advanced st :
  advanced (sockets st) (sockets (ws_effect st)) ∧
  out st `prefix_of` out (ws_effect st).
Proof.
  unfold ws_effect. destruct (WebSocket_accepts (wsEndpoint st)); fields.
  - split; [apply advanced_app|by apply prefix_app_r].
  - split; [apply advanced_refl|]. rewrite <- app_assoc. by apply prefix_app_r.
Qed.

Lemma setWsEndpoint_advanced v st :
  advanced (sockets st) (sockets (setWsEndpoint v st)) ∧
  out st `prefix_of` out (setWsEndpoint v st).
Proof.
  unfold setWsEndpoint. destruct (mounted st); [|split; [apply advanced_refl|done]].
  case_bool_decide; [split; [apply advanced_refl|done]|].
  destruct (ws_effect_advanced (set_wsEndpoint v (ws_cleanup st))) as [Hs Ho].
  revert Hs Ho. fields. intros Hs Ho.
  destruct (ws_cleanup_fields st) as (_ & _ & _ & _ & Hout & _).
  split.
  - eapply advanced_trans; [apply ws_cleanup_advanced|done].
  - by rewrite <- Hout.
Qed.

Lemma fires_advances sock cb rs :
  fires sock cb = Some rs →
  url (with_readyState rs sock) = url sock ∧
  rank (readyState sock) ≤ rank (readyState (with_readyState rs sock)).
Proof.
  intros Hf. split; [done|]. simpl. revert Hf. unfold fires.
  destruct cb, (readyState sock); intros [= <-]; simpl; lia.
Qed.

Lemma handler_out sock cb st : out st `prefix_of` out (handler sock cb st).
Proof.
  destruct cb; unfold handler; fields; rewrite <- ?app_assoc;
    by apply prefix_app_r.
Qed.

Lemma deliver_advanced id cb st :
  advanced (sockets st) (sockets (deliver id cb st)) ∧
  out st `prefix_of` out (deliver id cb st).
Proof.
  unfold deliver.
  destruct (sockets st !! id) as [sock|] eqn:Hl;
    [|split; [apply advanced_refl|done]].
  destruct (fires sock cb) as [rs|] eqn:Hf;
    [|split; [apply advanced_refl|done]].
  set (st1 := set_sockets _ st).
  assert (H1 : advanced (sockets st) (sockets st1)).
  { subst st1. fields. intros i s Hi. destruct (decide (id = i)) as [->|Hne].
    - rewrite list_lookup_alter_eq, Hi. simpl. eexists. split; [done|].
      assert (s = sock) as -> by congruence. by apply (fires_advances _ cb).
    - exists s. by rewrite list_lookup_alter_ne. }
  destruct (handler_set sock cb); [|done].
  destruct (handler_fields sock cb st1) as (-> & _ & _).
  split; [done|]. apply (handler_out sock cb st1).
Qed.


Lemma close_socket_advanced id st :
  advanced (sockets st) (sockets (close_socket id st)).
Proof. fields. apply advanced_alter, closed_by_script_advances. Qed.

Lemma handleConnectToggle_advanced st :
  advanced (sockets st) (sockets (handleConnectToggle st)) ∧
  out st `prefix_of` out (handleConnectToggle st).
Proof.
  unfold handleConnectToggle.
  assert (Helse :
    advanced (sockets st)
      (sockets (set_timers (timers (setWsEndpoint "" st) ++ [wsEndpoint st])
                  (setWsEndpoint "" st))) ∧
    out st `prefix_of`
      out (set_timers (timers (setWsEndpoint "" st) ++ [wsEndpoint st])
             (setWsEndpoint "" st))).
  { fields. apply setWsEndpoint_advanced. }
  destruct (wsConnected st); [|done].
  destruct (socket st) as [id|]; [|done].
  fields. split; [|done]. apply advanced_alter, closed_by_script_advances.
Qed.

Lemma step_advanced ev st :
  advanced (sockets st) (sockets (step ev st)) ∧
  out st `prefix_of` out (step ev st).
Proof.
  destruct ev; simpl.
  - destruct (mounted st); [split; [apply advanced_refl|done]|].
    apply (ws_effect_advanced (set_mounted true st)).
  - destruct (mounted st); [|split; [apply advanced_refl|done]].
    fields. destruct (ws_cleanup_fields st) as (_ & _ & _ & _ & -> & _).
    split; [apply ws_cleanup_advanced|done].
  - destruct (mounted st); [|split; [apply advanced_refl|done]].
    apply handleConnectToggle_advanced.
  - apply setWsEndpoint_advanced.
  - destruct (timers st) as [|endpoint rest];
      [split; [apply advanced_refl|done]|].
    apply (setWsEndpoint_advanced endpoint (set_timers rest st)).
  - apply deliver_advanced.
Qed.

Lemma run_advanced events st :
  advanced (sockets st) (sockets (run events st)) ∧
  out st `prefix_of` out (run events st).
Proof.
  revert st. induction events as [|ev events IH]; intros st;
    [split; [apply advanced_refl|done]|].
  simpl. destruct (IH (step ev st)) as [Hs Ho].
  destruct (step_advanced ev st) as [Hs1 Ho1].
  split; [by eapply advanced_trans|by etrans].
Qed.


(** ** The status indicator *)

Lemma setWsConnected_cells b st :
  wsConnected (setWsConnected b st)
    = (if mounted st then b else wsConnected st) ∧
  socket (setWsConnected b st) = socket st.
Proof. unfold setWsConnected. destruct (mounted st) eqn:E; done. Qed.

Lemma setSocket_cells w st :
  wsConnected (setSocket w st) = wsConnected st ∧
  socket (setSocket w st) = (if mounted st then w else socket st).
Proof. unfold setSocket. destruct (mounted st) eqn:E; done. Qed.

(** Callbacks that arrive late reach the indicator: the [close] callback of
    any socket object that is not the live one (a replaced attempt) still
    runs [setWsConnected(false)] and shows the disconnection, while the live
    socket stays open and referenced.  The component then shows an open
    connection as disconnected. *)
Theorem late_close_clears_indicator events id live sock :
  let st := run events initial in
  open_at st live → id ≠ live →
  sockets st !! id = Some sock → readyState sock ≠ CLOSED →
  let st' := step (SocketCallback id CbClose) st in
  wsConnected st' = false ∧ open_at st' live ∧
  published_since st st' = [disconnected_toast].
Proof.
  intros st (Hk & He & s & Hs & Hopen) Hne Hl Hrs st'.
  assert (Hinv : invariant st) by apply run_invariant, initial_invariant.
  destruct (inv_handlers _ Hinv _ _ Hl) as (_ & _ & _ & Hon).
  assert (Hm : mounted st = true).
  { destruct (mounted st) eqn:Hm; [done|].
    by rewrite (inv_unmounted _ Hinv Hm) in He. }
  split; [|split].
  - subst st'. simpl. unfold deliver. rewrite Hl.
    assert (fires sock CbClose = Some CLOSED) as ->.
    { unfold fires. by destruct (readyState sock). }
    cbn [handler_set]. rewrite Hon. unfold handler.
    cbn [wsConnected emit]. rewrite (proj1 (setWsConnected_cells _ _)).
    fields. by rewrite Hm.
  - subst st'. simpl. unfold deliver. rewrite Hl.
    assert (fires sock CbClose = Some CLOSED) as ->.
    { unfold fires. by destruct (readyState sock). }
    cbn [handler_set]. rewrite Hon. unfold handler, open_at.
    cbn [socket emit]. rewrite (proj2 (setWsConnected_cells _ _)). fields.
    split; [done|]. split; [done|]. exists s.
    by rewrite list_lookup_alter_ne.
  - by apply (deliver_close_publishes st id sock).
Qed.


(** A click on Connect while the endpoint box is empty and nothing is
    connected: both [setWsEndpoint] calls, the immediate one and the one of
    the timer, set the value the cell already has, so the effect does not
    run again.  No socket is constructed and nothing is written; once the
    timer has fired the component is as it was before the click. *)
Theorem connect_with_empty_endpoint_is_idle st :
  mounted st = true → wsEndpoint st = "" → wsConnected st = false →
  timers st = [] →
  timers (step ConnectToggle st) = [""] ∧
  sockets (step ConnectToggle st) = sockets st ∧
  out (step ConnectToggle st) = out st ∧
  run [ConnectToggle; TimerFires] st = st.
Proof.
  intros Hm He Hc Ht.
  assert (Hstep : step ConnectToggle st = set_timers [""] st).
  { simpl. rewrite Hm. unfold handleConnectToggle. rewrite Hc.
    unfold setWsEndpoint. rewrite Hm, He.
    rewrite bool_decide_eq_true_2 by done. by rewrite Ht. }
  rewrite Hstep. split; [done|]. split; [done|]. split; [done|].
  unfold run. cbn [foldl]. rewrite Hstep.
  cbn [step timers set_timers]. unfold setWsEndpoint. fields.
  rewrite Hm, He. rewrite bool_decide_eq_true_2 by done.
  destruct st. simpl in *. by subst.
Qed.

(** ** What is published after a socket was closed *)

Lemma detection_events_app (a b : list Effect) :
  detection_events (a ++ b) = detection_events a ++ detection_events b.
Proof. unfold detection_events. apply omap_app. Qed.

Lemma quiet_refl st : quiet st st.
Proof. exists []. by rewrite app_nil_r. Qed.

Lemma quiet_same_out st st' : out st' = out st → quiet st st'.
Proof. intros H. exists []. by rewrite app_nil_r. Qed.

Lemma quiet_trans st1 st2 st3 : quiet st1 st2 → quiet st2 st3 → quiet st1 st3.
Proof.
  intros (e1 & H1 & Hd1) (e2 & H2 & Hd2). exists (e1 ++ e2).
  rewrite H2, H1, app_assoc. split; [done|].
  by rewrite detection_events_app, Hd1, Hd2.
Qed.

Lemma quiet_since st st' : quiet st st' → detection_events_since st st' = [].
Proof.
  intros (es & H & Hd). unfold detection_events_since.
  by rewrite H, drop_app_length.
Qed.

(** A socket that is closing or closed gets no [open] and no [message]
    callback; its [error] and [close] handlers dispatch no detection
    event. *)
Lemma deliver_inactive_quiet id cb st sock :
  sockets st !! id = Some sock → active sock = false →
  quiet st (deliver id cb st).
Proof.
  intros Hl Hact. unfold deliver. rewrite Hl.
  destruct (fires sock cb) as [rs|] eqn:Hf; [|apply quiet_refl].
  destruct (handler_set sock cb); [|by apply quiet_same_out].
  revert Hf Hact. unfold fires, active.
  destruct cb, (readyState sock); intros [= <-] Hact; try done;
    unfold handler, quiet; fields.
  all: eexists; rewrite <- ?app_assoc; split; [reflexivity|done].
Qed.

Lemma deliver_none_active id cb st :
  none_active st → none_active (deliver id cb st).
Proof.
  intros Hn. unfold deliver.
  destruct (sockets st !! id) as [sock|] eqn:Hl; [|done].
  destruct (fires sock cb) as [rs|] eqn:Hf; [|done].
  set (st1 := set_sockets _ st).
  assert (H1 : none_active st1).
  { subst st1. unfold none_active. fields. intros i s Hi.
    destruct (decide (id = i)) as [->|Hne].
    - rewrite list_lookup_alter_eq, Hl in Hi. injection Hi as <-.
      destruct (active (with_readyState rs sock)) eqn:E; [|done].
      pose proof (fires_not_more_active _ _ _ Hf E) as Hact.
      by rewrite (Hn _ _ Hl) in Hact.
    - rewrite list_lookup_alter_ne in Hi by done. eauto. }
  destruct (handler_set sock cb); [|done].
  destruct (handler_fields sock cb st1) as (Hs & _ & _).
  unfold none_active. by rewrite Hs.
Qed.

Lemma deliver_mounted id cb st : mounted (deliver id cb st) = mounted st.
Proof.
  unfold deliver.
  destruct (sockets st !! id) as [sock|]; [|done].
  destruct (fires sock cb) as [rs|]; [|done].
  destruct (handler_set sock cb); [|done].
  by destruct (handler_fields sock cb
                 (set_sockets (alter (with_readyState rs) id (sockets st)) st))
    as (_ & _ & ->).
Qed.

(** An unmounted component without a connecting or open socket stays so
    under every turn but a mount, and dispatches no detection event. *)
Lemma step_unmounted_quiet ev st :
  mounted st = false → none_active st → ev ≠ Mount →
  mounted (step ev st) = false ∧ none_active (step ev st) ∧
  quiet st (step ev st).
Proof.
  intros Hm Hn Hev. destruct ev; simpl; try done.
  - rewrite Hm. split; [done|]. split; [done|apply quiet_refl].
  - rewrite Hm. split; [done|]. split; [done|apply quiet_refl].
  - unfold setWsEndpoint. rewrite Hm.
    split; [done|]. split; [done|apply quiet_refl].
  - destruct (timers st) as [|endpoint rest];
      [split; [done|]; split; [done|apply quiet_refl]|].
    unfold setWsEndpoint. fields. rewrite Hm.
    split; [done|]. split; [done|by apply quiet_same_out].
  - rewrite deliver_mounted. split; [done|].
    split; [by apply deliver_none_active|].
    destruct (sockets st !! id) as [sock|] eqn:Hl.
    + apply (deliver_inactive_quiet id cb st sock); [done|by eapply Hn].
    + unfold deliver. rewrite Hl. apply quiet_refl.
Qed.

Lemma run_unmounted_quiet more st :
  mounted st = false → none_active st → Mount ∉ more →
  none_active (run more st) ∧ quiet st (run more st).
Proof.
  revert st. induction more as [|ev more IH]; intros st Hm Hn Hno;
    [split; [done|apply quiet_refl]|].
  apply not_elem_of_cons in Hno as [Hev Hno].
  destruct (step_unmounted_quiet ev st Hm Hn) as (Hm1 & Hn1 & Hq1);
    [congruence|].
  simpl. destruct (IH _ Hm1 Hn1 Hno) as [Hn2 Hq2].
  split; [done|by eapply quiet_trans].
Qed.

Lemma rank_inactive sock sock' :
  active sock = false →
  rank (readyState sock) ≤ rank (readyState sock') → active sock' = false.
Proof.
  unfold active.
  destruct (readyState sock), (readyState sock'); simpl; try done; lia.
Qed.

(** C5 (amended).  Unmounting a reachable, mounted component whose effect
    owns a socket calls [close()] on that socket and leaves no socket
    connecting or connected, with the component's references cleared.  From
    then on, and until the component is mounted again, no socket is
    connecting or connected and no detection event is dispatched, whatever
    callbacks and timers arrive.  The handlers stay assigned, though, and
    the [close] callback the platform then delivers publishes the
    "WebSocket Disconnected" notification. *)
Theorem unmount_closes_socket_keeps_handlers events id sock :
  let st := run events initial in
  mounted st = true → effect_ws st = Some id →
  sockets st !! id = Some sock →
  let st' := step Unmount st in
  mounted st' = false ∧ effect_ws st' = None ∧
  sockets st' !! id = Some (closed_by_script sock) ∧
  none_active st' ∧ handlers_attached st' ∧
  (∀ more, Mount ∉ more →
     none_active (run more st') ∧
     detection_events_since st' (run more st') = []) ∧
  (readyState sock ≠ CLOSED →
   published_since st' (step (SocketCallback id CbClose) st')
     = [disconnected_toast]).
Proof.
  intros st Hm He Hl st'.
  assert (Hinv : invariant st) by apply run_invariant, initial_invariant.
  destruct (ws_cleanup_invariant st Hinv) as [Hh Hn].
  destruct (ws_cleanup_fields st) as (_ & He' & _ & _ & _ & Hs).
  rewrite He in Hs.
  assert (Hl' : sockets st' !! id = Some (closed_by_script sock)).
  { subst st'. simpl. rewrite Hm. fields.
    by rewrite Hs, list_lookup_alter_eq, Hl. }
  assert (Hh' : handlers_attached st').
  { subst st'. simpl. rewrite Hm. done. }
  assert (Hm' : mounted st' = false).
  { subst st'. simpl. by rewrite Hm. }
  assert (Hn' : none_active st').
  { subst st'. simpl. by rewrite Hm. }
  split; [done|]. split; [subst st'; simpl; by rewrite Hm|].
  split; [done|]. split; [done|]. split; [done|]. split.
  - intros more Hno.
    destruct (run_unmounted_quiet more st' Hm' Hn' Hno) as [Hn2 Hq].
    split; [done|by apply quiet_since].
  - intros Hrs. apply (deliver_close_publishes _ _ _ Hl').
    + by rewrite closed_by_script_not_closed.
    + by destruct (Hh' _ _ Hl') as (_ & _ & _ & ?).
Qed.

(** ** The reconnect *)

Lemma ws_effect_accepted st : effect_accepted (ws_effect st).
Proof.
  unfold effect_accepted, ws_effect.
  destruct (WebSocket_accepts (wsEndpoint st)) eqn:E; fields; done.
Qed.

Lemma setWsEndpoint_accepted v st :
  effect_accepted st → effect_accepted (setWsEndpoint v st).
Proof.
  intros H. unfold setWsEndpoint. destruct (mounted st); [|done].
  case_bool_decide; [done|]. apply ws_effect_accepted.
Qed.

Lemma effect_accepted_same st st' :
  effect_ws st' = effect_ws st → wsEndpoint st' = wsEndpoint st →
  effect_accepted st → effect_accepted st'.
Proof. unfold effect_accepted. by intros -> ->. Qed.

Lemma deliver_endpoint id cb st :
  effect_ws (deliver id cb st) = effect_ws st ∧
  wsEndpoint (deliver id cb st) = wsEndpoint st.
Proof.
  unfold deliver.
  destruct (sockets st !! id) as [sock|]; [|done].
  destruct (fires sock cb) as [rs|]; [|done].
  destruct (handler_set sock cb); [|done].
  destruct cb; unfold handler; fields; done.
Qed.

Lemma step_accepted ev st : effect_accepted st → effect_accepted (step ev st).
Proof.
  intros H. destruct ev; simpl.
  - destruct (mounted st); [done|]. apply ws_effect_accepted.
  - destruct (mounted st); [|done]. unfold effect_accepted. fields.
    by destruct (ws_cleanup_fields st) as (_ & -> & _).
  - destruct (mounted st); [|done]. unfold handleConnectToggle.
    assert (Helse : effect_accepted
              (set_timers (timers (setWsEndpoint "" st) ++ [wsEndpoint st])
                 (setWsEndpoint "" st))).
    { by apply (effect_accepted_same (setWsEndpoint "" st)),
        setWsEndpoint_accepted. }
    destruct (wsConnected st); [|done].
    destruct (socket st) as [i|]; [|done].
    apply (effect_accepted_same st); fields; done.
  - by apply setWsEndpoint_accepted.
  - destruct (timers st) as [|endpoint rest]; [done|].
    apply setWsEndpoint_accepted. by apply (effect_accepted_same st).
  - destruct (deliver_endpoint id cb st) as [He Hw].
    by apply (effect_accepted_same st).
Qed.

Lemma run_accepted events st :
  effect_accepted st → effect_accepted (run events st).
Proof.
  revert st. induction events as [|ev events IH]; intros st H; [done|].
  simpl. by apply IH, step_accepted.
Qed.

Lemma initial_accepted : effect_accepted initial.
Proof. intros H. done. Qed.

Lemma ws_effect_timers st : timers (ws_effect st) = timers st.
Proof.
  unfold ws_effect. destruct (WebSocket_accepts (wsEndpoint st)); by fields.
Qed.

Lemma ws_effect_mounted st : mounted (ws_effect st) = mounted st.
Proof.
  unfold ws_effect. destruct (WebSocket_accepts (wsEndpoint st)); by fields.
Qed.

Lemma ws_effect_wsEndpoint st : wsEndpoint (ws_effect st) = wsEndpoint st.
Proof.
  unfold ws_effect. destruct (WebSocket_accepts (wsEndpoint st)); by fields.
Qed.

Lemma ws_effect_length st :
  length (sockets st) ≤ length (sockets (ws_effect st)).
Proof.
  unfold ws_effect. destruct (WebSocket_accepts (wsEndpoint st)); fields;
    rewrite ?length_app; lia.
Qed.

Lemma ws_cleanup_length st :
  length (sockets (ws_cleanup st)) = length (sockets st).
Proof.
  destruct (ws_cleanup_fields st) as (_ & _ & _ & _ & _ & ->).
  destruct (effect_ws st); by rewrite ?length_alter.
Qed.

(** One timer of a reconnect fires. *)
Lemma timer_fires_awaiting e n t rest st :
  WebSocket_accepts e = true → awaiting e n st → timers st = t :: rest →
  awaiting e n (step TimerFires st) ∧ timers (step TimerFires st) = rest ∧
  (t = e → wsEndpoint (step TimerFires st) = e).
Proof.
  intros Hacc (Hm & Hlen & Hfresh) Ht. simpl. rewrite Ht.
  unfold setWsEndpoint. fields. rewrite Hm.
  case_bool_decide as Hsame.
  - split; [|split; [done|by intros <-]]. done.
  - set (stc := set_wsEndpoint t (ws_cleanup (set_timers rest st))).
    assert (Hmc : mounted stc = true).
    { subst stc. fields.
      by destruct (ws_cleanup_fields (set_timers rest st)) as (-> & _). }
    assert (Hlc : length (sockets stc) = length (sockets st)).
    { subst stc. fields. by rewrite ws_cleanup_length. }
    assert (Htc : timers stc = rest).
    { subst stc. fields.
      by destruct (ws_cleanup_fields (set_timers rest st))
        as (_ & _ & _ & -> & _). }
    assert (Hwc : wsEndpoint stc = t) by done.
    split; [|split].
    + split; [by rewrite ws_effect_mounted|]. split.
      * pose proof (ws_effect_length stc). lia.
      * rewrite ws_effect_wsEndpoint, Hwc. intros ->.
        exists (length (sockets stc)). unfold ws_effect.
        rewrite Hwc, Hacc. fields. split; [lia|]. split; [done|].
        by rewrite lookup_app_r, Nat.sub_diag by lia.
    + by rewrite ws_effect_timers.
    + intros <-. by rewrite ws_effect_wsEndpoint.
Qed.

(** All the timers queued up to and including the reconnect's fire. *)
Lemma timers_fire_awaiting e n l st :
  WebSocket_accepts e = true → awaiting e n st → timers st = l ++ [e] →
  let fired := run (replicate (S (length l)) TimerFires) st in
  wsEndpoint fired = e ∧ awaiting e n fired.
Proof.
  intros Hacc. revert st. induction l as [|t l IH]; intros st Haw Ht.
  - destruct (timer_fires_awaiting e n e [] st Hacc Haw Ht) as (Haw1 & _ & He).
    simpl. split; [by apply He|done].
  - destruct (timer_fires_awaiting e n t (l ++ [e]) st Hacc Haw Ht)
      as (Haw1 & Ht1 & _).
    apply (IH _ Haw1 Ht1).
Qed.

(** C8 (amended).  A toggle while the effect's socket is still connecting.
    With an empty endpoint box it only queues a timer and the attempt goes
    on.  With any other endpoint it closes that socket, which is never
    connecting or open again, and queues a fresh attempt for the same
    endpoint behind the timers already pending; once these have fired the
    effect's socket is a new object built for that endpoint.  Either way at
    no later point are two sockets connecting or connected.  No callback on
    the closed socket dispatches a detection event any more, but the socket
    keeps its handlers, so the [error] and [close] callbacks of the aborted
    attempt still publish their notifications. *)
Theorem toggle_while_connecting_restarts events id sock :
  let st := run events initial in
  mounted st = true → wsConnected st = false → effect_ws st = Some id →
  sockets st !! id = Some sock → readyState sock = CONNECTING →
  let st1 := step ConnectToggle st in
  timers st1 = timers st ++ [wsEndpoint st] ∧
  (∀ more, at_most_one_active (run more st1)) ∧
  (wsEndpoint st = "" → sockets st1 = sockets st ∧ effect_ws st1 = Some id) ∧
  (wsEndpoint st ≠ "" →
   sockets st1 !! id = Some (closed_by_script sock) ∧
   readyState (closed_by_script sock) = CLOSING ∧
   (∀ more, ∃ sock', sockets (run more st1) !! id = Some sock' ∧
                     active sock' = false) ∧
   (∀ more cb,
      detection_events_since (run more st1)
        (step (SocketCallback id cb) (run more st1)) = []) ∧
   published_since st1 (step (SocketCallback id CbError) st1) = [error_toast] ∧
   published_since st1 (step (SocketCallback id CbClose) st1)
     = [disconnected_toast] ∧
   let fired := run (replicate (S (length (timers st))) TimerFires) st1 in
   ∃ id', id' ≠ id ∧ effect_ws fired = Some id' ∧
          wsEndpoint fired = wsEndpoint st ∧
          sockets fired !! id' = Some (new_socket (wsEndpoint st))).
Proof.
  intros st Hm Hc He Hl Hrs st1.
  assert (Hinv : invariant st) by apply run_invariant, initial_invariant.
  assert (Hinv1 : invariant st1) by by apply step_invariant.
  assert (Hacc : WebSocket_accepts (wsEndpoint st) = true).
  { apply (run_accepted events initial initial_accepted). fold st.
    by rewrite He. }
  assert (Hone : ∀ more, at_most_one_active (run more st1)).
  { intros more. apply invariant_at_most_one_active. by apply run_invariant. }
  destruct (decide (wsEndpoint st = "")) as [Hempty|Hne].
  { assert (Hst1 : st1 = set_timers (timers st ++ [""]) st).
    { subst st1. simpl. rewrite Hm. unfold handleConnectToggle.
      rewrite Hc. unfold setWsEndpoint. rewrite Hm, Hempty.
      by rewrite bool_decide_eq_true_2 by done. }
    split; [by rewrite Hst1, Hempty|]. split; [done|].
    split; [by rewrite Hst1|done]. }
  destruct (ws_cleanup_fields st) as (Hcm & Hce & Hcw & Hct & Hco & Hcs).
  rewrite He in Hcs.
  assert (Hid : id < length (sockets st)) by by eapply lookup_lt_Some.
  set (stc := set_wsEndpoint "" (ws_cleanup st)).
  assert (Hst1 : st1 = set_timers (timers (ws_effect stc) ++ [wsEndpoint st])
                         (ws_effect stc)).
  { subst st1 stc. simpl. rewrite Hm. unfold handleConnectToggle.
    rewrite Hc. unfold setWsEndpoint. rewrite Hm.
    rewrite bool_decide_eq_false_2 by done. done. }
  assert (Hlc : sockets stc !! id = Some (closed_by_script sock)).
  { subst stc. fields. by rewrite Hcs, list_lookup_alter_eq, Hl. }
  assert (Hlen : length (sockets stc) = length (sockets st)).
  { subst stc. fields. by rewrite Hcs, length_alter. }
  assert (Hl1 : sockets st1 !! id = Some (closed_by_script sock)).
  { rewrite Hst1. fields. unfold ws_effect.
    destruct (WebSocket_accepts (wsEndpoint stc)); fields; [|done].
    by rewrite lookup_app_l by lia. }
  assert (Ht1 : timers st1 = timers st ++ [wsEndpoint st]).
  { rewrite Hst1. fields. f_equal. rewrite ws_effect_timers.
    subst stc. by fields. }
  assert (Hclosing : readyState (closed_by_script sock) = CLOSING).
  { apply closed_by_script_not_closed. by rewrite Hrs. }
  assert (Hlater : ∀ more, ∃ sock',
            sockets (run more st1) !! id = Some sock' ∧ active sock' = false).
  { intros more. destruct (run_advanced more st1) as [Hadv _].
    destruct (Hadv _ _ Hl1) as (sock' & Hl2 & _ & Hrank).
    exists sock'. split; [done|].
    apply (rank_inactive (closed_by_script sock)); [|done].
    apply closed_by_script_inactive. }
  destruct (inv_handlers _ Hinv1 _ _ Hl1) as (_ & _ & Herr & Hclose).
  split; [done|]. split; [done|]. split; [done|]. intros _.
  split; [done|]. split; [done|]. split; [done|].
  split; [|split; [|split]].
  - intros more cb. destruct (Hlater more) as (sock' & Hl2 & Hact).
    apply quiet_since. simpl. by apply (deliver_inactive_quiet id cb _ sock').
  - apply (deliver_error_publishes _ _ _ Hl1); [by rewrite Hclosing|done].
  - apply (deliver_close_publishes _ _ _ Hl1); [by rewrite Hclosing|done].
  - assert (Haw : awaiting (wsEndpoint st) (length (sockets st)) st1).
    { rewrite Hst1. split; [|split]; fields.
      - rewrite ws_effect_mounted. subst stc. fields. congruence.
      - pose proof (ws_effect_length stc). lia.
      - rewrite ws_effect_wsEndpoint. subst stc. fields. done. }
    destruct (timers_fire_awaiting (wsEndpoint st) (length (sockets st))
                (timers st) st1 Hacc Haw Ht1) as (Hw & _ & _ & Hfresh).
    destruct (Hfresh Hw) as (id' & Hge & He' & Hl').
    exists id'. split; [lia|]. done.
Qed.

End SocketFacts.

Section SocketExamples.
Import JSString JSON Terminal Sample.

(** C5 (as stated) fails: after mount, open and unmount, the socket is
    closing with its handlers still assigned, and the [close] callback that
    arrives next publishes a status notification. *)
Lemma close_callback_after_unmount_publishes :
  let st := run (P:=sample_platform)
              [Mount; SocketCallback 0 CbOpen; Unmount] initial in
  mounted st = false ∧
  sockets st !! 0
    = Some {| url := "ws://localhost:8080/ws"; readyState := CLOSING;
              onopen := true; onmessage := true; onerror := true;
              onclose := true |} ∧
  published_since st (step (SocketCallback 0 CbClose) st)
    = [disconnected_toast] ∧
  published_since st (step (SocketCallback 0 CbClose) st) ≠ [].
Proof. repeat split. intros H. vm_compute in H. discriminate H. Qed.

Lemma unmount_closes_socket_keeps_handlers_witness :
  let st := run (P:=sample_platform)
              [Mount; SocketCallback 0 CbOpen; Unmount] initial in
  mounted st = false ∧
  published_since st (step (SocketCallback 0 CbClose) st)
    = [disconnected_toast].
Proof.
  intros st.
  destruct (unmount_closes_socket_keeps_handlers (P:=sample_platform)
              [Mount; SocketCallback 0 CbOpen] 0
              {| url := "ws://localhost:8080/ws"; readyState := OPEN;
                 onopen := true; onmessage := true; onerror := true;
                 onclose := true |})
    as (Hm & _ & _ & _ & _ & _ & Hpub); [reflexivity..|].
  split; [exact Hm|]. apply Hpub. discriminate.
Defined.

(** C8 (as stated) fails: a toggle while the first attempt is connecting
    closes it, yet the [close] callback of that attempt still publishes a
    notification, and when the timer fires a second attempt to the same
    endpoint is connecting. *)
Lemma aborted_attempt_still_notifies :
  let st := run (P:=sample_platform) [Mount] initial in
  let st1 := step ConnectToggle st in
  wsConnected st = false ∧
  sockets st !! 0 = Some (new_socket "ws://localhost:8080/ws") ∧
  sockets st1 !! 0
    = Some (closed_by_script (new_socket "ws://localhost:8080/ws")) ∧
  published_since st1 (step (SocketCallback 0 CbClose) st1)
    = [disconnected_toast] ∧
  published_since st1 (step (SocketCallback 0 CbClose) st1) ≠ [] ∧
  sockets (step TimerFires st1) !! 1
    = Some (new_socket "ws://localhost:8080/ws").
Proof. repeat split. intros H. vm_compute in H. discriminate H. Qed.

Lemma toggle_while_connecting_restarts_witness :
  let st1 := run (P:=sample_platform) [Mount; ConnectToggle] initial in
  timers st1 = ["ws://localhost:8080/ws"] ∧
  published_since st1 (step (SocketCallback 0 CbError) st1) = [error_toast].
Proof.
  intros st1.
  destruct (toggle_while_connecting_restarts (P:=sample_platform)
              [Mount] 0 (new_socket "ws://localhost:8080/ws"))
    as (Ht & _ & _ & Hne); [reflexivity..|].
  split; [exact Ht|].
  destruct Hne as (_ & _ & _ & _ & Herr & _); [discriminate|exact Herr].
Defined.

End SocketExamples.

(** * The active feeds *)

Section IndexFacts.
Import Index.

Lemma filter_others_length (id : string) (l : list string) :
  NoDup l → id ∈ l →
  S (length (filter (λ feedId, feedId ≠ id) l)) = length l.
Proof.
  induction 1 as [|x l Hx Hnd IH]; intros Hin.
  - by apply elem_of_nil in Hin.
  - rewrite filter_cons. case_decide as Hd.
    + simpl. f_equal. apply IH. apply elem_of_cons in Hin as [->|]; done.
    + assert (x = id) as -> by (by destruct (decide (x = id)); [|destruct Hd]).
      simpl. f_equal. clear IH Hin Hd Hnd.
      induction l as [|y l IH]; [done|].
      rewrite not_elem_of_cons in Hx. destruct Hx as [Hy Hx].
      rewrite filter_cons_True by done. simpl. f_equal. by apply IH.
Qed.

(** One toggle keeps the active feeds pairwise distinct and between one and
    five. *)
Lemma toggleFeed_invariant id st :
  NoDup (activeFeeds st) → within_bounds st →
  NoDup (activeFeeds (toggleFeed id st).1) ∧
  within_bounds (toggleFeed id st).1.
Proof.
  intros Hnd [Hlo Hhi]. unfold toggleFeed, within_bounds.
  case_bool_decide as Hin.
  - case_bool_decide as Hone; simpl; [done|].
    pose proof (filter_others_length id _ Hnd Hin).
    split; [by apply NoDup_filter|lia].
  - case_bool_decide as Hfive; simpl; [done|].
    rewrite length_app. simpl. split; [|lia].
    apply NoDup_app. repeat split; [done| |apply NoDup_singleton].
    intros x Hx ->%list_elem_of_singleton. done.
Qed.

(** C10.  From a state whose active feeds are pairwise distinct and number
    between one and five, [toggleFeed] leads to such a state again; it
    refuses to deactivate the last active feed and to activate a sixth one,
    leaving the state as it was; and a toggle it accepts sets the current
    feed index to 0. *)
Theorem toggleFeed_keeps_bounds id st :
  NoDup (activeFeeds st) → within_bounds st →
  let st' := (toggleFeed id st).1 in
  let refusal := (toggleFeed id st).2 in
  NoDup (activeFeeds st') ∧ within_bounds st' ∧
  (id ∈ activeFeeds st → length (activeFeeds st) = 1 →
     st' = st ∧ refusal = Some CannotDeactivate) ∧
  (id ∉ activeFeeds st → length (activeFeeds st) = 5 →
     st' = st ∧ refusal = Some MaximumFeedsReached) ∧
  (refusal = None → currentFeedIndex st' = 0).
Proof.
  intros Hnd Hb.
  destruct (toggleFeed_invariant id st Hnd Hb) as [Hnd' Hb'].
  split; [done|]. split; [done|]. unfold toggleFeed.
  split; [|split].
  - intros Hin Hone.
    by rewrite bool_decide_eq_true_2, bool_decide_eq_true_2 by done.
  - intros Hin Hfive.
    rewrite bool_decide_eq_false_2 by done.
    by rewrite bool_decide_eq_true_2 by lia.
  - repeat case_bool_decide; simpl; done.
Qed.

Lemma toggleFeed_keeps_bounds_witness :
  (toggleFeed "1" initial).1 = initial ∧
  activeFeeds (toggleFeed "2" initial).1 = ["1"; "2"].
Proof.
  destruct (toggleFeed_keeps_bounds "1" initial) as (_ & _ & Hlast & _).
  - apply NoDup_singleton.
  - unfold within_bounds. simpl. lia.
  - split; [|reflexivity]. apply Hlast; [|reflexivity].
    apply list_elem_of_singleton. reflexivity.
Defined.

(** Pairwise distinct entries are needed: [filter] drops every occurrence
    of the id.  No sequence of toggles produces a repeated entry
    ([toggles_keep_bounds] below). *)
Example toggleFeed_repeated_entry :
  activeFeeds
    (toggleFeed "1" {| activeFeeds := ["1"; "1"]; currentFeedIndex := 0 |}).1
  = [].
Proof. reflexivity. Qed.

(** Every state reached from the initial one by toggles has between one and
    five pairwise distinct active feeds. *)
Lemma toggles_keep_bounds ids :
  NoDup (activeFeeds (toggles ids initial)) ∧
  within_bounds (toggles ids initial).
Proof.
  assert (H : ∀ st, NoDup (activeFeeds st) ∧ within_bounds st →
            NoDup (activeFeeds (toggles ids st)) ∧
            within_bounds (toggles ids st)).
  { induction ids as [|id ids IH]; intros st Hst; [done|].
    simpl. apply IH. destruct Hst as [Hnd Hb].
    by apply toggleFeed_invariant. }
  apply H. split; [apply NoDup_singleton|]. unfold within_bounds. simpl. lia.
Qed.

End IndexFacts.

(** * The page: active feeds, navigation, feed list and terminal *)

Section PageFacts.
Import Index IndexPage.

(** A toggle changes the membership of the toggled id only, and flips it
    unless the toggle is refused, in which case the state is unchanged. *)
Lemma toggleFeed_membership feedId st :
  let st' := (Index.toggleFeed feedId st).1 in
  let refusal := (Index.toggleFeed feedId st).2 in
  (∀ other, other ≠ feedId →
     other ∈ activeFeeds st' ↔ other ∈ activeFeeds st) ∧
  (refusal = None → (feedId ∈ activeFeeds st' ↔ feedId ∉ activeFeeds st)) ∧
  (refusal ≠ None → st' = st).
Proof.
  unfold Index.toggleFeed.
  case_bool_decide as Hin; case_bool_decide as Hlen; simpl.
  - repeat split; try done.
  - repeat split; try done.
    + intros [_ ?]%list_elem_of_filter. done.
    + intros ?. apply list_elem_of_filter. done.
    + intros [? _]%list_elem_of_filter. done.
  - repeat split; try done.
  - repeat split; try done.
    + intros [?|?%list_elem_of_singleton]%elem_of_app; done.
    + intros ?. apply elem_of_app. by left.
    + intros _. apply elem_of_app. right. by apply list_elem_of_singleton.
Qed.

Lemma filter_other_id_absent (feedId : string) (l : list string) :
  feedId ∉ l → filter (λ x, x ≠ feedId) l = l.
Proof.
  induction l as [|y l IH]; [done|]. rewrite not_elem_of_cons.
  intros [Hy Hl]. rewrite filter_cons_True by done. by rewrite IH.
Qed.

Lemma filter_other_id_shorter (feedId : string) (l : list string) :
  feedId ∈ l → length (filter (λ x, x ≠ feedId) l) < length l.
Proof.
  induction l as [|y l IH]; [by intros ?%elem_of_nil|].
  rewrite filter_cons. case_decide as Hd; simpl.
  - intros [?|Hl]%elem_of_cons; [done|]. specialize (IH Hl). lia.
  - intros _. pose proof (length_filter (λ x, x ≠ feedId) l). lia.
Qed.

Lemma toggleFeed_refuse_last feedId st :
  feedId ∈ activeFeeds st → length (activeFeeds st) = 1 →
  Index.toggleFeed feedId st = (st, Some CannotDeactivate).
Proof.
  intros Hin Hone. unfold Index.toggleFeed.
  by rewrite !bool_decide_eq_true_2 by done.
Qed.

Lemma toggleFeed_remove feedId st :
  feedId ∈ activeFeeds st → length (activeFeeds st) ≠ 1 →
  Index.toggleFeed feedId st
    = ({| activeFeeds := filter (λ x, x ≠ feedId) (activeFeeds st);
          currentFeedIndex := 0 |}, None).
Proof.
  intros Hin Hone. unfold Index.toggleFeed.
  rewrite bool_decide_eq_true_2 by done.
  by rewrite bool_decide_eq_false_2 by done.
Qed.

Lemma toggleFeed_refuse_sixth feedId st :
  feedId ∉ activeFeeds st → 5 ≤ length (activeFeeds st) →
  Index.toggleFeed feedId st = (st, Some MaximumFeedsReached).
Proof.
  intros Hin Hfive. unfold Index.toggleFeed.
  rewrite bool_decide_eq_false_2 by done.
  by rewrite bool_decide_eq_true_2 by done.
Qed.

Lemma toggleFeed_add feedId st :
  feedId ∉ activeFeeds st → length (activeFeeds st) < 5 →
  Index.toggleFeed feedId st
    = ({| activeFeeds := activeFeeds st ++ [feedId];
          currentFeedIndex := 0 |}, None).
Proof.
  intros Hin Hfive. unfold Index.toggleFeed.
  rewrite bool_decide_eq_false_2 by done.
  by rewrite bool_decide_eq_false_2 by lia.
Qed.

(** Toggling the same feed twice, from a state with one to five active
    feeds, leaves every feed's switch as it was; a feed that was inactive
    leaves the list itself as it was. *)
Theorem toggleFeed_twice feedId st :
  within_bounds st →
  let st2 := toggles [feedId; feedId] st in
  (∀ x, x ∈ activeFeeds st2 ↔ x ∈ activeFeeds st) ∧
  (feedId ∉ activeFeeds st → activeFeeds st2 = activeFeeds st).
Proof.
  intros [Hlo Hhi]. unfold toggles. simpl.
  destruct (decide (feedId ∈ activeFeeds st)) as [Hin|Hin].
  - destruct (decide (length (activeFeeds st) = 1)) as [Hone|Hone].
    + rewrite (toggleFeed_refuse_last feedId st) by done. simpl.
      by rewrite (toggleFeed_refuse_last feedId st) by done.
    + pose proof (filter_other_id_shorter _ _ Hin) as Hshort.
      rewrite (toggleFeed_remove feedId st) by done. simpl.
      rewrite toggleFeed_add; simpl; [|by intros [? _]%list_elem_of_filter|lia].
      split; [|done].
      intros x. rewrite elem_of_app, list_elem_of_filter,
        list_elem_of_singleton.
      destruct (decide (x = feedId)) as [->|Hx]; tauto.
  - destruct (decide (5 ≤ length (activeFeeds st))) as [Hfive|Hfive].
    + rewrite (toggleFeed_refuse_sixth feedId st) by done. simpl.
      by rewrite (toggleFeed_refuse_sixth feedId st) by done.
    + rewrite (toggleFeed_add feedId st) by (done || lia). simpl.
      rewrite toggleFeed_remove; simpl.
      * rewrite filter_app, filter_other_id_absent by done.
        rewrite filter_cons_False, filter_nil, app_nil_r
          by (intros H; by apply H).
        done.
      * apply elem_of_app. right. by apply list_elem_of_singleton.
      * rewrite length_app. simpl. lia.
Qed.

Lemma toggleFeed_twice_witness :
  activeFeeds (toggles ["2"; "2"] Index.initial) = ["1"].
Proof.
  apply (toggleFeed_twice "2" Index.initial).
  - unfold within_bounds. simpl. lia.
  - intros H. apply list_elem_of_singleton in H. discriminate H.
Defined.

Lemma next_index i len :
  1 < len → i < len →
  Z.to_nat (Z.rem (Z.of_nat i + 1) (Z.of_nat len))
    = if decide (i + 1 = len) then 0 else i + 1.
Proof.
  intros Hlen Hi. case_decide as Hd.
  - replace (Z.of_nat i + 1)%Z with (Z.of_nat len) by lia.
    rewrite Z.rem_same by lia. done.
  - rewrite Z.rem_small by lia. lia.
Qed.

Lemma prev_index i len :
  1 < len → i < len →
  Z.to_nat (Z.rem (Z.of_nat i - 1 + Z.of_nat len) (Z.of_nat len))
    = if decide (i = 0) then len - 1 else i - 1.
Proof.
  intros Hlen Hi. case_decide as Hd.
  - subst i. rewrite Z.rem_small by lia. lia.
  - rewrite Z.rem_mod_nonneg by lia.
    replace (Z.of_nat i - 1 + Z.of_nat len)%Z
      with (Z.of_nat i - 1 + 1 * Z.of_nat len)%Z by lia.
    rewrite Z_mod_plus_full, Z.mod_small by lia. lia.
Qed.

(** Next and previous keep the index inside the list and never touch the
    active feeds. *)
Lemma next_prev_in_range n :
  currentFeedIndex n < length (activeFeeds n) →
  currentFeedIndex (handleNextFeed n) < length (activeFeeds n) ∧
  currentFeedIndex (handlePrevFeed n) < length (activeFeeds n) ∧
  activeFeeds (handleNextFeed n) = activeFeeds n ∧
  activeFeeds (handlePrevFeed n) = activeFeeds n.
Proof.
  intros Hi. destruct n as [l i]. simpl in Hi.
  unfold handleNextFeed, handlePrevFeed. simpl.
  destruct (1 <? length l) eqn:Hlen; simpl; [|by repeat split].
  apply Nat.ltb_lt in Hlen.
  rewrite (next_index i (length l)), (prev_index i (length l)) by done.
  repeat case_decide; repeat split; lia.
Qed.

(** Next and previous are inverse to each other on an index inside the
    list: after both, in either order, the page shows the same feed
    again. *)
Theorem next_prev_inverse n :
  currentFeedIndex n < length (activeFeeds n) →
  handlePrevFeed (handleNextFeed n) = n ∧
  handleNextFeed (handlePrevFeed n) = n.
Proof.
  intros Hi. destruct n as [l i]. simpl in Hi.
  unfold handleNextFeed, handlePrevFeed. simpl.
  destruct (1 <? length l) eqn:Hlen; simpl; rewrite ?Hlen;
    [|by repeat split].
  apply Nat.ltb_lt in Hlen.
  rewrite (next_index i (length l)), (prev_index i (length l)) by done.
  repeat case_decide; simpl;
    rewrite ?next_index, ?prev_index by lia;
    repeat case_decide; repeat split; try f_equal; lia.
Qed.

Lemma next_prev_inverse_witness :
  let n := {| activeFeeds := ["1"; "2"; "3"]; currentFeedIndex := 0 |} in
  currentFeedIndex (handlePrevFeed n) = 2 ∧
  handleNextFeed (handlePrevFeed n) = n.
Proof.
  intros n. split; [reflexivity|].
  apply (next_prev_inverse n). simpl. lia.
Defined.

Lemma toggleFeed_nav_ok feedId n :
  nav_ok n → nav_ok (Index.toggleFeed feedId n).1.
Proof.
  intros (Hnd & Hb & Hi).
  destruct (toggleFeed_invariant feedId n Hnd Hb) as [Hnd' Hb'].
  split; [done|]. split; [done|].
  destruct Hb' as [Hlo _]. revert Hlo. unfold Index.toggleFeed.
  repeat case_bool_decide; simpl; lia.
Qed.

Lemma step_nav_ok ev p : nav_ok (nav p) → nav_ok (nav (step ev p)).
Proof.
  intros Hok. destruct ev; simpl; try done.
  - unfold handleNewFeed. by destruct (existsb _ _).
  - pose proof (toggleFeed_nav_ok feedId _ Hok) as H. unfold toggleFeed.
    destruct (Index.toggleFeed feedId (nav p)) as [n [why|]]; done.
  - unfold changeDetectionMode. repeat case_match; done.
  - unfold results_timer. by case_match.
  - destruct Hok as (Hnd & Hb & Hi).
    destruct (next_prev_in_range _ Hi) as (Hn & _ & Ha & _).
    unfold nav_ok, within_bounds. rewrite Ha. done.
  - destruct Hok as (Hnd & Hb & Hi).
    destruct (next_prev_in_range _ Hi) as (_ & Hn & _ & Ha).
    unfold nav_ok, within_bounds. rewrite Ha. done.
Qed.

Lemma run_nav_ok events p : nav_ok (nav p) → nav_ok (nav (run events p)).
Proof.
  revert p. induction events as [|ev events IH]; intros p Hok; [done|].
  simpl. apply IH. by apply step_nav_ok.
Qed.

Lemma mounted_nav_ok now : nav_ok (nav (mounted now)).
Proof.
  split; [apply NoDup_singleton|]. unfold within_bounds. simpl. lia.
Qed.

(** The ids of the feed list stay pairwise distinct. *)
Lemma step_feed_ids ev p :
  NoDup (map id (feeds p)) → NoDup (map id (feeds (step ev p))).
Proof.
  intros Hnd. destruct ev; simpl.
  - unfold handleNewFeed. destruct (existsb _ _) eqn:E; [done|]. simpl.
    rewrite map_app. apply NoDup_app. split; [done|].
    split; [|apply NoDup_singleton].
    intros x Hx ->%list_elem_of_singleton.
    apply list_elem_of_fmap in Hx as (f & Hid & Hf).
    assert (existsb (has_id (id feed)) (feeds p) = true); [|congruence].
    apply existsb_exists. exists f. split; [by apply list_elem_of_In|].
    unfold has_id. rewrite <- Hid. apply String.eqb_refl.
  - rewrite map_map.
    erewrite map_ext; [exact Hnd|]. intros f. simpl. by case_match.
  - unfold toggleFeed. by repeat case_match.
  - assert (Hmap : map id (map (λ feed, if has_id feedId feed
                      then with_detectionMode modeId feed else feed) (feeds p))
                   = map id (feeds p)).
    { rewrite map_map. apply map_ext. intros f. by case_match. }
    unfold changeDetectionMode. repeat case_match; simpl; by rewrite Hmap.
  - unfold results_timer. by case_match.
  - done.
  - done.
Qed.

Lemma run_feed_ids events p :
  NoDup (map id (feeds p)) → NoDup (map id (feeds (run events p))).
Proof.
  revert p. induction events as [|ev events IH]; intros p Hok; [done|].
  simpl. apply IH. by apply step_feed_ids.
Qed.

Lemma find_has_id_unique feedId f l :
  NoDup (map id l) → f ∈ l → id f = feedId →
  List.find (has_id feedId) l = Some f.
Proof.
  induction l as [|g l IH]; intros Hnd Hin Hid; [by apply elem_of_nil in Hin|].
  simpl in *. apply NoDup_cons in Hnd as [Hg Hnd]. unfold has_id at 1.
  destruct (String.eqb (id g) feedId) eqn:E.
  - apply String.eqb_eq in E. apply elem_of_cons in Hin as [->|Hin]; [done|].
    destruct Hg. rewrite E, <- Hid. apply list_elem_of_fmap. by exists f.
  - apply elem_of_cons in Hin as [->|Hin]; [|by apply IH].
    apply String.eqb_neq in E. done.
Qed.

(** In every state the mounted page reaches: one to five pairwise distinct
    feeds are active, the current index points at one of them, and the
    displayed feed is exactly the feed of the list that has this id (none
    while no feed with that id has connected). *)
Theorem displayed_slot_is_active now events :
  let p := run events (mounted now) in
  within_bounds (nav p) ∧ NoDup (activeFeeds (nav p)) ∧
  NoDup (map id (feeds p)) ∧
  ∃ current,
    activeFeeds (nav p) !! currentFeedIndex (nav p) = Some current ∧
    ∀ f, displayedFeed p = Some f ↔ f ∈ feeds p ∧ id f = current.
Proof.
  intros p.
  destruct (run_nav_ok events _ (mounted_nav_ok now)) as (Hnd & Hb & Hi).
  assert (Hids : NoDup (map id (feeds p))).
  { apply run_feed_ids. simpl. apply NoDup_nil_2. }
  fold p in Hnd, Hb, Hi.
  split; [done|]. split; [done|]. split; [done|].
  destruct (lookup_lt_is_Some_2 _ _ Hi) as [current Hc].
  exists current. split; [done|]. intros f. unfold displayedFeed.
  rewrite Hc. split.
  - intros [Hin Hid]%List.find_some. apply list_elem_of_In in Hin.
    by apply String.eqb_eq in Hid.
  - intros [Hin Hid]. by apply find_has_id_unique.
Qed.

(** The feed list only grows at its end, and no handler changes the id, the
    url or the [active] field of an entry; the terminal output and the
    toasts only grow at their ends. *)
Theorem page_append_only events p :
  map identity (feeds p) `prefix_of` map identity (feeds (run events p)) ∧
  terminalOutput p `prefix_of` terminalOutput (run events p) ∧
  toasts p `prefix_of` toasts (run events p).
Proof.
  revert p. induction events as [|ev events IH]; intros p; [done|].
  simpl. destruct (IH (step ev p)) as (Hf & Ht & Ho).
  assert (Hstep :
    map identity (feeds p) `prefix_of` map identity (feeds (step ev p)) ∧
    terminalOutput p `prefix_of` terminalOutput (step ev p) ∧
    toasts p `prefix_of` toasts (step ev p)).
  { assert (Hmap : ∀ g : FeedData → FeedData,
              (∀ f, identity (g f) = identity f) →
              map identity (map g (feeds p)) = map identity (feeds p)).
    { intros g Hg. rewrite map_map. by apply map_ext. }
    destruct ev; simpl.
    - unfold handleNewFeed. destruct (existsb _ _); [done|]. simpl.
      rewrite map_app. repeat split; by apply prefix_app_r.
    - rewrite Hmap by (intros g; by case_match).
      repeat split; try done. by apply prefix_app_r.
    - unfold toggleFeed. repeat case_match; simpl; repeat split; try done.
      by apply prefix_app_r.
    - unfold changeDetectionMode.
      repeat case_match; simpl;
        rewrite Hmap by (intros g; by case_match);
        repeat split; try done; by apply prefix_app_r.
    - unfold results_timer. case_match; simpl; repeat split; try done.
      by apply prefix_app_r.
    - done.
    - done. }
  destruct Hstep as (Hf' & Ht' & Ho').
  repeat split; etrans; done.
Qed.

(** Once a feed has connected, a later connection with the same id is
    ignored: the feed list, the terminal and the toasts stay as they are. *)
Theorem handleNewFeed_first_wins now now' feed feed' p :
  id feed' = id feed →
  handleNewFeed now' feed' (handleNewFeed now feed p)
    = handleNewFeed now feed p.
Proof.
  intros Hid. unfold handleNewFeed at 2 3.
  destruct (existsb (has_id (id feed)) (feeds p)) eqn:E.
  - unfold handleNewFeed. by rewrite Hid, E.
  - unfold handleNewFeed. simpl. rewrite existsb_app. simpl.
    unfold has_id at 2. rewrite Hid, String.eqb_refl.
    by rewrite orb_true_r.
Qed.

Lemma handleNewFeed_first_wins_witness :
  let front := {| id := "1"; name := "Front Door"; url := "/placeholder.svg";
                  active := true; detectionMode := "none" |} in
  let other := {| id := "1"; name := "Garage"; url := "rtsp://cam/2";
                  active := false; detectionMode := "motion" |} in
  feeds (run [NewFeed "10:00:00" front; NewFeed "10:00:01" other]
           (mounted "09:59:59"))
  = [front].
Proof.
  intros front other. unfold run. cbn [foldl step].
  rewrite (handleNewFeed_first_wins "10:00:00" "10:00:01" front other)
    by reflexivity.
  reflexivity.
Defined.

Lemma find_is_Some {A} (f : A → bool) (l : list A) :
  is_Some (List.find f l) ↔ ∃ x, x ∈ l ∧ f x = true.
Proof.
  split.
  - intros [x [Hin Hx]%List.find_some]. exists x.
    by rewrite list_elem_of_In.
  - intros (x & Hin & Hx). destruct (List.find f l) eqn:E; [by eexists|].
    apply list_elem_of_In in Hin.
    pose proof (List.find_none _ _ E x Hin). congruence.
Qed.

(** [changeDetectionMode] stores the mode id on every feed with the given id,
    whether or not the mode is one of the known modes, and changes no feed
    name.  It writes to the terminal exactly when both the mode and the feed
    are known, and schedules the detection results only then and only for a
    mode other than [none]. *)
Theorem changeDetectionMode_effect now feedId modeId p :
  let p' := changeDetectionMode now feedId modeId p in
  let known :=
    (∃ m, m ∈ detectionModes p ∧ mode_id m = modeId) ∧
    (∃ f, f ∈ feeds p ∧ id f = feedId) in
  map detectionMode (feeds p')
    = map (λ f, if decide (id f = feedId) then modeId else detectionMode f)
        (feeds p) ∧
  map name (feeds p') = map name (feeds p) ∧
  (known → length (terminalOutput p') = S (length (terminalOutput p)) ∧
           (modeId ≠ "none" →
            length (pending_results p') = S (length (pending_results p)))) ∧
  (¬ known → terminalOutput p' = terminalOutput p ∧
             pending_results p' = pending_results p) ∧
  (modeId = "none" → pending_results p' = pending_results p).
Proof.
  intros p' known.
  set (g := λ feed, if has_id feedId feed
                    then with_detectionMode modeId feed else feed).
  assert (Hmode : map detectionMode (map g (feeds p))
            = map (λ f, if decide (id f = feedId) then modeId
                        else detectionMode f) (feeds p)).
  { rewrite map_map. apply map_ext. intros f. unfold g, has_id.
    destruct (String.eqb (id f) feedId) eqn:E.
    - apply String.eqb_eq in E. by rewrite decide_True.
    - apply String.eqb_neq in E. by rewrite decide_False. }
  assert (Hname : map name (map g (feeds p)) = map name (feeds p)).
  { rewrite map_map. apply map_ext. intros f. unfold g. by case_match. }
  assert (Hknown : known ↔
            is_Some (List.find (λ mode, String.eqb (mode_id mode) modeId)
                       (detectionModes p)) ∧
            is_Some (List.find (has_id feedId) (feeds p))).
  { unfold known. rewrite !find_is_Some. unfold has_id.
    split; intros [(m & ? & Hm) (f & ? & Hf)]; (split; [exists m|exists f]);
      (split; [done|]);
      first [by apply String.eqb_eq|by apply String.eqb_eq in Hm
            |by apply String.eqb_eq in Hf]. }
  subst p'. unfold changeDetectionMode. fold g.
  destruct (List.find _ (detectionModes p)) as [m|] eqn:Em;
    destruct (List.find (has_id feedId) (feeds p)) as [f|] eqn:Ef.
  - assert (Hk : known) by (apply Hknown; split; by eexists).
    destruct (String.eqb modeId "none") eqn:En; simpl;
      rewrite ?length_app; simpl.
    + apply String.eqb_eq in En.
      split; [done|]. split; [done|]. split; [|split].
      * intros _. split; [lia|]. intros Hne. done.
      * intros Hn. by destruct Hn.
      * done.
    + apply String.eqb_neq in En.
      split; [done|]. split; [done|]. split; [|split].
      * intros _. split; [lia|]. intros _. lia.
      * intros Hn. by destruct Hn.
      * intros Hnone. done.
  - simpl. split; [done|]. split; [done|]. split; [|split]; try done.
    intros Hk%Hknown. destruct Hk as [_ [? [=]]].
  - simpl. split; [done|]. split; [done|]. split; [|split]; try done.
    intros Hk%Hknown. destruct Hk as [[? [=]] _].
  - simpl. split; [done|]. split; [done|]. split; [|split]; try done.
    intros Hk%Hknown. destruct Hk as [[? [=]] _].
Qed.

End PageFacts.

(** * The fetch override: what the caller and the listeners get *)
Section FetchOutcomes.
Import JSString JSON Terminal.
Context {P : Platform}.

Lemma process_detection_outcomes now init :
  let effects := (process_detection now init).1 in
  match (process_detection now init).2 with
  | Some r =>
      r = MockResponse 200 success_body ∧
      ∃ data toast,
        detection_events effects = [Parsed data] ∧
        List.filter is_toast effects = [toast]
  | None =>
      length (detection_events effects) ≤ 1 ∧ List.filter is_toast effects = []
  end.
Proof.
  unfold process_detection.
  destruct init as [[m [text|]]|]; simpl; [|split; [lia|done]..].
  destruct (JSON_parse text) as [data|]; simpl; [|split; [lia|done]].
  unfold detection_toast.
  destruct (get data "event") as [event|]; simpl; [|split; [lia|done]].
  destruct (get data "feedId") as [feedId|]; simpl; [|split; [lia|done]].
  destruct (get data "timestamp") as [timestamp|]; simpl;
    [|split; [lia|done]].
  destruct (to_string _ (or_else _ feedId _)) as [f|]; simpl;
    [|split; [lia|done]].
  destruct (to_string _ (or_else _ timestamp _)) as [t|]; simpl;
    [|split; [lia|done]].
  split; [done|]. by do 2 eexists.
Qed.

(** Whatever the request, the override does one of three things.  It answers
    with the synthesized response, which is always status 200 with the body
    [{success: true}], and only after it has dispatched exactly one
    detection event and shown exactly one notification.  Or it hands the
    request to the original fetch, with both arguments as it got them, after
    at most one detection event and no notification.  Or it throws, before
    anything is published. *)
Theorem fetch_override_outcomes apiEndpoint now input init :
  let effects := (fetch_override apiEndpoint now input init).1 in
  match (fetch_override apiEndpoint now input init).2 with
  | MockResponse status body_value =>
      status = 200 ∧ body_value = success_body ∧ intercepted effects ∧
      ∃ data toast,
        detection_events effects = [Parsed data] ∧
        List.filter is_toast effects = [toast]
  | OriginalFetch input' init' =>
      input' = input ∧ init' = init ∧
      length (detection_events effects) ≤ 1 ∧
      List.filter is_toast effects = []
  | Thrown => published effects = []
  end.
Proof.
  unfold fetch_override.
  destruct (request_pathname _) as [p|]; [|done].
  destruct (endpoint_pathname _) as [e|]; [|done].
  destruct (String.eqb p e && method_is_POST init); simpl;
    [|repeat split; lia].
  pose proof (process_detection_outcomes now init) as H. simpl in H.
  destruct (process_detection now init) as [effects [r|]]; simpl in *.
  - destruct H as (-> & data & toast & He & Ht). simpl.
    split; [done|]. split; [done|]. split.
    + unfold intercepted. rewrite !elem_of_cons. tauto.
    + by exists data, toast.
  - destruct H as [He Ht]. done.
Qed.

(** A POST to the configured path whose body is the JSON text of a plain
    payload never reaches the network: the override dispatches the parsed
    payload as one detection event, shows one notification, and answers with
    the synthesized response. *)
Theorem matched_plain_payload_is_answered
    apiEndpoint now input i text data :
  matches apiEndpoint input (Some i) = true →
  body i = BodyText text →
  JSON_parse text = Some data →
  plain_payload data = true →
  let effects := (fetch_override apiEndpoint now input (Some i)).1 in
  (fetch_override apiEndpoint now input (Some i)).2
    = MockResponse 200 success_body ∧
  detection_events effects = [Parsed data] ∧
  ∃ title description,
    detection_toast "Detection event" now data
      = Some (Toast title description false) ∧
    List.filter is_toast effects = [Toast title description false].
Proof.
  intros Hm Hb Hj Hp. unfold matches in Hm. unfold fetch_override.
  destruct (request_pathname _) as [p|]; [|done].
  destruct (endpoint_pathname _) as [e|]; [|done].
  rewrite Hm. unfold process_detection.
  destruct i as [m b]. simpl in Hb. subst b. rewrite Hj.
  destruct (detection_toast_plain_payload "Detection event" now data Hp)
    as (title & description & ->).
  simpl. split; [done|]. split; [done|]. by exists title, description.
Qed.

(** A POST to the configured path with the body [null]: the text parses, so
    the detection event is dispatched; reading [data.event] then throws
    inside the [try], so no notification is shown and the request is handed
    to the original fetch all the same.  The listeners and the network both
    see the request. *)
Theorem null_body_is_dispatched_and_forwarded apiEndpoint now input i text :
  matches apiEndpoint input (Some i) = true →
  body i = BodyText text →
  JSON_parse text = Some JNull →
  let effects := (fetch_override apiEndpoint now input (Some i)).1 in
  (fetch_override apiEndpoint now input (Some i)).2
    = OriginalFetch input (Some i) ∧
  detection_events effects = [Parsed JNull] ∧
  List.filter is_toast effects = [] ∧
  ConsoleError "Error processing detection data:" ∈ effects.
Proof.
  intros Hm Hb Hj. unfold matches in Hm. unfold fetch_override.
  destruct (request_pathname _) as [p|]; [|done].
  destruct (endpoint_pathname _) as [e|]; [|done].
  rewrite Hm. unfold process_detection.
  destruct i as [m b]. simpl in Hb. subst b. rewrite Hj. simpl.
  split; [done|]. split; [done|]. split; [done|].
  rewrite !elem_of_cons. tauto.
Qed.

End FetchOutcomes.

Section FetchOutcomeExamples.
Import JSString JSON Terminal Sample.

Lemma matched_plain_payload_is_answered_witness :
  (fetch_override (P:=sample_platform) "/detection_output" "14:35:22"
     (InString "https://cam.example/detection_output")
     (post vehicle_frame)).2
  = MockResponse (P:=sample_platform) 200 success_body.
Proof.
  apply (matched_plain_payload_is_answered (P:=sample_platform)
           "/detection_output" "14:35:22"
           (InString "https://cam.example/detection_output")
           {| method := Some "POST"; body := BodyText vehicle_frame |}
           vehicle_frame vehicle_payload); reflexivity.
Defined.

Lemma null_body_is_dispatched_and_forwarded_witness :
  detection_events
    (fetch_override (P:=sample_platform) "/detection_output" "14:35:22"
       (InString "/detection_output") (post "null")).1
  = [Parsed (P:=sample_platform) JNull].
Proof.
  apply (null_body_is_dispatched_and_forwarded (P:=sample_platform)
           "/detection_output" "14:35:22" (InString "/detection_output")
           {| method := Some "POST"; body := BodyText "null" |} "null");
    reflexivity.
Defined.

End FetchOutcomeExamples.

Section SocketLifeExamples.
Import JSString JSON Terminal SocketLife Sample.

Lemma late_close_clears_indicator_witness :
  let st := run (P:=sample_platform)
              [Mount; EndpointChange "ws://cam.example/ws";
               SocketCallback 1 CbOpen] initial in
  wsConnected st = true ∧
  wsConnected (step (SocketCallback 0 CbClose) st) = false ∧
  open_at (step (SocketCallback 0 CbClose) st) 1.
Proof.
  intros st. split; [reflexivity|].
  destruct (late_close_clears_indicator (P:=sample_platform)
              [Mount; EndpointChange "ws://cam.example/ws";
               SocketCallback 1 CbOpen] 0 1
              (closed_by_script (new_socket "ws://localhost:8080/ws")))
    as (Hc & Ho & _).
  - split; [reflexivity|]. split; [reflexivity|]. by eexists.
  - lia.
  - reflexivity.
  - discriminate.
  - split; [exact Hc|exact Ho].
Defined.

Lemma connect_with_empty_endpoint_is_idle_witness :
  let st := run (P:=sample_platform) [Mount; EndpointChange ""] initial in
  run [ConnectToggle; TimerFires] st = st.
Proof.
  intros st.
  apply (connect_with_empty_endpoint_is_idle (P:=sample_platform) st);
    reflexivity.
Defined.

End SocketLifeExamples.

(** * The playback session over the turns of the event loop *)
Section PlaybackFacts.
Import JSString VideoFeed Playback.


Lemma classification_effect_in_same f s :
  classification_effect_in s f s = classification_effect f s.
Proof. reflexivity. Qed.

Lemma load_effect_cells s :
  let s' := (load_effect s).1 in
  hasError s' = false ∧ isLoading s' = true ∧
  isVideoFeed s' = isVideoFeed s ∧ isLiveStream s' = isLiveStream s ∧
  isPlaying s' = isPlaying s.
Proof. done. Qed.










(** A feed change while no [<video>] element is rendered (the error panel,
    or a static image) to the URL of a live stream: the effects call neither
    [load()] nor [play()] and leave [isPlaying] as it was; the next render
    shows the stream's [<video>] element, not started. *)
Theorem stream_after_no_video_is_not_started f_prev f s :
  video_mounted s = false → feed_url f_prev ≠ feed_url f →
  classify (feed_url f) = LiveStream →
  let s' := (feed_changed f_prev f s).1 in
  (feed_changed f_prev f s).2 = [] ∧
  isPlaying s' = isPlaying s ∧
  hasError s' = false ∧ isLiveStream s' = true ∧ video_mounted s' = true.
Proof.
  intros Hv Hurl Hk. unfold feed_changed, commit, load_effect_deps.
  rewrite bool_decide_eq_false_2 by congruence.
  rewrite (bool_decide_eq_false_2 (feed_url f_prev = feed_url f)) by done.
  unfold load_effect, classification_effect_in. rewrite Hv.
  rewrite andb_false_r. cbn [fst snd app].
  unfold classify, classification_flags, kind_of_flags in Hk.
  destruct (isStream (toLowerCase (feed_url f))),
    (isVideoFile (toLowerCase (feed_url f))); try done.
Qed.

End PlaybackFacts.

Section PlaybackExamples.
Import JSString VideoFeed Playback.


(** The first feed is a static image; the feed then changes to a camera
    stream. *)
Lemma stream_after_no_video_is_not_started_witness :
  let image := {| feed_id := "1"; feed_url := "/placeholder.svg" |} in
  let camera := {| feed_id := "2"; feed_url := "rtsp://192.168.1.10/live" |} in
  let s := session (mounted image) in
  (mount camera).2 = [Load; Pause; Play StreamAutoplay] ∧
  (feed_changed image camera s).2 = [] ∧
  isPlaying (feed_changed image camera s).1 = false.
Proof.
  intros image camera s. split; [reflexivity|].
  destruct (stream_after_no_video_is_not_started image camera s)
    as (Hcalls & Hplay & _); [reflexivity|discriminate|reflexivity|].
  split; [exact Hcalls|exact Hplay].
Defined.

(** C9 (as stated) fails.  The component shows a camera stream and the feed
    changes to an image: the load effect of that commit still sees the
    stream's flags and calls [play()], the classification effect clears
    [isVideoFeed].  The promise rejects, which puts the session in the Error
    state.  The click on "Try Again" then counts the retry and clears the
    error, but there is no media sink and no [load()] is issued. *)
Lemma retry_on_static_image_issues_no_load :
  let camera := {| feed_id := "1"; feed_url := "rtsp://192.168.1.10/live" |} in
  let image := {| feed_id := "2"; feed_url := "/placeholder.svg" |} in
  let aborted := {| name := Some "AbortError";
                    message := Some "The play() request was interrupted";
                    code := Some 20 |} in
  let c := run [FeedChanged image; PlayRejected LoadEffect aborted]
             (mounted camera) in
  (step (FeedChanged image) (mounted camera)).2 = [Load; Play LoadEffect] ∧
  feed c = image ∧ classify (feed_url image) = StaticImage ∧
  in_error (session c) ∧ isVideoFeed (session c) = false ∧
  retryCount (retry_click image (session c)).1 = 1 ∧
  hasError (retry_click image (session c)).1 = false ∧
  (retry_click image (session c)).2 = [] ∧
  Load ∉ (retry_click image (session c)).2.
Proof.
  repeat split. intros H. vm_compute in H. by apply elem_of_nil in H.
Qed.

End PlaybackExamples.

(** * The table of detection modes and the prompt *)
Section PromptFacts.
Import JSString DetectionModes PromptSender.

Ltac by_mode_id dm :=
  unfold prompt_rendered, shouldShowPrompt, should_show_in,
    getCurrentModeName, detectionModes;
  repeat first
    [ progress unfold has_child, is_mode, is_child
    | progress cbn -[String.eqb]
    | match goal with
      | |- context [String.eqb ?k dm] =>
          destruct (String.eqb_spec k dm) as [<-|?]
      end ].

(** The prompt input is rendered exactly for the five modes that ask for a
    prompt, the two children of the no-go group among them; the name shown
    in its placeholder is [None] exactly for the mode [none] and for ids the
    table does not have (the page's [person] and [vehicle], say), so never
    while the input is rendered. *)
Theorem prompt_rendered_iff detectionMode :
  (prompt_rendered detectionMode = true ↔
   detectionMode ∈ ["object"; "motion"; "object-motion"; "entrance"; "floor"]) ∧
  (getCurrentModeName detectionMode = "None" ↔
   detectionMode = "none" ∨ detectionMode ∉ mode_ids) ∧
  (prompt_rendered detectionMode = true →
   getCurrentModeName detectionMode ≠ "None").
Proof.
  unfold mode_ids. rewrite !elem_of_cons, !elem_of_nil.
  by_mode_id detectionMode; repeat split; try done; try tauto;
    intuition congruence.
Qed.

Lemma trimStart_empty_iff s : trimStart s = "" ↔ all_chars is_white s = true.
Proof.
  induction s as [|c s IH]; simpl; [done|].
  destruct (is_white c); simpl; done.
Qed.

Lemma trimEnd_empty_iff s : trimEnd s = "" ↔ all_chars is_white s = true.
Proof.
  induction s as [|c s IH]; simpl; [done|].
  destruct (trimEnd s) eqn:E.
  - destruct (is_white c); simpl; [|done]. tauto.
  - split; [done|]. intros [_ H]%andb_true_iff. apply IH in H. done.
Qed.

Lemma trimStart_ink s :
  all_chars is_white s = false → all_chars is_white (trimStart s) = false.
Proof.
  induction s as [|c s IH]; simpl; [done|].
  destruct (is_white c) eqn:E; simpl; [done|]. by rewrite E.
Qed.

(** [promptInput.trim()] is truthy exactly when some unit of the input is
    no white space. *)
Lemma trim_truthy s : truthy (trim s) = has_ink s.
Proof.
  unfold trim, has_ink. destruct (all_chars is_white s) eqn:E; simpl.
  - apply trimStart_empty_iff in E. by rewrite E.
  - apply trimStart_ink in E.
    destruct (trimEnd (trimStart s)) eqn:Et; [|done].
    apply trimEnd_empty_iff in Et. congruence.
Qed.

(** [handleSendPrompt] always saves the prompt locally first, as typed.  It
    sends one request exactly when the input has a unit that is no white
    space, with the input as typed (not trimmed) in the body, and then shows
    exactly one notification: the success one exactly when the response's
    status is in 200..299, the failure one for every other status and for a
    rejected request.  A blank prompt is saved, never sent, and nothing is
    shown. *)
Theorem handleSendPrompt_sends_iff feed promptInput now outcome :
  let effects := handleSendPrompt feed promptInput now outcome in
  let accepted := ∃ status, outcome = Responded status ∧ 200 ≤ status ≤ 299 in
  head effects
    = Some (OnChangeDetectionMode (IndexPage.id feed)
              (IndexPage.detectionMode feed) promptInput) ∧
  (has_ink promptInput = false → tail effects = []) ∧
  (has_ink promptInput = true →
   (∃ body, requests effects = [body] ∧ body_prompt body = promptInput ∧
            body_feedId body = IndexPage.id feed) ∧
   (accepted → toasts effects = [sent_toast (IndexPage.detectionMode feed)]) ∧
   (¬ accepted → toasts effects = [failed_toast])).
Proof.
  intros effects accepted. subst effects accepted. unfold handleSendPrompt.
  rewrite trim_truthy. split; [done|]. split.
  - by intros ->.
  - intros ->. split; [|split].
    + destruct outcome as [status|]; [destruct (response_ok status)|];
        by eexists.
    + intros (status & -> & Hlo & Hhi). unfold response_ok.
      apply Nat.leb_le in Hlo, Hhi. by rewrite Hlo, Hhi.
    + intros Hno. destruct outcome as [status|]; [|done].
      destruct (response_ok status) eqn:E; [|done].
      destruct Hno. exists status. unfold response_ok in E.
      apply andb_true_iff in E as [Hlo%Nat.leb_le Hhi%Nat.leb_le]. done.
Qed.

End PromptFacts.

(** * What the IP-camera pattern matches *)
Section PatternFacts.
Import JSString Regex VideoFeed Locator.

Lemma unit_before_cons prev c pre :
  unit_before (Some c) pre = unit_before prev (String c pre).
Proof. unfold unit_before. simpl. by destruct (last_char pre). Qed.

Lemma search_spec r prev s :
  search r prev s = true ↔
  ∃ pre tail, s = pre +:+ tail ∧
    accepts r (unit_before prev pre) tail (λ _ _, true) = true.
Proof.
  revert prev. induction s as [|c s IH]; intros prev; cbn [search].
  - rewrite orb_false_r. split.
    + intros H. by exists "", "".
    + intros (pre & tail & Hs & H). destruct pre; [|done].
      rewrite append_nil_l in Hs. by subst tail.
  - rewrite orb_true_iff, IH. split.
    + intros [H|(pre & tail & -> & H)].
      * by exists "", (String c s).
      * exists (String c pre), tail. by rewrite <- unit_before_cons.
    + intros (pre & tail & Hs & H). destruct pre as [|d pre].
      * left. rewrite append_nil_l in Hs. by subst tail.
      * right. rewrite append_cons in Hs. injection Hs as -> ->.
        exists pre, tail. by rewrite unit_before_cons with (prev := prev).
Qed.

Lemma accepts_Lit_inv c prev s k :
  accepts (Lit c) prev s k = true →
  ∃ rest, s = String c rest ∧ k (Some c) rest = true.
Proof.
  destruct s as [|d s]; simpl; [done|].
  intros [Hc Hk]%andb_true_iff. apply Ascii.eqb_eq in Hc as <-. by exists s.
Qed.

Lemma star_inv p prev s k :
  star p prev s k = true →
  ∃ a rest q, s = a +:+ rest ∧ all_chars p a = true ∧ k q rest = true.
Proof.
  revert prev. induction s as [|c s IH]; intros prev; cbn [star].
  - rewrite orb_false_r. intros H. by exists "", "", prev.
  - intros [H|[Hc H]%andb_true_iff]%orb_true_iff.
    + by exists "", (String c s), prev.
    + destruct (IH _ H) as (a & rest & q & -> & Ha & Hk).
      exists (String c a), rest, q. simpl. by rewrite Hc, Ha.
Qed.

Lemma accepts_Plus_inv p prev s k :
  accepts (Plus p) prev s k = true →
  ∃ a rest q, s = a +:+ rest ∧ all_chars p a = true ∧ a ≠ "" ∧
              k q rest = true.
Proof.
  destruct s as [|c s]; cbn [accepts Plus]; [done|].
  intros [Hc H]%andb_true_iff.
  destruct (star_inv _ _ _ _ H) as (a & rest & q & -> & Ha & Hk).
  exists (String c a), rest, q. simpl. by rewrite Hc, Ha.
Qed.

Lemma accepts_Rep1to3_inv p prev s k :
  accepts (Rep1to3 p) prev s k = true →
  ∃ a rest q, s = a +:+ rest ∧ all_chars p a = true ∧
              1 ≤ String.length a ≤ 3 ∧ k q rest = true.
Proof.
  destruct s as [|c1 s]; cbn [accepts Rep1to3]; [done|].
  intros [H1 H]%andb_true_iff.
  apply orb_true_iff in H as [H|H].
  - destruct s as [|c2 s]; [done|].
    apply andb_true_iff in H as [H2 H].
    apply orb_true_iff in H as [H|H].
    + destruct s as [|c3 s]; [done|].
      apply andb_true_iff in H as [H3 H].
      exists (String c1 (String c2 (String c3 ""))), s, (Some c3).
      simpl. rewrite H1, H2, H3. repeat split; try done; lia.
    + exists (String c1 (String c2 "")), s, (Some c2).
      simpl. rewrite H1, H2. repeat split; try done; lia.
  - exists (String c1 ""), s, (Some c1).
    simpl. rewrite H1. repeat split; try done; lia.
Qed.

Lemma accepts_octet_dot_inv prev s k :
  accepts octet_dot prev s k = true →
  ∃ a rest, s = a +:+ "." +:+ rest ∧ octet a ∧ k (Some "."%char) rest = true.
Proof.
  unfold octet_dot. cbn [accepts]. intros H.
  destruct (accepts_Rep1to3_inv _ _ _ _ H) as (a & s1 & q & -> & Ha & La & H1).
  destruct (accepts_Lit_inv _ _ _ _ H1) as (rest & -> & Hk).
  by exists a, rest.
Qed.

Lemma accepts_octet_dot a prev rest k :
  octet a → (∀ q, k q rest = true) →
  accepts octet_dot prev (a +:+ "." +:+ rest) k = true.
Proof.
  intros [Ha La] Hk. unfold octet_dot. cbn [accepts].
  apply accepts_Rep1to3; [done..|]. intros q. by apply accepts_Lit.
Qed.

Lemma octet_head_is_word a rest : octet a → head_is_word (a +:+ rest) = true.
Proof.
  intros [Ha La]. destruct a as [|c a]; [simpl in La; lia|].
  simpl in Ha. apply andb_true_iff in Ha as [Hc _].
  rewrite append_cons. simpl. unfold is_word. by rewrite Hc, !orb_true_r.
Qed.

Lemma port_path_end_spec prev s :
  accepts port_path_end prev s (λ _ _, true) = true ↔
  ∃ port path, s = port +:+ path ∧ optional_port port ∧ optional_path path.
Proof.
  assert (Hpath : ∀ q t,
    accepts (Cat (Opt (Cat (Lit "/") (Star url_tail_char))) EndOfInput) q t
      (λ _ _, true) = true ↔ optional_path t).
  { intros q t. cbn [accepts]. rewrite orb_true_iff. split.
    - intros [H|H].
      + destruct (accepts_Lit_inv _ _ _ _ H) as (t1 & -> & H1).
        destruct (star_inv _ _ _ _ H1) as (p & t2 & q2 & -> & Hp & H2).
        destruct t2; [|done]. right. exists p.
        by rewrite append_nil_r.
      + destruct t; [|done]. by left.
    - intros [->|(p & -> & Hp)]; [by right|]. left.
      rewrite append_cons, append_nil_l. apply accepts_Lit.
      rewrite <- (append_nil_r p). by apply star_all. }
  unfold port_path_end. cbn [accepts]. rewrite orb_true_iff. split.
  - intros [H|H].
    + destruct (accepts_Lit_inv _ _ _ _ H) as (t1 & -> & H1).
      destruct (accepts_Plus_inv _ _ _ _ H1) as (p & t2 & q2 & -> & Hp & Hne & H2).
      exists (":" +:+ p), t2. split; [done|]. split.
      * right. by exists p.
      * by apply (Hpath q2).
    + exists "", s. split; [done|]. split; [by left|]. by apply (Hpath prev).
  - intros (port & path & -> & [->|(p & -> & Hp & Hne)] & Hq).
    + right. rewrite append_nil_l. by apply Hpath.
    + left. rewrite append_cons, append_nil_l. apply accepts_Lit.
      fold (accepts (Plus is_digit)).
      apply accepts_Plus; [done..|]. intros q. by apply Hpath.
Qed.

Lemma ip_camera_re_unfold prev s k :
  accepts ip_camera_re prev s k
  = at_word_boundary prev s &&
    accepts octet_dot prev s (λ p1 s1,
      accepts octet_dot p1 s1 (λ p2 s2,
        accepts octet_dot p2 s2 (λ p3 s3,
          accepts (Rep1to3 is_digit) p3 s3 (λ p4 s4,
            accepts port_path_end p4 s4 k)))).
Proof. reflexivity. Qed.

(** The IP-camera pattern of the classification effect matches a text
    exactly when the text ends in a dotted quad of one to three digits each,
    an optional colon with digits and an optional slash with units of the
    path class, where the quad starts the text or follows a unit that is no
    word unit. *)
Theorem ip_camera_re_matches_iff s :
  test ip_camera_re s = true ↔ ip_camera_locator s.
Proof.
  unfold test. rewrite search_spec. unfold unit_before, ip_camera_locator.
  split.
  - intros (pre & tail & -> & H). rewrite ip_camera_re_unfold in H.
    apply andb_true_iff in H as [Hb H].
    destruct (accepts_octet_dot_inv _ _ _ H) as (a & t1 & -> & Ha & H1).
    destruct (accepts_octet_dot_inv _ _ _ H1) as (b & t2 & -> & Hbo & H2).
    destruct (accepts_octet_dot_inv _ _ _ H2) as (c & t3 & -> & Hc & H3).
    destruct (accepts_Rep1to3_inv _ _ _ _ H3) as (d & t4 & q & -> & Hd & Ld & H4).
    apply port_path_end_spec in H4 as (port & path & -> & Hport & Hpath).
    exists pre, a, b, c, d, port, path. split; [done|].
    split; [|done]. unfold ends_outside_word.
    unfold at_word_boundary in Hb. rewrite (octet_head_is_word a) in Hb by done.
    destruct (last_char pre) as [ch|]; [|done]. simpl in Hb |- *.
    by destruct (is_word ch).
  - intros (pre & a & b & c & d & port & path & -> & Hpre & Ha & Hb & Hc
            & [Hd Ld] & Hport & Hpath).
    exists pre, (a +:+ "." +:+ b +:+ "." +:+ c +:+ "." +:+ d +:+ port +:+ path).
    split; [done|]. rewrite ip_camera_re_unfold. apply andb_true_iff. split.
    + unfold at_word_boundary. rewrite (octet_head_is_word a) by done.
      unfold ends_outside_word in Hpre.
      destruct (last_char pre) as [ch|]; [|done]. simpl in Hpre |- *.
      by rewrite Hpre.
    + apply accepts_octet_dot; [done|]. intros q1.
      apply accepts_octet_dot; [done|]. intros q2.
      apply accepts_octet_dot; [done|]. intros q3.
      apply accepts_Rep1to3; [done..|]. intros q.
      apply port_path_end_spec. by exists port, path.
Qed.

(** Every text the IP-camera pattern of the latest draft matches, the
    earlier draft's pattern (four runs of digits separated by dots,
    anywhere) matches as well: the later pattern is the stricter one. *)
Theorem ip_camera_re_stricter_than_draft s :
  test ip_camera_re s = true → test dotted_quad_re s = true.
Proof.
  intros (pre & a & b & c & d & port & path & -> & _ & [Ha La] & [Hb Lb]
          & [Hc Lc] & [Hd Ld] & _)%ip_camera_re_matches_iff.
  assert (Hne : ∀ x, 1 ≤ String.length x ≤ 3 → x ≠ "").
  { intros x Hx ->. simpl in Hx. lia. }
  unfold test. apply search_spec.
  exists pre, (a +:+ "." +:+ b +:+ "." +:+ c +:+ "." +:+ d +:+ port +:+ path).
  split; [done|]. unfold dotted_quad_re. cbn [accepts].
  apply (accepts_Plus is_digit a); [done|by apply Hne|].
  intros q0. apply accepts_Lit.
  apply (accepts_Plus is_digit b); [done|by apply Hne|].
  intros q1. apply accepts_Lit.
  apply (accepts_Plus is_digit c); [done|by apply Hne|].
  intros q2. apply accepts_Lit.
  apply (accepts_Plus is_digit d); [done|by apply Hne|]. done.
Qed.

Lemma ip_camera_re_stricter_than_draft_witness :
  test dotted_quad_re "cam 10.0.0.7:8080/video" = true ∧
  test dotted_quad_re "v1.2.3.4x" = true ∧
  test ip_camera_re "v1.2.3.4x" = false.
Proof.
  split; [|split; reflexivity].
  apply (ip_camera_re_stricter_than_draft "cam 10.0.0.7:8080/video").
  reflexivity.
Defined.

End PatternFacts.
